(** * A Rocq model of the rendering core of the ray tracer

    Sources modelled: [include/rtweekend.h], [include/color.h] and
    [include/camera.h].  The headers [vec3.h], [ray.h], [interval.h],
    [hittable.h] and [material.h] are not among the modelled sources: the
    operations of theirs that the camera uses are either fields of the
    [Environment] class below (scene and material dispatch, the random
    generator, the tangent of the C library) or small definitions written
    from the specification and marked as such.

    Conventions.
    - [int] and [unsigned int] are 32-bit; a value is a [Z] and every
      conversion between the two types is written out.
    - [double] is IEEE-754 binary64, as specified by [SpecFloat] with
      [prec = 53] and [emax = 1024].
    - Threads are modelled by an interleaving step relation over a shared
      state (pixel buffer, atomic counter, the two output streams).

    The file has four parts: the model, the predicates used to state
    properties, the lemmas and theorems about the properties that the
    specification claims, and further properties of the code. *)

From Stdlib Require Import ZArith Lia Bool List.
From Stdlib Require Import Floats.SpecFloat.
From stdpp Require Import base list.

Local Open Scope Z_scope.

(* ===================================================================== *)
(** * Part I: the model *)
(* ===================================================================== *)

(** ** Machine integers *)

Definition INT_MAX : Z := 2147483647.
Definition INT_MIN : Z := -2147483648.
Definition UINT_MAX : Z := 4294967295.

(** Conversion to [unsigned int]: reduction modulo 2^32. *)
Definition to_unsigned (z : Z) : Z := z mod 2 ^ 32.

(** Conversion of an [unsigned int] value to [int]. *)
Definition to_int (z : Z) : Z :=
  let u := to_unsigned z in
  if u <=? INT_MAX then u else u - 2 ^ 32.

(** ** IEEE-754 binary64 *)

Definition prec : Z := 53.
Definition emax : Z := 1024.

Definition double : Type := spec_float.

(** The representation is the canonical one of a binary64 value. *)
Definition is_double (x : double) : Prop := valid_binary prec emax x = true.

Definition dadd : double -> double -> double := SFadd prec emax.
Definition dsub : double -> double -> double := SFsub prec emax.
Definition dmul : double -> double -> double := SFmul prec emax.
Definition ddiv : double -> double -> double := SFdiv prec emax.
Definition dsqrt : double -> double := SFsqrt prec emax.
Definition dneg : double -> double := SFopp.
Definition dlt : double -> double -> bool := SFltb.
Definition dle : double -> double -> bool := SFleb.

Definition is_nan (x : double) : bool :=
  match x with S754_nan => true | _ => false end.

Definition is_zero (x : double) : bool :=
  match x with S754_zero _ => true | _ => false end.

Definition is_finite (x : double) : bool :=
  match x with S754_zero _ | S754_finite _ _ _ => true | _ => false end.

(** Conversion [int -> double] (exact: an [int] has at most 31 digits). *)
Definition double_of_int (n : Z) : double := binary_normalize prec emax n 0 false.

(** A decimal literal [n / 10^k] of the source text, rounded to nearest:
    both [n] and [10^k] are exact doubles, and the division rounds
    correctly. *)
Definition decimal (n : Z) (k : Z) : double :=
  ddiv (double_of_int n) (double_of_int (10 ^ k)).

(** Truncation toward zero of a finite value. *)
Definition truncate (x : double) : option Z :=
  match x with
  | S754_zero _ => Some 0
  | S754_finite s m e => Some (cond_Zopp s (Z.shiftl (Zpos m) e))
  | _ => None
  end.

(** Conversion [double -> int]: the value is truncated; the behaviour is
    undefined ([None]) when the truncated value is not an [int]. *)
Definition int_of_double (x : double) : option Z :=
  match truncate x with
  | Some z => if (INT_MIN <=? z) && (z <=? INT_MAX) then Some z else None
  | None => None
  end.

(** ** rtweekend.h: constants and utility functions *)

Definition infinity : double := S754_infinity false.
Definition pi : double := decimal 3141519 6.

Definition degrees_to_radians (degrees : double) : double :=
  ddiv (dmul degrees pi) (double_of_int 180).

(** ** vec3, ray and interval *)

Record vec3 : Type := mk_vec3 { x : double; y : double; z : double }.

Definition point3 : Type := vec3.
Definition color : Type := vec3.

(** Modelled from the spec: the arithmetic of [vec3.h] (not among the
    sources), "3-component real arithmetic, dot, cross, normalize",
    component by component. *)
Definition vadd (a b : vec3) : vec3 :=
  mk_vec3 (dadd (x a) (x b)) (dadd (y a) (y b)) (dadd (z a) (z b)).

Definition vsub (a b : vec3) : vec3 :=
  mk_vec3 (dsub (x a) (x b)) (dsub (y a) (y b)) (dsub (z a) (z b)).

Definition vneg (a : vec3) : vec3 := mk_vec3 (dneg (x a)) (dneg (y a)) (dneg (z a)).

(** [a * b] on two vectors. *)
Definition vmul (a b : vec3) : vec3 :=
  mk_vec3 (dmul (x a) (x b)) (dmul (y a) (y b)) (dmul (z a) (z b)).

(** [t * v]. *)
Definition vscale (t : double) (a : vec3) : vec3 :=
  mk_vec3 (dmul t (x a)) (dmul t (y a)) (dmul t (z a)).

(** [v * t]. *)
Definition vscale_r (a : vec3) (t : double) : vec3 :=
  mk_vec3 (dmul (x a) t) (dmul (y a) t) (dmul (z a) t).

(** [v / t]. *)
Definition vdiv (a : vec3) (t : double) : vec3 :=
  mk_vec3 (ddiv (x a) t) (ddiv (y a) t) (ddiv (z a) t).

Definition cross (a b : vec3) : vec3 :=
  mk_vec3 (dsub (dmul (y a) (z b)) (dmul (z a) (y b)))
          (dsub (dmul (z a) (x b)) (dmul (x a) (z b)))
          (dsub (dmul (x a) (y b)) (dmul (y a) (x b))).

Definition length_squared (a : vec3) : double :=
  dadd (dadd (dmul (x a) (x a)) (dmul (y a) (y a))) (dmul (z a) (z a)).

Definition vlength (a : vec3) : double := dsqrt (length_squared a).

Definition unit_vector (a : vec3) : vec3 := vdiv a (vlength a).

Definition d0 : double := S754_zero false.
Definition black : color := mk_vec3 d0 d0 d0.

(** Modelled from the spec: [ray.h] (not among the sources), "an origin
    point and a direction vector". *)
Record ray : Type := mk_ray { origin : point3; direction : vec3 }.

(** Modelled from the spec: [interval.h] (not among the sources), a pair of
    bounds with "clamping to [min, max]". *)
Record interval : Type := mk_interval { imin : double; imax : double }.

Definition clamp (iv : interval) (v : double) : double :=
  if dlt v (imin iv) then imin iv
  else if dlt (imax iv) v then imax iv
  else v.

(** ** color.h: the output encoder *)

(** The image stream: the header and one entry per pixel line. *)
Inductive ppm_item : Type :=
| Header (width height : Z)
| PixelLine (rbyte gbyte bbyte : Z).

(** [static const interval intensity(0.000, 0.999);] *)
Definition intensity : interval := mk_interval (decimal 0 3) (decimal 999 3).

(** [int(256 * intensity.clamp(c))] for one channel. *)
Definition channel_byte (c : double) : option Z :=
  int_of_double (dmul (double_of_int 256) (clamp intensity c)).

Definition write_color (out : list ppm_item) (pixel_color : color) : option (list ppm_item) :=
  let r := x pixel_color in
  let g := y pixel_color in
  let b := z pixel_color in
  match channel_byte r, channel_byte g, channel_byte b with
  | Some rbyte, Some gbyte, Some bbyte => Some (out ++ [PixelLine rbyte gbyte bbyte])
  | _, _, _ => None
  end.

(** ** The external collaborators of the camera *)

(** Modelled from the spec: the hit record of [hittable.h] (not among the
    sources), "nearest intersection distance, world point, surface normal,
    material reference, front/back-face flag". *)
Record hit_record (material : Type) : Type := mk_hit_record {
  hr_p : point3;
  hr_normal : vec3;
  hr_mat : material;
  hr_t : double;
  hr_front_face : bool
}.

Arguments hr_mat {material} _.

(** What the camera consumes and does not define: the state of the
    thread-local generator and a draw from its uniform distribution on
    [0, 1); the order in which the two arguments of a call that draw from
    the generator are evaluated, which the language leaves to the compiler
    (it may differ from one evaluation to the next); the sampling of the
    unit disk; the scene's hit test and the materials' scatter; the tangent
    of the C library; the hardware concurrency hint. *)
Class Environment : Type := {
  generator : Type;
  uniform_real : generator -> double * generator;
  first_argument_first : generator -> bool;
  random_in_unit_disk : generator -> vec3 * generator;
  material : Type;
  hittable : Type;
  hit : hittable -> ray -> interval -> option (hit_record material);
  scatter : material -> ray -> hit_record material -> generator
            -> option (color * ray) * generator;
  tan : double -> double;
  hardware_concurrency : Z
}.

(** [random_double()] of rtweekend.h. *)
Definition random_double `{Environment} (g : generator) : double * generator :=
  uniform_real g.

(** [random_double(min, max)] of rtweekend.h:
    [min + (max - min) * random_double()]. *)
Definition random_double_range `{Environment} (min max : double) (g : generator)
  : double * generator :=
  let (r, g1) := random_double g in
  (dadd min (dmul (dsub max min) r), g1).

(** ** camera.h: the camera *)

Record camera : Type := mk_camera {
  (* public configuration *)
  aspect_ratio : double;
  image_width : Z;
  samples_per_pixel : Z;
  max_depth : Z;
  vfov : double;
  lookfrom : point3;
  lookat : point3;
  vup : vec3;
  defocus_angle : double;
  focus_dist : double;
  (* private, written by initialize *)
  image_height : Z;
  pixel_samples_scale : double;
  center : point3;
  pixel00_loc : point3;
  pixel_delta_u : vec3;
  pixel_delta_v : vec3;
  cam_w : vec3;
  cam_u : vec3;
  cam_v : vec3;
  defocus_disk_u : vec3;
  defocus_disk_v : vec3
}.

Definition initialize `{Environment} (c : camera) : option camera :=
  match int_of_double (ddiv (double_of_int (image_width c)) (aspect_ratio c)) with
  | None => None
  | Some h0 =>
    let image_height := if h0 <? 1 then 1 else h0 in
    let pixel_samples_scale := ddiv (double_of_int 1) (double_of_int (samples_per_pixel c)) in
    let center := lookfrom c in
    let theta := degrees_to_radians (vfov c) in
    let h := tan (ddiv theta (double_of_int 2)) in
    let viewport_height := dmul (dmul (double_of_int 2) h) (focus_dist c) in
    let viewport_width :=
      dmul viewport_height
           (ddiv (double_of_int (image_width c)) (double_of_int image_height)) in
    let w := unit_vector (vsub (lookfrom c) (lookat c)) in
    let u := unit_vector (cross (vup c) w) in
    let v := cross w u in
    let viewport_u := vscale viewport_width u in
    let viewport_v := vscale viewport_height (vneg v) in
    let pixel_delta_u := vdiv viewport_u (double_of_int (image_width c)) in
    let pixel_delta_v := vdiv viewport_v (double_of_int image_height) in
    let viewport_upper_left :=
      vsub (vsub (vsub center (vscale (focus_dist c) w))
                 (vdiv viewport_u (double_of_int 2)))
           (vdiv viewport_v (double_of_int 2)) in
    let pixel00_loc :=
      vadd viewport_upper_left
           (vscale (decimal 5 1) (vadd pixel_delta_u pixel_delta_v)) in
    let defocus_radius :=
      dmul (focus_dist c)
           (tan (degrees_to_radians (ddiv (defocus_angle c) (double_of_int 2)))) in
    let defocus_disk_u := vscale_r u defocus_radius in
    let defocus_disk_v := vscale_r v defocus_radius in
    Some (mk_camera (aspect_ratio c) (image_width c) (samples_per_pixel c) (max_depth c)
                    (vfov c) (lookfrom c) (lookat c) (vup c) (defocus_angle c) (focus_dist c)
                    image_height pixel_samples_scale center pixel00_loc
                    pixel_delta_u pixel_delta_v w u v defocus_disk_u defocus_disk_v)
  end.

(** [sample_square]: [vec3(random_double() - 0.5, random_double() - 0.5, 0)].
    The two draws are arguments of one call: the first draw is the x offset
    when the first argument is evaluated first, and the y offset
    otherwise. *)
Definition sample_square `{Environment} (g : generator) : vec3 * generator :=
  let (a, g1) := random_double g in
  let (b, g2) := random_double g1 in
  if first_argument_first g
  then (mk_vec3 (dsub a (decimal 5 1)) (dsub b (decimal 5 1)) d0, g2)
  else (mk_vec3 (dsub b (decimal 5 1)) (dsub a (decimal 5 1)) d0, g2).

Definition defocus_disk_sample `{Environment} (c : camera) (g : generator)
  : point3 * generator :=
  let (p, g1) := random_in_unit_disk g in
  (vadd (vadd (center c) (vscale (x p) (defocus_disk_u c)))
        (vscale (y p) (defocus_disk_v c)), g1).

Definition get_ray `{Environment} (c : camera) (i j : Z) (g : generator) : ray * generator :=
  let (offset, g1) := sample_square g in
  let pixel_sample :=
    vadd (vadd (pixel00_loc c)
               (vscale (dadd (double_of_int i) (x offset)) (pixel_delta_u c)))
         (vscale (dadd (double_of_int j) (y offset)) (pixel_delta_v c)) in
  let (ray_origin, g2) :=
    if dle (defocus_angle c) d0 then (center c, g1) else defocus_disk_sample c g1 in
  let ray_direction := vsub pixel_sample ray_origin in
  (mk_ray ray_origin ray_direction, g2).

(** One query of the scene's hit test, as [ray_color] issues it. *)
Record hit_query : Type := mk_hit_query {
  q_ray : ray;
  q_depth : Z;
  q_interval : interval
}.

(** [ray_color].  The recursion of the source is on [depth]; here every
    call consumes one unit of [fuel], and [None] means that the fuel ran
    out.  The result carries the generator state and the list of hit-test
    queries issued, oldest first. *)
Fixpoint ray_color_fuel `{Environment} (fuel : nat) (r : ray) (depth : Z) (world : hittable)
  (g : generator) : option (color * generator * list hit_query) :=
  match fuel with
  | O => None
  | S fuel' =>
    if depth <=? 0 then Some (black, g, [])
    else
      let iv := mk_interval (decimal 1 3) infinity in
      let q := mk_hit_query r depth iv in
      match hit world r iv with
      | Some rec =>
        match scatter (hr_mat rec) r rec g with
        | (Some (attenuation, scattered), g1) =>
          match ray_color_fuel fuel' scattered (depth - 1) world g1 with
          | Some (c, g2, qs) => Some (vmul attenuation c, g2, q :: qs)
          | None => None
          end
        | (None, g1) => Some (black, g1, [q])
        end
      | None =>
        let unit_direction := unit_vector (direction r) in
        let a := dmul (decimal 5 1) (dadd (y unit_direction) (double_of_int 1)) in
        Some (vadd (vscale (dsub (double_of_int 1) a)
                           (mk_vec3 (double_of_int 1) (double_of_int 1) (double_of_int 1)))
                   (vscale a (mk_vec3 (decimal 5 1) (decimal 7 1) (double_of_int 1))),
              g, [q])
      end
  end.

(** [ray_color], with the fuel its depth budget calls for. *)
Definition ray_color `{Environment} (r : ray) (depth : Z) (world : hittable) (g : generator)
  : option (color * generator * list hit_query) :=
  ray_color_fuel (S (Z.to_nat depth)) r depth world g.

(** The sample loop of one pixel (camera.h, 61-65). *)
Fixpoint sample_loop `{Environment} (n : nat) (c : camera) (world : hittable) (i j : Z)
  (pixel_color : color) (g : generator) : option (color * generator) :=
  match n with
  | O => Some (pixel_color, g)
  | S n' =>
    let (r, g1) := get_ray c i j g in
    match ray_color r (max_depth c) world g1 with
    | Some (sample, g2, _) => sample_loop n' c world i j (vadd pixel_color sample) g2
    | None => None
    end
  end.

(** The value stored for pixel [(i, j)] (camera.h, 61-70). *)
Definition render_pixel `{Environment} (c : camera) (world : hittable) (i j : Z)
  (g : generator) : option (color * generator) :=
  match sample_loop (Z.to_nat (samples_per_pixel c)) c world i j black g with
  | Some (pixel_color, g') => Some (vscale (pixel_samples_scale c) pixel_color, g')
  | None => None
  end.

(** ** camera.h: the static row partition (79-85) *)

(** [if (num_threads == 0) num_threads = 1;] *)
Definition num_threads `{Environment} : Z :=
  if hardware_concurrency =? 0 then 1 else hardware_concurrency.

(** [int lines_per_thread = image_height / num_threads;]
    The division is carried out in [unsigned int]; its result is converted
    back to [int]. *)
Definition lines_per_thread (image_height num_threads : Z) : Z :=
  to_int (to_unsigned image_height / num_threads).

(** [int start = t * lines_per_thread;] *)
Definition start_line (image_height num_threads t : Z) : Z :=
  to_int (to_unsigned (t * to_unsigned (lines_per_thread image_height num_threads))).

(** [int end = (t == num_threads - 1) ? image_height
                                       : (t + 1) * lines_per_thread;] *)
Definition end_line (image_height num_threads t : Z) : Z :=
  to_int
    (if t =? to_unsigned (num_threads - 1)
     then to_unsigned image_height
     else to_unsigned (to_unsigned (t + 1)
                       * to_unsigned (lines_per_thread image_height num_threads))).

(** ** camera.h: render (30-103) as an interleaving of threads *)

(** Where a worker stands in [render_lines]. *)
Inductive worker_pc : Type :=
| AtRow (j : Z)        (* head of the row loop, line 50 *)
| AtPixel (j i : Z)    (* head of the column loop, line 60 *)
| Finished.            (* the lambda has returned *)

Record worker `{Environment} : Type := mk_worker {
  w_start : Z;
  w_end : Z;
  w_pc : worker_pc;
  w_gen : generator
}.

Arguments mk_worker {_} _ _ _ _.

(** Where the calling thread stands in [render]. *)
Inductive main_pc : Type :=
| Start                (* line 31 *)
| Spawning (t : Z)     (* head of the loop of line 80 *)
| Joining (k : nat)    (* head of the loop of line 89 *)
| Writing (k : nat)    (* head of the loop of line 100 *)
| Returned.

(** The diagnostic stream. *)
Inductive log_item : Type :=
| Progress (remaining : Z)
| RenderTime.

Record state `{Environment} : Type := mk_state {
  st_cam : camera;
  st_main : main_pc;
  threads : list worker;
  image_buffer : list color;
  scanlines_remaining : Z;
  cout : list ppm_item;
  clog : list log_item
}.

Arguments mk_state {_} _ _ _ _ _ _ _.

Inductive event : Type :=
| EvHeader
| EvSpawn (t : Z)
| EvSpawned
| EvDecrement (t : nat) (j : Z) (remaining : Z)
| EvStore (t : nat) (j i : Z) (index : Z) (c : color)
| EvRowEnd (t : nat) (j : Z)
| EvExit (t : nat)
| EvJoin (t : nat)
| EvJoined
| EvPixel (k : nat)
| EvReturn.

Definition initial `{Environment} (c : camera) : state :=
  mk_state c Start [] [] 0 [] [].

Definition set_main `{Environment} (s : state) (pc : main_pc) : state :=
  mk_state (st_cam s) pc (threads s) (image_buffer s) (scanlines_remaining s)
           (cout s) (clog s).

Definition set_worker `{Environment} (s : state) (t : nat) (w : worker) : state :=
  mk_state (st_cam s) (st_main s) (<[t := w]> (threads s)) (image_buffer s)
           (scanlines_remaining s) (cout s) (clog s).

Definition set_pc `{Environment} (w : worker) (pc : worker_pc) : worker :=
  mk_worker (w_start w) (w_end w) pc (w_gen w).

(** Line 53: [remaining % 10 == 0 || remaining == 0]. *)
Definition reports (remaining : Z) : bool :=
  (Z.rem remaining 10 =? 0) || (remaining =? 0).

(** One step of one thread.  The steps are those between which another
    thread can be observed to run; three of them stand for more than one
    action of the source, and the model says nothing about the moments
    inside them:
    - [step_begin] is [initialize], the header, the buffer and the counter
      (lines 31-44); it exists only when the buffer size
      [image_width * image_height] is a size that can be allocated, so the
      model has no run for a camera for which the source writes the header
      and then fails to allocate;
    - [step_row] is the atomic decrement of line 52 together with the
      report of lines 53-57, which the source makes after the decrement and
      not atomically with it: the log of a state is the log of the moment at
      which every worker that has decremented has also reported;
    - [step_write] is one call of [write_color]; there is none for a pixel
      with a NaN channel, whose conversion to [int] is undefined, so a run
      of the model stops where the behaviour of the source stops being
      defined. *)
Inductive step `{Environment} (world : hittable) : state -> event -> state -> Prop :=
(* lines 31-44: initialize, the header, the buffer and the counter *)
| step_begin s c :
    st_main s = Start ->
    initialize (st_cam s) = Some c ->
    0 <= image_width c * image_height c <= INT_MAX ->
    step world s EvHeader
         (mk_state c (Spawning 0) (threads s)
                   (replicate (Z.to_nat (image_width c * image_height c)) black)
                   (image_height c)
                   (cout s ++ [Header (image_width c) (image_height c)])
                   (clog s))
(* lines 80-85: one more worker *)
| step_spawn s t g :
    st_main s = Spawning t ->
    t < num_threads ->
    let start := start_line (image_height (st_cam s)) num_threads t in
    let end_ := end_line (image_height (st_cam s)) num_threads t in
    step world s (EvSpawn t)
         (mk_state (st_cam s) (Spawning (to_unsigned (t + 1)))
                   (threads s ++ [mk_worker start end_ (AtRow start) g])
                   (image_buffer s) (scanlines_remaining s) (cout s) (clog s))
| step_spawned s t :
    st_main s = Spawning t ->
    ~ t < num_threads ->
    step world s EvSpawned (set_main s (Joining 0))
(* lines 89-91: join the workers in order *)
| step_join s k w :
    st_main s = Joining k ->
    threads s !! k = Some w ->
    w_pc w = Finished ->
    step world s (EvJoin k) (set_main s (Joining (S k)))
(* lines 93-96 *)
| step_joined s k :
    st_main s = Joining k ->
    (length (threads s) <= k)%nat ->
    step world s EvJoined
         (mk_state (st_cam s) (Writing 0) (threads s) (image_buffer s)
                   (scanlines_remaining s) (cout s) (clog s ++ [RenderTime]))
(* lines 100-102 *)
| step_write s k pixel out :
    st_main s = Writing k ->
    image_buffer s !! k = Some pixel ->
    write_color (cout s) pixel = Some out ->
    step world s (EvPixel k)
         (mk_state (st_cam s) (Writing (S k)) (threads s) (image_buffer s)
                   (scanlines_remaining s) out (clog s))
| step_return s k :
    st_main s = Writing k ->
    (length (image_buffer s) <= k)%nat ->
    step world s EvReturn (set_main s Returned)
(* lines 50-58: a worker enters a row *)
| step_row s t w j :
    threads s !! t = Some w ->
    w_pc w = AtRow j ->
    j < w_end w ->
    let remaining := scanlines_remaining s - 1 in
    step world s (EvDecrement t j remaining)
         (mk_state (st_cam s) (st_main s)
                   (<[t := set_pc w (AtPixel j 0)]> (threads s))
                   (image_buffer s) remaining (cout s)
                   (clog s ++ (if reports remaining then [Progress remaining] else [])))
| step_exit s t w j :
    threads s !! t = Some w ->
    w_pc w = AtRow j ->
    ~ j < w_end w ->
    step world s (EvExit t) (set_worker s t (set_pc w Finished))
(* lines 60-71: a worker computes and stores one pixel *)
| step_pixel s t w j i c g :
    threads s !! t = Some w ->
    w_pc w = AtPixel j i ->
    i < image_width (st_cam s) ->
    render_pixel (st_cam s) world i j (w_gen w) = Some (c, g) ->
    let index := j * image_width (st_cam s) + i in
    0 <= index < Z.of_nat (length (image_buffer s)) ->
    step world s (EvStore t j i index c)
         (mk_state (st_cam s) (st_main s)
                   (<[t := mk_worker (w_start w) (w_end w) (AtPixel j (i + 1)) g]> (threads s))
                   (<[Z.to_nat index := c]> (image_buffer s))
                   (scanlines_remaining s) (cout s) (clog s))
| step_row_end s t w j i :
    threads s !! t = Some w ->
    w_pc w = AtPixel j i ->
    ~ i < image_width (st_cam s) ->
    step world s (EvRowEnd t j) (set_worker s t (set_pc w (AtRow (j + 1)))).

(** Executions: a trace of events, oldest first. *)
Inductive exec `{Environment} (world : hittable) : state -> list event -> state -> Prop :=
| exec_nil s : exec world s [] s
| exec_snoc s tr s1 ev s2 :
    exec world s tr s1 -> step world s1 ev s2 -> exec world s (tr ++ [ev]) s2.

(** The states and traces of a render of camera [c]. *)
Definition reachable `{Environment} (world : hittable) (c : camera) (tr : list event)
  (s : state) : Prop :=
  exec world (initial c) tr s.

(* ===================================================================== *)
(** * Part II: predicates used to state the properties *)
(* ===================================================================== *)

(** ** The row partition *)

(** Row [j] lies in the range handed to worker [t]. *)
Definition assigned (image_height num_threads t j : Z) : Prop :=
  start_line image_height num_threads t <= j < end_line image_height num_threads t.

(** The worker whose range contains row [j]. *)
Definition owner (image_height num_threads j : Z) : Z :=
  let q := image_height / num_threads in
  if q =? 0 then num_threads - 1 else Z.min (j / q) (num_threads - 1).

(** ** Vectors *)

(** Every component is a zero (of either sign). *)
Definition zero_vec (a : vec3) : Prop :=
  is_zero (x a) = true /\ is_zero (y a) = true /\ is_zero (z a) = true.

(** Every component is a zero or a finite number. *)
Definition finite_vec (a : vec3) : Prop :=
  is_finite (x a) = true /\ is_finite (y a) = true /\ is_finite (z a) = true.

(** ** The path integrator *)

(** The parameter interval [[0.001, infinity)]. *)
Definition query_interval : interval := mk_interval (decimal 1 3) infinity.

(** [d, d - 1, ..., d - n + 1]. *)
Fixpoint countdown (d : Z) (n : nat) : list Z :=
  match n with
  | O => []
  | S n' => d :: countdown (d - 1) n'
  end.

(** The background in the words of the specification: the interpolation
    "(1-a)*white + a*sky_blue" with "a = 0.5*(unit_direction.y + 1)". *)
Definition white : color := mk_vec3 (double_of_int 1) (double_of_int 1) (double_of_int 1).

Definition sky_blue : color := mk_vec3 (decimal 5 1) (decimal 7 1) (double_of_int 1).

Definition gradient_parameter (r : ray) : double :=
  dmul (decimal 5 1) (dadd (y (unit_vector (direction r))) (double_of_int 1)).

Definition background_gradient (r : ray) : color :=
  let a := gradient_parameter r in
  vadd (vscale (dsub (double_of_int 1) a) white) (vscale a sky_blue).

(** ** A small environment to run the model on *)

Inductive test_material : Type := Absorber | Scatterer.

(** [Enclosure m]: every ray hits a surface of material [m]. *)
Inductive test_scene : Type := EmptyScene | Enclosure (m : test_material).

(** A linear congruential generator stands for [std::mt19937]. *)
Definition lcg_next (g : Z) : Z := (1103515245 * g + 12345) mod 2147483648.

Definition lcg_uniform (g : Z) : double * Z :=
  (ddiv (double_of_int (g mod 1024)) (double_of_int 1024), lcg_next g).

Definition test_disk (g : Z) : vec3 * Z :=
  let (a, g1) := lcg_uniform g in
  let (b, g2) := lcg_uniform g1 in
  (mk_vec3 (dsub a (decimal 5 1)) (dsub b (decimal 5 1)) d0, g2).

Definition test_hit (w : test_scene) (r : ray) (iv : interval)
  : option (hit_record test_material) :=
  match w with
  | EmptyScene => None
  | Enclosure m =>
    Some (mk_hit_record test_material (vadd (origin r) (direction r))
                        (vneg (direction r)) m (double_of_int 1) true)
  end.

Definition test_scatter (m : test_material) (r : ray) (rec : hit_record test_material)
  (g : Z) : option (color * ray) * Z :=
  match m with
  | Absorber => (None, g)
  | Scatterer =>
    (Some (mk_vec3 (decimal 5 1) (decimal 5 1) (decimal 5 1),
           mk_ray (hr_p test_material rec) (hr_normal test_material rec)), lcg_next g)
  end.

(** The first two terms of the series of the tangent stand for the C
    library: [x + x^3 / 3]. *)
Definition tan_series (a : double) : double :=
  dadd a (ddiv (dmul (dmul a a) a) (double_of_int 3)).

Definition test_env (hw : Z) : Environment :=
  Build_Environment Z lcg_uniform (fun _ => false) test_disk test_material test_scene
                    test_hit test_scatter tan_series hw.

(** The environment [E] with the hit test [h] in the place of its own;
    the scenes, the materials, the generator and the rest are those of
    [E]. *)
Definition with_hit (E : Environment)
  (h : @hittable E -> ray -> interval -> option (hit_record (@material E)))
  : Environment :=
  Build_Environment (@generator E) (@uniform_real E) (@first_argument_first E)
                    (@random_in_unit_disk E) (@material E) (@hittable E) h
                    (@scatter E) (@tan E) (@hardware_concurrency E).

(** A hit test of the scenes of the examples that reports no hit on an
    interval whose lower bound is zero, and is [test_hit] on every other
    interval. *)
Definition test_hit_above_zero (w : test_scene) (r : ray) (iv : interval)
  : option (hit_record test_material) :=
  if is_zero (imin iv) then None else test_hit w r iv.

(** A camera at the origin that looks down the negative z axis, as the
    defaults of camera.h have it, before [initialize]. *)
Definition test_camera (ratio : double) (width spp depth : Z) (angle focus : double)
  : camera :=
  let zero := mk_vec3 d0 d0 d0 in
  mk_camera ratio width spp depth
            (double_of_int 90) zero (mk_vec3 d0 d0 (double_of_int (-1)))
            (mk_vec3 d0 (double_of_int 1) d0) angle focus
            0 d0 zero zero zero zero zero zero zero zero zero.

Definition aspect_16_9 : double := ddiv (double_of_int 16) (double_of_int 9).

(** A pinhole camera: 16 by 9 pixels, defocus angle 0, focus distance 10. *)
Definition pinhole_camera : camera :=
  test_camera aspect_16_9 16 10 5 d0 (double_of_int 10).



(** ** The render: what a state and a trace say *)

(** The first row that the worker has not entered yet. *)
Definition cursor `{Environment} (w : worker) : Z :=
  match w_pc w with
  | AtRow j => j
  | AtPixel j _ => j + 1
  | Finished => w_end w
  end.

(** The worker has entered row [j] (and decremented the counter for it). *)
Definition entered `{Environment} (w : worker) (j : Z) : Prop :=
  w_start w <= j < cursor w.

(** The worker has stored pixel [(i, j)]. *)
Definition stored `{Environment} (width : Z) (w : worker) (j i : Z) : Prop :=
  0 <= i < width /\ w_start w <= j /\
  match w_pc w with
  | AtRow j' => j < j'
  | AtPixel j' i' => j < j' \/ (j = j' /\ i < i')
  | Finished => j < w_end w
  end.

(** The number of rows entered so far, over all workers. *)
Fixpoint entered_rows `{Environment} (ws : list worker) : Z :=
  match ws with
  | [] => 0
  | w :: ws' => (cursor w - w_start w) + entered_rows ws'
  end.

(** The decrements of the counter that worker [t] made for row [j]. *)
Fixpoint count_decrements (t : nat) (j : Z) (tr : list event) : nat :=
  match tr with
  | [] => 0
  | EvDecrement t' j' _ :: tr' =>
    (if decide (t = t' /\ j = j') then 1 else 0) + count_decrements t j tr'
  | _ :: tr' => count_decrements t j tr'
  end.

(** All the decrements of the counter. *)
Fixpoint total_decrements (tr : list event) : nat :=
  match tr with
  | [] => 0
  | EvDecrement _ _ _ :: tr' => S (total_decrements tr')
  | _ :: tr' => total_decrements tr'
  end.

(** The buffer indices of the pixel lines written, oldest first. *)
Fixpoint pixel_events (tr : list event) : list nat :=
  match tr with
  | [] => []
  | EvPixel k :: tr' => k :: pixel_events tr'
  | _ :: tr' => pixel_events tr'
  end.

(** [write_color] applied to the pixels of a list in turn. *)
Fixpoint write_all (out : list ppm_item) (pixels : list color) : option (list ppm_item) :=
  match pixels with
  | [] => Some out
  | pixel :: rest =>
    match write_color out pixel with
    | Some out' => write_all out' rest
    | None => None
    end
  end.

(** Worker [k] holds the range of the partition and stands inside it. *)
Definition wf_worker `{Environment} (height width : Z) (k : nat) (w : worker) : Prop :=
  w_start w = start_line height num_threads (Z.of_nat k) /\
  w_end w = end_line height num_threads (Z.of_nat k) /\
  match w_pc w with
  | AtRow j => w_start w <= j <= w_end w
  | AtPixel j i => w_start w <= j < w_end w /\ 0 <= i <= width
  | Finished => True
  end.

Definition all_finished `{Environment} (ws : list worker) : Prop :=
  forall k w, ws !! k = Some w -> w_pc w = Finished.

(** The invariant of the shared state, once [render] has initialized the
    camera [c]. *)
Definition state_ok `{Environment} (c : camera) (s : state) : Prop :=
  let W := image_width c in
  let H := image_height c in
  st_cam s = c /\
  0 <= W /\ 1 <= H <= INT_MAX /\ W * H <= INT_MAX /\
  length (image_buffer s) = Z.to_nat (W * H) /\
  (forall k w, threads s !! k = Some w -> wf_worker H W k w) /\
  scanlines_remaining s = H - entered_rows (threads s) /\
  match st_main s with
  | Start => False
  | Spawning t =>
    0 <= t <= num_threads /\ length (threads s) = Z.to_nat t /\
    cout s = [Header W H]
  | Joining k =>
    length (threads s) = Z.to_nat num_threads /\
    (forall k' w, (k' < k)%nat -> threads s !! k' = Some w -> w_pc w = Finished) /\
    cout s = [Header W H]
  | Writing k =>
    length (threads s) = Z.to_nat num_threads /\
    all_finished (threads s) /\
    (k <= length (image_buffer s))%nat /\
    write_all [Header W H] (take k (image_buffer s)) = Some (cout s)
  | Returned =>
    length (threads s) = Z.to_nat num_threads /\
    all_finished (threads s) /\
    write_all [Header W H] (image_buffer s) = Some (cout s)
  end.

#[global] Instance entered_dec `{Environment} (w : worker) (j : Z) : Decision (entered w j).
Proof. unfold entered. apply _. Defined.

(** What a trace says about a state of the render of camera [c]:
    - the counter is the number of rows minus the decrements made;
    - worker [t] has decremented the counter for row [j] once if it has
      entered the row, and never otherwise;
    - a stored pixel is the value [render_pixel] computed for it, it sits at
      index [j * width + i] of the buffer, and its worker is past it;
    - every pixel a worker is past has been stored. *)
Definition trace_ok `{Environment} (world : hittable) (c : camera) (tr : list event)
  (s : state) : Prop :=
  let W := image_width c in
  let H := image_height c in
  scanlines_remaining s = H - Z.of_nat (total_decrements tr) /\
  (forall t j,
     count_decrements t j tr
     = match threads s !! t with
       | Some w => if decide (entered w j) then 1%nat else 0%nat
       | None => 0%nat
       end) /\
  (forall t j i index col,
     In (EvStore t j i index col) tr ->
     index = j * W + i /\
     (exists g g', render_pixel c world i j g = Some (col, g')) /\
     image_buffer s !! Z.to_nat index = Some col /\
     exists w, threads s !! t = Some w /\ stored W w j i) /\
  (forall t w j i,
     threads s !! t = Some w -> stored W w j i ->
     exists col, In (EvStore t j i (j * W + i) col) tr).

(** What a trace says about the calling thread:
    - the workers joined so far are the first [k], in order;
    - the pixel lines written so far are those of the first [k] buffer
      elements, in order. *)
Definition main_trace_ok `{Environment} (tr : list event) (s : state) : Prop :=
  match st_main s with
  | Start => tr = []
  | Spawning _ =>
    pixel_events tr = [] /\ ~ In EvJoined tr /\ forall k, ~ In (EvJoin k) tr
  | Joining k =>
    pixel_events tr = [] /\ ~ In EvJoined tr /\
    (k <= length (threads s))%nat /\
    forall k', In (EvJoin k') tr <-> (k' < k)%nat
  | Writing k =>
    pixel_events tr = seq 0 k /\ In EvJoined tr /\
    forall k', In (EvJoin k') tr <-> (k' < length (threads s))%nat
  | Returned =>
    pixel_events tr = seq 0 (length (image_buffer s)) /\ In EvJoined tr /\
    forall k', In (EvJoin k') tr <-> (k' < length (threads s))%nat
  end.

(** An event that is neither a decrement nor a store. *)
Definition quiet (ev : event) : Prop :=
  match ev with
  | EvDecrement _ _ _ | EvStore _ _ _ _ _ => False
  | _ => True
  end.

(** ** The claims about the order of events, as the specification states
    them *)

(** "Each decrement for a row is performed after that row's pixels have
    been written to the buffer": when the counter is decremented for row
    [j], every pixel of row [j] has been stored. *)
Definition decrement_after_row (width : Z) (tr : list event) : Prop :=
  forall tr1 tr2 t j remaining,
    tr = tr1 ++ EvDecrement t j remaining :: tr2 ->
    forall i, 0 <= i < width -> exists t' index col, In (EvStore t' j i index col) tr1.

(** "Nothing is ever written to the image output stream before every worker
    has completed": a state whose image stream is not empty has all its
    workers spawned, finished and joined. *)
Definition output_after_join `{Environment} (tr : list event) (s : state) : Prop :=
  cout s <> [] ->
  length (threads s) = Z.to_nat num_threads /\ all_finished (threads s) /\ In EvJoined tr.

(** A 16 by 9 render with one worker, stopped after the first decrement. *)
Definition first_decrement_trace : list event :=
  [EvHeader; EvSpawn 0; EvSpawned; EvDecrement 0 0 8].

(** A camera for an image of 2 by 1 pixels, one sample per pixel. *)
Definition tiny_camera : camera :=
  test_camera (double_of_int 2) 2 1 5 d0 (double_of_int 10).

(** The same camera with a depth budget of zero. *)
Definition depth_zero_camera : camera :=
  test_camera (double_of_int 2) 2 1 0 d0 (double_of_int 10).

(** ** The length of a render *)

(** The steps that a worker has left: a row takes the decrement, one store
    for each column and the end of the row; leaving the row loop takes one
    step more. *)
Definition worker_left `{Environment} (width : Z) (w : worker) : Z :=
  match w_pc w with
  | AtRow j => (w_end w - j) * (width + 2) + 1
  | AtPixel j i => (w_end w - j - 1) * (width + 2) + (width - i) + 2
  | Finished => 0
  end.

Fixpoint workers_left `{Environment} (width : Z) (ws : list worker) : Z :=
  match ws with
  | [] => 0
  | w :: ws' => worker_left width w + workers_left width ws'
  end.

(** The rows of the workers [t], [t + 1], ..., which are yet to be
    started. *)
Definition rows_from `{Environment} (height t : Z) : Z :=
  if t <? num_threads then height - start_line height num_threads t else 0.

(** The steps that the calling thread has left, once the camera is
    initialized, with the steps of the workers that it has yet to start: a
    worker takes one step to start and one to join. *)
Definition main_left `{Environment} (s : state) : Z :=
  let W := image_width (st_cam s) in
  let H := image_height (st_cam s) in
  let N := Z.of_nat (length (image_buffer s)) in
  match st_main s with
  | Start => 0
  | Spawning t => 2 * (num_threads - t) + rows_from H t * (W + 2) + num_threads + N + 3
  | Joining k => (num_threads - Z.of_nat k) + N + 2
  | Writing k => (N - Z.of_nat k) + 1
  | Returned => 0
  end.

Definition steps_left `{Environment} (s : state) : Z :=
  main_left s + workers_left (image_width (st_cam s)) (threads s).

(** The number of steps of a render: the header; for each worker the
    start, the exit and the join; for each row the decrement and the end of
    the row; for each pixel the store and the line; the end of the start
    loop, the end of the join loop and the return. *)
Definition render_length `{Environment} (c : camera) : Z :=
  4 + 3 * num_threads + 2 * image_height c + 2 * (image_width c * image_height c).

(** ** The progress log *)

(** The reports of the value [r] in a log. *)
Fixpoint count_progress (r : Z) (log : list log_item) : nat :=
  match log with
  | [] => 0
  | Progress r' :: log' => (if r =? r' then 1 else 0) + count_progress r log'
  | RenderTime :: log' => count_progress r log'
  end.

(** The render-time lines of a log. *)
Fixpoint count_render_time (log : list log_item) : nat :=
  match log with
  | [] => 0
  | RenderTime :: log' => S (count_render_time log')
  | Progress _ :: log' => count_render_time log'
  end.

(** The reports of a state: those of the values that the counter has
    passed and that are multiples of 10; the render time once the workers
    are joined. *)
Definition log_ok `{Environment} (c : camera) (s : state) : Prop :=
  (forall r,
     count_progress r (clog s)
     = if reports r && (scanlines_remaining s <=? r) && (r <? image_height c)
       then 1%nat else 0%nat) /\
  count_render_time (clog s)
  = match st_main s with Writing _ | Returned => 1%nat | _ => 0%nat end.

(** The worker that an event is a step of, if it is a step of a worker. *)
Definition event_worker (ev : event) : option nat :=
  match ev with
  | EvDecrement t _ _ | EvStore t _ _ _ _ | EvRowEnd t _ | EvExit t => Some t
  | _ => None
  end.

(** ** The claim about the bytes, as the specification states it *)

(** "Every output byte lies in [0, 255]": [write_color] writes a line for
    the pixel, and the three bytes of the line are of that range. *)
Definition writes_bytes_in_range (pixel : color) : Prop :=
  forall out, exists r g b,
    write_color out pixel = Some (out ++ [PixelLine r g b]) /\
    0 <= r <= 255 /\ 0 <= g <= 255 /\ 0 <= b <= 255.

(** The camera of the 2 by 1 image with no sample per pixel. *)
Definition sample_free_camera : camera :=
  test_camera (double_of_int 2) 2 0 5 d0 (double_of_int 10).

(* ===================================================================== *)
(** * Part III: lemmas and theorems *)
(* ===================================================================== *)

(** ** Machine integers *)

Lemma to_unsigned_small z : 0 <= z <= UINT_MAX -> to_unsigned z = z.
Proof. intros Hz. unfold to_unsigned, UINT_MAX in *. apply Z.mod_small. lia. Qed.

Lemma to_int_small z : 0 <= z <= INT_MAX -> to_int z = z.
Proof.
  intros Hz. unfold to_int.
  rewrite to_unsigned_small by (unfold INT_MAX, UINT_MAX in *; lia).
  destruct (Z.leb_spec z INT_MAX); lia.
Qed.

(** ** The row partition *)

Section PartitionFacts.
Variables H T : Z.
Hypothesis HH : 1 <= H <= INT_MAX.
Hypothesis HT : 1 <= T <= UINT_MAX.

Lemma quotient_bounds : 0 <= H / T /\ H / T * T <= H < (H / T + 1) * T /\ H / T <= H.
Proof.
  pose proof (Z.div_mod H T ltac:(lia)) as Hdm.
  pose proof (Z.mod_pos_bound H T ltac:(lia)) as Hmod.
  assert (0 <= H / T) by (apply Z.div_pos; lia).
  repeat split; nia.
Qed.

Lemma lines_per_thread_eq : lines_per_thread H T = H / T.
Proof.
  unfold lines_per_thread. destruct quotient_bounds as (Hq0 & _ & Hq).
  rewrite (to_unsigned_small H) by (unfold INT_MAX, UINT_MAX in *; lia).
  apply to_int_small. lia.
Qed.

Lemma start_line_eq t : 0 <= t < T -> start_line H T t = t * (H / T).
Proof.
  intros Ht. unfold start_line. rewrite lines_per_thread_eq.
  destruct quotient_bounds as (Hq0 & (Hq1 & _) & Hq).
  assert (0 <= t * (H / T) <= H) by nia.
  rewrite (to_unsigned_small (H / T)) by (unfold INT_MAX, UINT_MAX in *; lia).
  rewrite (to_unsigned_small (t * (H / T))) by (unfold INT_MAX, UINT_MAX in *; lia).
  apply to_int_small. lia.
Qed.

Lemma end_line_last : end_line H T (T - 1) = H.
Proof.
  unfold end_line.
  rewrite (to_unsigned_small (T - 1)) by (unfold UINT_MAX in *; lia).
  rewrite Z.eqb_refl.
  rewrite (to_unsigned_small H) by (unfold INT_MAX, UINT_MAX in *; lia).
  apply to_int_small. lia.
Qed.

Lemma end_line_inner t : 0 <= t < T - 1 -> end_line H T t = (t + 1) * (H / T).
Proof.
  intros Ht. unfold end_line. rewrite lines_per_thread_eq.
  rewrite (to_unsigned_small (T - 1)) by (unfold UINT_MAX in *; lia).
  destruct (Z.eqb_spec t (T - 1)); [lia|].
  destruct quotient_bounds as (Hq0 & (Hq1 & _) & Hq).
  assert (0 <= (t + 1) * (H / T) <= H) by nia.
  rewrite (to_unsigned_small (t + 1)) by (unfold UINT_MAX in *; lia).
  rewrite (to_unsigned_small (H / T)) by (unfold INT_MAX, UINT_MAX in *; lia).
  rewrite (to_unsigned_small ((t + 1) * (H / T))) by (unfold INT_MAX, UINT_MAX in *; lia).
  apply to_int_small. lia.
Qed.

(** Every range is a well-formed sub-range of [[0, H)]. *)
Lemma range_bounds t :
  0 <= t < T -> 0 <= start_line H T t <= end_line H T t /\ end_line H T t <= H.
Proof.
  intros Ht. rewrite start_line_eq by lia.
  destruct quotient_bounds as (Hq0 & (Hq1 & _) & Hq).
  destruct (Z.eq_dec t (T - 1)) as [->|Hne].
  - rewrite end_line_last. nia.
  - rewrite end_line_inner by lia. nia.
Qed.

(** Consecutive ranges are adjacent. *)
Lemma range_adjacent t :
  0 <= t < T - 1 -> end_line H T t = start_line H T (t + 1).
Proof.
  intros Ht. rewrite end_line_inner by lia. rewrite start_line_eq by lia. reflexivity.
Qed.

Lemma first_start : start_line H T 0 = 0.
Proof. rewrite start_line_eq by lia. lia. Qed.

Lemma owner_range j : 0 <= j < H -> 0 <= owner H T j < T.
Proof.
  intros Hj. unfold owner. destruct quotient_bounds as (Hq0 & _ & _).
  destruct (Z.eqb_spec (H / T) 0); [lia|].
  assert (0 <= j / (H / T)) by (apply Z.div_pos; lia). lia.
Qed.

Lemma owner_assigned j : 0 <= j < H -> assigned H T (owner H T j) j.
Proof.
  intros Hj. unfold assigned, owner.
  destruct quotient_bounds as (Hq0 & (Hq1 & Hq2) & Hq).
  destruct (Z.eqb_spec (H / T) 0) as [Hz|Hnz].
  - rewrite start_line_eq by lia. rewrite end_line_last. nia.
  - pose proof (Z.div_mod j (H / T) Hnz) as Hdm.
    pose proof (Z.mod_pos_bound j (H / T) ltac:(lia)) as Hmod.
    assert (0 <= j / (H / T)) by (apply Z.div_pos; lia).
    destruct (Z.min_spec (j / (H / T)) (T - 1)) as [[Hlt ->]|[Hge ->]].
    + rewrite start_line_eq by lia. rewrite end_line_inner by lia. nia.
    + rewrite start_line_eq by lia. rewrite end_line_last. nia.
Qed.

Lemma assigned_owner t j : 0 <= t < T -> assigned H T t j -> t = owner H T j.
Proof.
  intros Ht [Hs He]. rewrite start_line_eq in Hs by lia.
  destruct quotient_bounds as (Hq0 & (Hq1 & Hq2) & Hq).
  unfold owner. destruct (Z.eqb_spec (H / T) 0) as [Hz|Hnz].
  - destruct (Z.eq_dec t (T - 1)) as [|Hne]; [assumption|].
    rewrite end_line_inner in He by lia. nia.
  - destruct (Z.eq_dec t (T - 1)) as [->|Hne].
    + assert (T - 1 <= j / (H / T)) by (apply Z.div_le_lower_bound; lia). lia.
    + rewrite end_line_inner in He by lia.
      assert (j / (H / T) = t) as ->.
      { symmetry. apply (Z.div_unique_pos j (H / T) t (j - t * (H / T))); lia. }
      lia.
Qed.

Lemma assigned_in_image t j : 0 <= t < T -> assigned H T t j -> 0 <= j < H.
Proof.
  intros Ht [Hs He]. pose proof (range_bounds t Ht). lia.
Qed.

Lemma assigned_unique t t' j :
  0 <= t < T -> 0 <= t' < T -> assigned H T t j -> assigned H T t' j -> t = t'.
Proof.
  intros Ht Ht' Ha Ha'.
  rewrite (assigned_owner t j Ht Ha). apply eq_sym, assigned_owner; assumption.
Qed.

End PartitionFacts.

(** C1.  For an image of [H >= 1] rows and [T >= 1] workers, the ranges
    [[start_line t, end_line t)] computed by [render] are
    [[t * (H / T), (t + 1) * (H / T))] for every worker but the last and
    [[(T - 1) * (H / T), H)] for the last; each lies inside [[0, H)]; and
    every row of [[0, H)] is in the range of exactly one worker.  Nothing is
    assumed about [T] dividing [H] or about [T <= H]. *)
Theorem partition_is_exact_cover (H T : Z) :
  1 <= H <= INT_MAX ->
  1 <= T <= UINT_MAX ->
  (forall t, 0 <= t < T ->
     start_line H T t = t * (H / T) /\
     end_line H T t = (if t =? T - 1 then H else (t + 1) * (H / T)) /\
     0 <= start_line H T t <= end_line H T t /\ end_line H T t <= H) /\
  (forall j, 0 <= j < H ->
     exists t, (0 <= t < T /\ assigned H T t j) /\
               forall t', 0 <= t' < T -> assigned H T t' j -> t' = t).
Proof.
  intros HH HT. split.
  - intros t Ht. split; [apply start_line_eq; assumption|]. split.
    + destruct (Z.eqb_spec t (T - 1)) as [->|Hne].
      * apply end_line_last; assumption.
      * apply end_line_inner; [assumption..|lia].
    + apply range_bounds; assumption.
  - intros j Hj. exists (owner H T j). split.
    + split; [apply owner_range | apply owner_assigned]; assumption.
    + intros t' Ht' Ha. apply assigned_owner; assumption.
Qed.

(** The partition of 7 rows among 3 workers: rows 0-1, 2-3 and 4-6. *)
Lemma partition_is_exact_cover_witness :
  (forall t, 0 <= t < 3 ->
     start_line 7 3 t = t * (7 / 3) /\
     end_line 7 3 t = (if t =? 3 - 1 then 7 else (t + 1) * (7 / 3)) /\
     0 <= start_line 7 3 t <= end_line 7 3 t /\ end_line 7 3 t <= 7) /\
  (forall j, 0 <= j < 7 ->
     exists t, (0 <= t < 3 /\ assigned 7 3 t j) /\
               forall t', 0 <= t' < 3 -> assigned 7 3 t' j -> t' = t).
Proof. apply (partition_is_exact_cover 7 3); unfold INT_MAX, UINT_MAX; lia. Defined.

Example partition_7_3 :
  map (fun t => (start_line 7 3 t, end_line 7 3 t)) [0; 1; 2] = [(0, 2); (2, 4); (4, 7)].
Proof. reflexivity. Qed.

(** More workers than rows: the last worker takes every row. *)
Example partition_2_4 :
  map (fun t => (start_line 2 4 t, end_line 2 4 t)) [0; 1; 2; 3]
  = [(0, 0); (0, 0); (0, 0); (0, 2)].
Proof. reflexivity. Qed.

(** ** IEEE-754 binary64: facts about [SpecFloat] at [prec = 53] *)

Lemma fexp_eq e : fexp prec emax e = Z.max (e - 53) (-1074).
Proof. reflexivity. Qed.

Lemma digits2_pos_bound p B : Zpos p < 2 ^ B -> Zpos (digits2_pos p) <= B.
Proof.
  assert (Hpow : forall q B, Zpos q < 2 ^ B -> 1 <= B).
  { intros q C Hlt. destruct (Z.lt_ge_cases C 1) as [Hneg|]; [|assumption].
    destruct (Z.eq_dec C 0) as [->|]; [rewrite Z.pow_0_r in Hlt; lia|].
    rewrite Z.pow_neg_r in Hlt by lia. lia. }
  revert B. induction p as [p IH|p IH|]; intros B Hlt.
  - pose proof (Hpow _ _ Hlt).
    replace B with (Z.succ (B - 1)) in Hlt by lia.
    rewrite Z.pow_succ_r in Hlt by lia.
    cbn [digits2_pos]. rewrite Pos2Z.inj_succ.
    specialize (IH (B - 1)). lia.
  - pose proof (Hpow _ _ Hlt).
    replace B with (Z.succ (B - 1)) in Hlt by lia.
    rewrite Z.pow_succ_r in Hlt by lia.
    cbn [digits2_pos]. rewrite Pos2Z.inj_succ.
    specialize (IH (B - 1)). lia.
  - cbn [digits2_pos]. apply (Hpow _ _ Hlt).
Qed.

Lemma Zdigits2_bound m B : 0 <= m < 2 ^ B -> 0 <= B -> 0 <= Zdigits2 m <= B.
Proof.
  intros [Hm Hlt] HB. destruct m as [|p|p]; cbn [Zdigits2]; [lia| |lia].
  split; [lia|]. apply digits2_pos_bound; assumption.
Qed.

Lemma iter_pos_invariant {A} (f : A -> A) (P : A -> Prop) :
  (forall a, P a -> P (f a)) -> forall n a, P a -> P (SpecFloat.iter_pos f n a).
Proof.
  intros Hf n. induction n as [n IH|n IH|]; intros a Ha; cbn [SpecFloat.iter_pos]; auto.
Qed.

Lemma shr_1_bound mrs hi : 0 <= shr_m mrs <= hi -> 0 <= shr_m (shr_1 mrs) <= hi.
Proof.
  destruct mrs as [m r s]. cbn [shr_m]. intros Hm.
  destruct m as [|[p|p|]|p]; cbn [shr_1 shr_m]; lia.
Qed.

Lemma shr_bound mrs e n hi :
  0 <= shr_m mrs <= hi ->
  0 <= shr_m (fst (shr mrs e n)) <= hi /\ snd (shr mrs e n) = Z.max e (e + n).
Proof.
  intros Hm. destruct n as [|p|p]; cbn [shr fst snd]; try (split; [assumption|lia]).
  split; [|lia].
  apply (iter_pos_invariant shr_1 (fun mrs => 0 <= shr_m mrs <= hi)); [|assumption].
  intros a Ha. apply shr_1_bound; assumption.
Qed.

Lemma shr_fexp_bound m e l B :
  0 <= m < 2 ^ B -> 0 <= B ->
  0 <= shr_m (fst (shr_fexp prec emax m e l)) <= m /\
  e <= snd (shr_fexp prec emax m e l) <= Z.max e (Z.max (B + e - 53) (-1074)).
Proof.
  intros Hm HB. unfold shr_fexp.
  pose proof (Zdigits2_bound m B Hm HB) as Hd.
  destruct (shr_bound (shr_record_of_loc m l) e
              (fexp prec emax (Zdigits2 m + e) - e) m) as [H1 H2].
  { destruct l as [|[]]; cbn; lia. }
  split; [assumption|]. rewrite H2, fexp_eq. lia.
Qed.

Lemma round_nearest_even_bound m l : m <= round_nearest_even m l <= m + 1.
Proof.
  destruct l as [|[]]; cbn [round_nearest_even]; try lia.
  destruct (Z.even m); lia.
Qed.

(** The class of a rounded result: zero or finite, with a mantissa that
    exceeds the given one by at most one and a bounded exponent. *)
Lemma binary_round_aux_class s m e l B :
  0 <= m < 2 ^ B -> 0 <= B ->
  let e1 := Z.max e (Z.max (B + e - 53) (-1074)) in
  let e2 := Z.max e1 (Z.max (B + 1 + e1 - 53) (-1074)) in
  e2 <= 971 ->
  binary_round_aux prec emax s m e l = S754_zero s \/
  exists m' e', binary_round_aux prec emax s m e l = S754_finite s m' e' /\
                Zpos m' <= m + 1 /\ e <= e' <= e2.
Proof.
  intros Hm HB e1 e2 He2. unfold binary_round_aux.
  pose proof (shr_fexp_bound m e l B Hm HB) as [Hm1 He1].
  destruct (shr_fexp prec emax m e l) as [mrs' e'] eqn:E1. cbn [fst snd] in Hm1, He1.
  pose proof (round_nearest_even_bound (shr_m mrs') (loc_of_shr_record mrs')) as Hr.
  set (m1 := round_nearest_even (shr_m mrs') (loc_of_shr_record mrs')) in *.
  assert (Hm1' : 0 <= m1 < 2 ^ (B + 1)).
  { split; [lia|]. rewrite Z.pow_add_r by lia.
    assert (0 < 2 ^ B) by (apply Z.pow_pos_nonneg; lia). lia. }
  pose proof (shr_fexp_bound m1 e' loc_Exact (B + 1) Hm1' ltac:(lia)) as [Hm2 He2'].
  destruct (shr_fexp prec emax m1 e' loc_Exact) as [mrs'' e''] eqn:E2.
  cbn [fst snd] in Hm2, He2'.
  destruct (shr_m mrs'') as [|p|p] eqn:Em; [left; reflexivity| |lia].
  right. assert (e'' <= e2) by (unfold e2, e1; lia).
  assert (Hle : (e'' <=? emax - prec) = true) by (apply Z.leb_le; unfold emax, prec; lia).
  rewrite Hle. exists p, e''. split; [reflexivity|]. lia.
Qed.

(** *** Exact roundings *)

Lemma iter_pos_swap {A} (f : A -> A) n a :
  SpecFloat.iter_pos f n (f a) = f (SpecFloat.iter_pos f n a).
Proof.
  revert a. induction n as [n IH|n IH|]; intros a; cbn [SpecFloat.iter_pos].
  - rewrite !IH. reflexivity.
  - rewrite !IH. reflexivity.
  - reflexivity.
Qed.

Lemma iter_pos_succ {A} (f : A -> A) n a :
  SpecFloat.iter_pos f (Pos.succ n) a = f (SpecFloat.iter_pos f n a).
Proof.
  revert a. induction n as [n IH|n IH|]; intros a.
  - change (Pos.succ n~1) with ((Pos.succ n)~0)%positive. cbn [SpecFloat.iter_pos].
    rewrite !IH, !iter_pos_swap. reflexivity.
  - change (Pos.succ n~0) with (n~1)%positive. cbn [SpecFloat.iter_pos].
    rewrite !iter_pos_swap. reflexivity.
  - reflexivity.
Qed.

(** Shifting out [k] zero bits is exact. *)
Lemma shr_zero_bits m k :
  SpecFloat.iter_pos shr_1 k (Build_shr_record (Zpos (Pos.iter xO m k)) false false)
  = Build_shr_record (Zpos m) false false.
Proof.
  induction k as [|k IH] using Pos.peano_ind.
  - reflexivity.
  - rewrite Pos.iter_succ. rewrite iter_pos_succ.
    rewrite <- iter_pos_swap. cbn [shr_1 orb]. exact IH.
Qed.

Lemma digits2_pos_iter_xO m k :
  Zpos (digits2_pos (Pos.iter xO m k)) = Zpos (digits2_pos m) + Zpos k.
Proof.
  induction k as [|k IH] using Pos.peano_ind.
  - cbn [Pos.iter digits2_pos]. lia.
  - rewrite Pos.iter_succ. cbn [digits2_pos]. lia.
Qed.

Lemma bounded_spec m e :
  bounded prec emax m e = true <->
  Z.max (Zpos (digits2_pos m) + e - 53) (-1074) = e /\ e <= 971.
Proof.
  unfold bounded, canonical_mantissa. rewrite andb_true_iff, Z.eqb_eq, Z.leb_le, fexp_eq.
  unfold emax, prec. lia.
Qed.

(** The second half of [binary_round_aux], on a canonical mantissa. *)
Lemma round_canonical_tail s m e :
  bounded prec emax m e = true ->
  (let '(mrs, e') :=
     shr_fexp prec emax
       (round_nearest_even (shr_m (Build_shr_record (Zpos m) false false))
          (loc_of_shr_record (Build_shr_record (Zpos m) false false)))
       e loc_Exact in
   match shr_m mrs with
   | 0 => S754_zero s
   | Zpos m' => if e' <=? emax - prec then S754_finite s m' e' else S754_infinity s
   | Zneg _ => S754_nan
   end) = S754_finite s m e.
Proof.
  intros Hb. apply bounded_spec in Hb as [Hc He].
  cbn [shr_m loc_of_shr_record round_nearest_even]. unfold shr_fexp.
  cbn [Zdigits2]. rewrite fexp_eq, Hc, Z.sub_diag.
  cbn [shr shr_record_of_loc shr_m].
  replace (e <=? emax - prec) with true; [reflexivity|].
  symmetry. apply Z.leb_le. unfold emax, prec. lia.
Qed.

(** A canonical mantissa and exponent are their own rounding. *)
Lemma binary_round_aux_canonical s m e :
  bounded prec emax m e = true ->
  binary_round_aux prec emax s (Zpos m) e loc_Exact = S754_finite s m e.
Proof.
  intros Hb. pose proof Hb as Hb'. apply bounded_spec in Hb' as [Hc He].
  unfold binary_round_aux. unfold shr_fexp at 1. cbn [Zdigits2].
  rewrite fexp_eq, Hc, Z.sub_diag. cbn [shr shr_record_of_loc].
  apply round_canonical_tail. exact Hb.
Qed.

(** The same with [k] more zero bits at the low end of the mantissa. *)
Lemma binary_round_aux_exact s m e k :
  bounded prec emax m e = true ->
  binary_round_aux prec emax s (Zpos (Pos.iter xO m k)) (e - Zpos k) loc_Exact
  = S754_finite s m e.
Proof.
  intros Hb. pose proof Hb as Hb'. apply bounded_spec in Hb' as [Hc He].
  unfold binary_round_aux. unfold shr_fexp at 1. cbn [Zdigits2].
  rewrite digits2_pos_iter_xO, fexp_eq.
  replace (Z.max (Zpos (digits2_pos m) + Zpos k + (e - Zpos k) - 53) (-1074) - (e - Zpos k))
    with (Zpos k) by lia.
  cbn [shr shr_record_of_loc]. rewrite shr_zero_bits.
  replace (e - Zpos k + Zpos k) with e by lia.
  apply round_canonical_tail. exact Hb.
Qed.

(** *** Conversions from [int] *)

Lemma double_of_int_pos p :
  Zpos (digits2_pos p) <= 52 ->
  double_of_int (Zpos p)
  = S754_finite false (Pos.iter xO p (Z.to_pos (53 - Zpos (digits2_pos p))))
                (Zpos (digits2_pos p) - 53).
Proof.
  intros Hd. unfold double_of_int, binary_normalize, binary_round, shl_align.
  rewrite fexp_eq.
  replace (Z.max (Zpos (digits2_pos p) + 0 - 53) (-1074)) with (Zpos (digits2_pos p) - 53) by lia.
  set (d := Zpos (digits2_pos p)) in *.
  assert (Hk : d - 53 - 0 = Zneg (Z.to_pos (53 - d))).
  { rewrite <- Pos2Z.opp_pos. rewrite Z2Pos.id by lia. lia. }
  rewrite Hk.
  apply binary_round_aux_canonical.
  apply bounded_spec. split; [|lia].
  rewrite digits2_pos_iter_xO. fold d. rewrite Z2Pos.id by lia. lia.
Qed.

Lemma double_of_int_class n :
  1 <= n <= INT_MAX ->
  exists m e, double_of_int n = S754_finite false m e /\
              Zpos (digits2_pos m) = 53 /\ -52 <= e <= -22.
Proof.
  intros Hn. destruct n as [|p|p]; [lia| |lia].
  assert (Hd : 1 <= Zpos (digits2_pos p) <= 31).
  { split; [lia|]. apply digits2_pos_bound. unfold INT_MAX in Hn. lia. }
  rewrite double_of_int_pos by lia.
  eexists _, _. split; [reflexivity|]. split; [|lia].
  rewrite digits2_pos_iter_xO. rewrite Z2Pos.id by lia. lia.
Qed.

(** *** The reciprocal of a positive [int] *)

Lemma ddiv_one_class m e :
  Zpos (digits2_pos m) = 53 -> -52 <= e <= 0 ->
  ddiv (double_of_int 1) (S754_finite false m e) = S754_zero false \/
  exists m' e', ddiv (double_of_int 1) (S754_finite false m e) = S754_finite false m' e'.
Proof.
  intros Hd He.
  change (double_of_int 1) with (S754_finite false 4503599627370496 (-52)).
  unfold ddiv, SFdiv, SFdiv_core_binary. cbn [Zdigits2 xorb]. rewrite Hd.
  change (Zpos (digits2_pos 4503599627370496)) with 53.
  rewrite fexp_eq.
  replace (Z.min (Z.max (53 + -52 - (53 + e) - 53) (-1074)) (-52 - e)) with (-105 - e) by lia.
  replace (-52 - e - (-105 - e)) with 53 by lia.
  change (Z.shiftl 4503599627370496 53) with (2 ^ 105).
  pose proof (Z_div_mod (2 ^ 105) (Zpos m) ltac:(lia)) as Hdm.
  destruct (Z.div_eucl (2 ^ 105) (Zpos m)) as [q r].
  destruct Hdm as [Hq Hr].
  assert (Hq' : 0 <= q < 2 ^ 106).
  { assert (0 <= q) by nia. split; [assumption|].
    assert (q <= 2 ^ 105) by nia.
    change (2 ^ 106) with (2 * 2 ^ 105). lia. }
  destruct (binary_round_aux_class false q (-105 - e) (new_location (Zpos m) r) 106 Hq'
              ltac:(lia) ltac:(lia)) as [Hz|(m' & e' & Hf & _)].
  - left. exact Hz.
  - right. exists m', e'. exact Hf.
Qed.

(** [1.0 / n] times [0.0] is [0.0] for every positive [int] [n]. *)
Lemma reciprocal_times_zero n :
  1 <= n <= INT_MAX ->
  dmul (ddiv (double_of_int 1) (double_of_int n)) d0 = d0.
Proof.
  intros Hn. destruct (double_of_int_class n Hn) as (m & e & -> & Hd & He).
  destruct (ddiv_one_class m e Hd ltac:(lia)) as [->|(m' & e' & ->)]; reflexivity.
Qed.

(** *** Multiplication by a power of two *)

Lemma digits2_pos_lt p : Zpos p < 2 ^ Zpos (digits2_pos p).
Proof.
  induction p as [p IH|p IH|]; cbn [digits2_pos].
  - rewrite Pos2Z.inj_succ, Z.pow_succ_r by lia. lia.
  - rewrite Pos2Z.inj_succ, Z.pow_succ_r by lia. lia.
  - reflexivity.
Qed.

Lemma double_of_int_1 : double_of_int 1 = S754_finite false 4503599627370496 (-52).
Proof. reflexivity. Qed.

Lemma double_of_int_256 : double_of_int 256 = S754_finite false 4503599627370496 (-44).
Proof. reflexivity. Qed.

(** [1.0 * v = v] for every double [v]. *)
Lemma dmul_one_l v : is_double v -> dmul (double_of_int 1) v = v.
Proof.
  intros Hv. rewrite double_of_int_1.
  destruct v as [s|s| |s m e]; try reflexivity.
  unfold dmul, SFmul. cbn [xorb].
  change (Pos.mul 4503599627370496 m) with (Pos.iter xO m 52).
  replace (-52 + e) with (e - 52) by lia.
  apply binary_round_aux_exact. exact Hv.
Qed.

(** [256.0 * v] for a normal [v]: the exponent grows by 8. *)
Lemma dmul_256_normal s m e :
  Zpos (digits2_pos m) = 53 -> -1074 <= e <= 963 ->
  dmul (double_of_int 256) (S754_finite s m e) = S754_finite s m (e + 8).
Proof.
  intros Hd He. rewrite double_of_int_256. unfold dmul, SFmul. cbn [xorb].
  change (Pos.mul 4503599627370496 m) with (Pos.iter xO m 52).
  replace (-44 + e) with (e + 8 - 52) by lia.
  apply binary_round_aux_exact. apply bounded_spec. lia.
Qed.

Lemma shiftl_nonpos a e : e <= 0 -> Z.shiftl a e = a / 2 ^ (- e).
Proof.
  intros He. rewrite <- Z.shiftr_opp_r. apply Z.shiftr_div_pow2. lia.
Qed.

(** [256.0 * v] for a subnormal [v] truncates to zero. *)
Lemma dmul_256_subnormal m :
  Zpos (digits2_pos m) < 53 ->
  truncate (dmul (double_of_int 256) (S754_finite false m (-1074))) = Some 0.
Proof.
  intros Hd. rewrite double_of_int_256. unfold dmul, SFmul. cbn [xorb].
  pose proof (digits2_pos_lt m) as Hm.
  assert (Hm' : Zpos m < 2 ^ 53).
  { eapply Z.lt_le_trans; [exact Hm|]. apply Z.pow_le_mono_r; lia. }
  assert (HM : 0 <= Zpos (4503599627370496 * m) < 2 ^ 105).
  { rewrite Pos2Z.inj_mul. change (2 ^ 105) with (4503599627370496 * 2 ^ 53). lia. }
  destruct (binary_round_aux_class false (Zpos (4503599627370496 * m)) (-44 + -1074)
              loc_Exact 105 HM ltac:(lia) ltac:(lia)) as [->|(m' & e' & -> & Hm1 & He1)].
  - reflexivity.
  - cbv zeta in He1. assert (He' : e' <= -1013) by lia.
    cbn [truncate cond_Zopp]. f_equal.
    rewrite shiftl_nonpos by lia.
    apply Z.div_small. split; [lia|].
    assert (2 ^ 105 < 2 ^ (- e')) by (apply Z.pow_lt_mono_r; lia). lia.
Qed.

(** Truncation of a positive value below [2^8]. *)
Lemma truncate_small m e :
  Zpos m < 2 ^ 53 -> e <= -45 ->
  exists b, int_of_double (S754_finite false m e) = Some b /\ 0 <= b <= 255.
Proof.
  intros Hm He. unfold int_of_double. cbn [truncate cond_Zopp].
  rewrite shiftl_nonpos by lia.
  assert (Hp : 2 ^ 45 <= 2 ^ (- e)) by (apply Z.pow_le_mono_r; lia).
  assert (Hq : 0 <= Zpos m / 2 ^ (- e) <= 255).
  { split; [apply Z.div_pos; lia|].
    assert (Zpos m / 2 ^ (- e) < 256); [|lia].
    apply Z.div_lt_upper_bound; [lia|].
    change (2 ^ 53) with (2 ^ 45 * 256) in Hm. nia. }
  exists (Zpos m / 2 ^ (- e)). split; [|exact Hq].
  replace (INT_MIN <=? Zpos m / 2 ^ (- e)) with true
    by (symmetry; apply Z.leb_le; unfold INT_MIN; lia).
  replace (Zpos m / 2 ^ (- e) <=? INT_MAX) with true
    by (symmetry; apply Z.leb_le; unfold INT_MAX; lia).
  reflexivity.
Qed.

(** ** camera.h: the path integrator *)

Section RayColor.
Context {E : Environment}.
Variable world : hittable.

Lemma ray_color_fuel_floor fuel r depth g :
  depth <= 0 -> ray_color_fuel (S fuel) r depth world g = Some (black, g, []).
Proof.
  intros Hd. cbn [ray_color_fuel].
  destruct (Z.leb_spec depth 0); [reflexivity|lia].
Qed.

(** One unit of fuel per unit of depth, and one for the last call. *)
Lemma ray_color_fuel_total fuel : forall r depth g,
  (Z.to_nat depth < fuel)%nat -> exists res, ray_color_fuel fuel r depth world g = Some res.
Proof.
  induction fuel as [|fuel IH]; intros r depth g Hf; [lia|].
  cbn [ray_color_fuel].
  destruct (Z.leb_spec depth 0) as [Hd|Hd]; [eauto|].
  destruct (hit world r _) as [rec|]; [|eauto].
  destruct (scatter (hr_mat rec) r rec g) as [[[attenuation scattered]|] g1]; [|eauto].
  destruct (IH scattered (depth - 1) g1 ltac:(lia)) as [[[c g2] qs] ->]. eauto.
Qed.

(** A result does not depend on the fuel left over. *)
Lemma ray_color_fuel_mono fuel : forall fuel' r depth g res,
  ray_color_fuel fuel r depth world g = Some res ->
  (fuel <= fuel')%nat ->
  ray_color_fuel fuel' r depth world g = Some res.
Proof.
  induction fuel as [|fuel IH]; intros fuel' r depth g res Hres Hle; [discriminate|].
  destruct fuel' as [|fuel']; [lia|].
  cbn [ray_color_fuel] in *.
  destruct (depth <=? 0); [assumption|].
  destruct (hit world r _) as [rec|]; [|assumption].
  destruct (scatter (hr_mat rec) r rec g) as [[[attenuation scattered]|] g1]; [|assumption].
  destruct (ray_color_fuel fuel scattered (depth - 1) world g1) as [[[c g2] qs]|] eqn:Hrec;
    [|discriminate].
  rewrite (IH fuel' _ _ _ _ Hrec ltac:(lia)). assumption.
Qed.

(** The hit queries of a call: all on [[0.001, infinity)], at depths that go
    down by one from the depth of the call, and never more of them than the
    depth budget. *)
Lemma ray_color_fuel_queries fuel : forall r depth g c g' qs,
  ray_color_fuel fuel r depth world g = Some (c, g', qs) ->
  Forall (fun q => q_interval q = query_interval) qs /\
  map q_depth qs = countdown depth (length qs) /\
  (length qs <= Z.to_nat depth)%nat /\
  (0 < depth -> exists qs', qs = mk_hit_query r depth query_interval :: qs') /\
  (depth <= 0 -> qs = []).
Proof.
  induction fuel as [|fuel IH]; intros r depth g c g' qs Hres; [discriminate|].
  cbn [ray_color_fuel] in Hres.
  destruct (Z.leb_spec depth 0) as [Hd|Hd].
  { injection Hres as <- <- <-. repeat split; auto; cbn; lia. }
  fold query_interval in Hres.
  destruct (hit world r query_interval) as [rec|].
  - destruct (scatter (hr_mat rec) r rec g) as [[[attenuation scattered]|] g1].
    + destruct (ray_color_fuel fuel scattered (depth - 1) world g1)
        as [[[c1 g2] qs1]|] eqn:Hrec; [|discriminate].
      injection Hres as <- <- <-.
      destruct (IH _ _ _ _ _ _ Hrec) as (Hiv & Hdep & Hlen & _).
      repeat split.
      * constructor; [reflexivity|assumption].
      * cbn [map length countdown q_depth]. f_equal. assumption.
      * cbn [length]. lia.
      * intros _. eauto.
      * lia.
    + injection Hres as <- <- <-. repeat split.
      * repeat constructor.
      * cbn. lia.
      * eauto.
      * lia.
  - injection Hres as <- <- <-. repeat split.
    + repeat constructor.
    + cbn. lia.
    + eauto.
    + lia.
Qed.

Lemma ray_color_floor r depth g :
  depth <= 0 -> ray_color r depth world g = Some (black, g, []).
Proof. apply ray_color_fuel_floor. Qed.

Lemma ray_color_miss r depth g :
  0 < depth ->
  hit world r query_interval = None ->
  ray_color r depth world g
  = Some (background_gradient r, g, [mk_hit_query r depth query_interval]).
Proof.
  intros Hd Hmiss. unfold ray_color. cbn [ray_color_fuel].
  destruct (Z.leb_spec depth 0); [lia|].
  fold query_interval. rewrite Hmiss. reflexivity.
Qed.

Lemma ray_color_absorbed r depth g rec g1 :
  0 < depth ->
  hit world r query_interval = Some rec ->
  scatter (hr_mat rec) r rec g = (None, g1) ->
  ray_color r depth world g = Some (black, g1, [mk_hit_query r depth query_interval]).
Proof.
  intros Hd Hhit Hsc. unfold ray_color. cbn [ray_color_fuel].
  destruct (Z.leb_spec depth 0); [lia|].
  fold query_interval. rewrite Hhit, Hsc. reflexivity.
Qed.

Lemma ray_color_scattered r depth g rec attenuation scattered g1 :
  0 < depth ->
  hit world r query_interval = Some rec ->
  scatter (hr_mat rec) r rec g = (Some (attenuation, scattered), g1) ->
  ray_color r depth world g
  = match ray_color scattered (depth - 1) world g1 with
    | Some (c, g2, qs) =>
      Some (vmul attenuation c, g2, mk_hit_query r depth query_interval :: qs)
    | None => None
    end.
Proof.
  intros Hd Hhit Hsc. unfold ray_color.
  replace (S (Z.to_nat depth)) with (S (S (Z.to_nat (depth - 1)))) by lia.
  cbn [ray_color_fuel].
  destruct (Z.leb_spec depth 0); [lia|].
  fold query_interval. rewrite Hhit, Hsc. reflexivity.
Qed.

End RayColor.

(** C3.  [ray_color] returns for every ray, depth budget, scene and
    generator state: a call at depth [d] needs no more than
    [max d 0 + 1] nested calls, whatever fuel is left over.  The calls that
    query the scene are made at depths [d, d - 1, ...], each one below the
    previous, and there are at most [max d 0] of them.  The scene and its
    materials are arbitrary, so this covers a scene in which every ray hits a
    scattering surface. *)
Theorem ray_color_terminates `{E : Environment} (world : hittable) (r : ray) (depth : Z)
  (g : generator) (extra : nat) :
  exists c g' qs,
    ray_color_fuel (S (Z.to_nat depth) + extra) r depth world g = Some (c, g', qs) /\
    ray_color r depth world g = Some (c, g', qs) /\
    map q_depth qs = countdown depth (length qs) /\
    (length qs <= Z.to_nat depth)%nat.
Proof.
  destruct (ray_color_fuel_total world (S (Z.to_nat depth)) r depth g ltac:(lia))
    as [[[c g'] qs] Hres].
  exists c, g', qs.
  destruct (ray_color_fuel_queries world _ _ _ _ _ _ _ Hres) as (_ & Hdep & Hlen & _).
  repeat split; try assumption.
  apply (ray_color_fuel_mono world _ _ _ _ _ _ Hres). lia.
Qed.

(** In an enclosure of scattering material a ray of depth 50 bounces 50
    times and then stops. *)
Example ray_color_enclosure :
  let r := mk_ray (mk_vec3 d0 d0 d0) (mk_vec3 d0 d0 (double_of_int (-1))) in
  exists c g' qs,
    @ray_color (test_env 1) r 50 (Enclosure Scatterer) 7 = Some (c, g', qs) /\
    length qs = 50%nat.
Proof. vm_compute. eexists _, _, _. split; reflexivity. Qed.

(** C4.  A ray of positive depth that the scene's hit test misses is given
    the background gradient [(1 - a) * (1, 1, 1) + a * (0.5, 0.7, 1.0)] with
    [a = 0.5 * (y (unit_vector (direction r)) + 1)], after the one query of
    the scene; in a scene that no ray ever hits, every ray of positive depth
    gets it. *)
Theorem ray_color_background `{E : Environment} (world : hittable) (r : ray) (depth : Z)
  (g : generator) :
  0 < depth ->
  (hit world r query_interval = None ->
   ray_color r depth world g
   = Some (background_gradient r, g, [mk_hit_query r depth query_interval])) /\
  ((forall r' iv, hit world r' iv = None) ->
   forall r' depth' g',
     0 < depth' ->
     ray_color r' depth' world g'
     = Some (background_gradient r', g', [mk_hit_query r' depth' query_interval])) /\
  background_gradient r
  = (let a := dmul (decimal 5 1) (dadd (y (unit_vector (direction r))) (double_of_int 1)) in
     vadd (vscale (dsub (double_of_int 1) a)
                  (mk_vec3 (double_of_int 1) (double_of_int 1) (double_of_int 1)))
          (vscale a (mk_vec3 (decimal 5 1) (decimal 7 1) (double_of_int 1)))).
Proof.
  intros Hd. split; [|split].
  - intros Hmiss. apply ray_color_miss; assumption.
  - intros Hempty r' depth' g' Hd'. apply ray_color_miss; [assumption|apply Hempty].
  - reflexivity.
Qed.

(** In the empty scene a ray that points straight up is given the sky blue
    (0.5, 0.7, 1.0); the two roundings of [1 - a] and [a] are exact here. *)
Lemma ray_color_background_witness :
  let r := mk_ray (mk_vec3 d0 d0 d0) (mk_vec3 d0 (double_of_int 1) d0) in
  (@hit (test_env 1) EmptyScene r query_interval = None ->
   @ray_color (test_env 1) r 5 EmptyScene 7
   = Some (background_gradient r, 7, [mk_hit_query r 5 query_interval])) /\
  background_gradient r = mk_vec3 (decimal 5 1) (decimal 7 1) (double_of_int 1).
Proof.
  split.
  - apply (@ray_color_background (test_env 1) EmptyScene
             (mk_ray (mk_vec3 d0 d0 d0) (mk_vec3 d0 (double_of_int 1) d0)) 5 7).
    reflexivity.
  - reflexivity.
Defined.

(** Replacing the hit test by one that agrees with it on the interval
    [[0.001, infinity)] changes nothing. *)
Lemma ray_color_fuel_with_hit `{E : Environment} (world : hittable)
  (h : hittable -> ray -> interval -> option (hit_record material)) :
  (forall r0, h world r0 query_interval = hit world r0 query_interval) ->
  forall fuel r depth g,
    @ray_color_fuel (with_hit E h) fuel r depth world g
    = ray_color_fuel fuel r depth world g.
Proof.
  intros Hagree. induction fuel as [|fuel IH]; intros r depth g; [reflexivity|].
  cbn [ray_color_fuel]. destruct (depth <=? 0); [reflexivity|].
  change (@hit (with_hit E h) world r (mk_interval (decimal 1 3) infinity))
    with (h world r query_interval).
  fold query_interval. rewrite Hagree.
  destruct (hit world r query_interval) as [rec|]; [|reflexivity].
  change (@scatter (with_hit E h) (hr_mat rec) r rec g)
    with (scatter (hr_mat rec) r rec g).
  destruct (scatter (hr_mat rec) r rec g) as [[[att sc]|] g1]; [|reflexivity].
  rewrite IH. reflexivity.
Qed.

(** C5.  A call of [ray_color] at a positive depth passes its own ray and
    the interval whose lower bound is the double 0.001 and whose upper
    bound is plus infinity to the scene's hit test, and what the hit test
    answers on that interval decides the call: a miss gives the background,
    a hit on a material that does not scatter gives black, a hit on one that
    scatters gives the attenuated colour of the scattered ray, found in the
    same way at the depth below.  The hit test is consulted on no other
    interval, at no level of the recursion: a hit test that agrees with the
    scene's on [[0.001, infinity)] and differs from it anywhere else gives
    the same colour, the same generator state and the same queries.  The
    queries, recorded as they are made, are all on that interval; a call of
    depth 0 or less makes none. *)
Theorem ray_color_query_interval `{E : Environment} (world : hittable) (r : ray)
  (depth : Z) (g : generator) :
  (exists c g' qs,
     ray_color r depth world g = Some (c, g', qs) /\
     Forall (fun q => q_interval q
                      = mk_interval (S754_finite false 4611686018427388 (-62))
                                    (S754_infinity false)) qs /\
     (0 < depth -> exists qs', qs = mk_hit_query r depth query_interval :: qs') /\
     (depth <= 0 -> qs = [])) /\
  query_interval
  = mk_interval (S754_finite false 4611686018427388 (-62)) (S754_infinity false) /\
  (0 < depth ->
   (hit world r query_interval = None ->
    ray_color r depth world g
    = Some (background_gradient r, g, [mk_hit_query r depth query_interval])) /\
   (forall rec g1,
      hit world r query_interval = Some rec ->
      scatter (hr_mat rec) r rec g = (None, g1) ->
      ray_color r depth world g
      = Some (black, g1, [mk_hit_query r depth query_interval])) /\
   (forall rec attenuation scattered g1,
      hit world r query_interval = Some rec ->
      scatter (hr_mat rec) r rec g = (Some (attenuation, scattered), g1) ->
      ray_color r depth world g
      = match ray_color scattered (depth - 1) world g1 with
        | Some (c, g2, qs) =>
          Some (vmul attenuation c, g2, mk_hit_query r depth query_interval :: qs)
        | None => None
        end)) /\
  (forall h : hittable -> ray -> interval -> option (hit_record material),
     (forall r0, h world r0 query_interval = hit world r0 query_interval) ->
     @ray_color (with_hit E h) r depth world g = ray_color r depth world g).
Proof.
  split; [|split; [reflexivity|split]].
  - destruct (ray_color_fuel_total world (S (Z.to_nat depth)) r depth g ltac:(lia))
      as [[[c g'] qs] Hres].
    exists c, g', qs. split; [exact Hres|].
    destruct (ray_color_fuel_queries world _ _ _ _ _ _ _ Hres)
      as (Hiv & _ & _ & Hpos & Hfloor).
    repeat split; assumption.
  - intros Hd. split; [|split].
    + apply ray_color_miss. exact Hd.
    + intros rec g1. apply ray_color_absorbed. exact Hd.
    + intros rec attenuation scattered g1. apply ray_color_scattered. exact Hd.
  - intros h Hagree. apply (ray_color_fuel_with_hit world h Hagree).
Qed.

(** In the enclosure of the examples, a hit test that reports nothing on
    the intervals that start at zero differs from the scene's on
    [[0, infinity)] and gives the same colour. *)
Example ray_color_other_intervals :
  let r := mk_ray (mk_vec3 d0 d0 d0) (mk_vec3 d0 d0 (double_of_int (-1))) in
  test_hit_above_zero (Enclosure Scatterer) r (mk_interval d0 infinity)
  <> test_hit (Enclosure Scatterer) r (mk_interval d0 infinity) /\
  @ray_color (with_hit (test_env 1) test_hit_above_zero) r 5 (Enclosure Scatterer) 7
  = @ray_color (test_env 1) r 5 (Enclosure Scatterer) 7.
Proof.
  split; [discriminate|]. vm_compute. reflexivity.
Qed.

(** ** camera.h: initialize and get_ray *)

Section Initialize.
Context {E : Environment}.

(** What [initialize] leaves in the camera. *)
Lemma initialize_spec c c' :
  initialize c = Some c' ->
  image_width c' = image_width c /\
  samples_per_pixel c' = samples_per_pixel c /\
  max_depth c' = max_depth c /\
  defocus_angle c' = defocus_angle c /\
  1 <= image_height c' <= INT_MAX /\
  pixel_samples_scale c' = ddiv (double_of_int 1) (double_of_int (samples_per_pixel c)) /\
  center c' = lookfrom c /\
  cam_u c' = unit_vector (cross (vup c) (unit_vector (vsub (lookfrom c) (lookat c)))) /\
  cam_v c' = cross (unit_vector (vsub (lookfrom c) (lookat c))) (cam_u c') /\
  defocus_disk_u c'
  = vscale_r (cam_u c')
      (dmul (focus_dist c)
            (tan (degrees_to_radians (ddiv (defocus_angle c) (double_of_int 2))))) /\
  defocus_disk_v c'
  = vscale_r (cam_v c')
      (dmul (focus_dist c)
            (tan (degrees_to_radians (ddiv (defocus_angle c) (double_of_int 2))))).
Proof.
  unfold initialize, int_of_double.
  destruct (truncate _) as [h0|]; [|discriminate].
  destruct ((INT_MIN <=? h0) && (h0 <=? INT_MAX)) eqn:Hr; [|discriminate].
  intros [= <-]. cbn.
  apply andb_true_iff in Hr as [_ Hmax%Z.leb_le].
  repeat split; try reflexivity.
  - destruct (Z.ltb_spec h0 1); lia.
  - destruct (Z.ltb_spec h0 1); [unfold INT_MAX; lia|assumption].
Qed.





End Initialize.




(** ** color.h: the output encoder *)

Lemma intensity_eq :
  intensity = mk_interval (S754_zero false) (S754_finite false 8998192055486251 (-53)).
Proof. reflexivity. Qed.

Lemma channel_byte_max :
  int_of_double (dmul (double_of_int 256) (S754_finite false 8998192055486251 (-53)))
  = Some 255.
Proof. reflexivity. Qed.

Lemma channel_byte_clamped m e :
  is_double (S754_finite false m e) ->
  e <= -53 ->
  exists b, int_of_double (dmul (double_of_int 256) (S754_finite false m e)) = Some b /\
            0 <= b <= 255.
Proof.
  intros Hv He. apply bounded_spec in Hv as [Hc Hmax].
  pose proof (digits2_pos_lt m) as Hm.
  destruct (Z.eq_dec (Zpos (digits2_pos m)) 53) as [Hd|Hd].
  - rewrite dmul_256_normal by lia. apply truncate_small; [|lia].
    rewrite Hd in Hm. exact Hm.
  - assert (e = -1074 /\ Zpos (digits2_pos m) < 53) as [-> Hlt] by lia.
    exists 0. split; [|lia]. unfold int_of_double.
    rewrite dmul_256_subnormal by assumption. reflexivity.
Qed.

(** One channel: a NaN has no defined byte; every other double has a byte
    in [[0, 255]]. *)
Lemma channel_byte_spec c :
  is_double c ->
  (is_nan c = true /\ channel_byte c = None) \/
  (is_nan c = false /\ exists b, channel_byte c = Some b /\ 0 <= b <= 255).
Proof.
  intros Hv. unfold channel_byte, clamp. rewrite intensity_eq. cbn [imin imax].
  destruct c as [s|s| |s m e].
  - right. split; [reflexivity|]. exists 0. destruct s; split; (reflexivity || lia).
  - right. split; [reflexivity|]. destruct s.
    + exists 0. split; [reflexivity|lia].
    + exists 255. split; [reflexivity|lia].
  - left. split; reflexivity.
  - right. split; [reflexivity|]. destruct s.
    + exists 0. split; [reflexivity|lia].
    + change (dlt (S754_finite false m e) (S754_zero false)) with false. cbv iota.
      cbv beta iota delta [dlt SFltb SFcompare].
      destruct (Z.compare_spec (-53) e) as [He|He|He].
      * subst e. destruct (Pos.compare_cont Eq 8998192055486251 m).
        -- apply channel_byte_clamped; [assumption|lia].
        -- exists 255. split; [exact channel_byte_max|lia].
        -- apply channel_byte_clamped; [assumption|lia].
      * exists 255. split; [exact channel_byte_max|lia].
      * apply channel_byte_clamped; [assumption|lia].
Qed.

(** The clamp leaves a value of [[0, 0.999]] as it is: its byte is the
    truncation of 256 times the value itself. *)
Lemma channel_byte_linear c :
  dle d0 c = true -> dle c (imax intensity) = true ->
  channel_byte c = int_of_double (dmul (double_of_int 256) c).
Proof.
  intros Hlo Hhi. unfold channel_byte, clamp. rewrite intensity_eq in *. cbn [imin imax] in *.
  assert (Hl : dlt c (S754_zero false) = false).
  { destruct c as [s|s| |s m e]; try reflexivity; destruct s; try reflexivity; discriminate. }
  assert (Hh : dlt (S754_finite false 8998192055486251 (-53)) c = false).
  { revert Hhi. unfold dle, dlt, SFleb, SFltb.
    destruct c as [s|s| |s m e]; try reflexivity; try (destruct s; reflexivity || discriminate).
    destruct s; [reflexivity|]. cbv beta iota delta [SFcompare].
    rewrite (Z.compare_antisym (-53) e).
    destruct (Z.compare (-53) e); cbn [CompOpp]; try reflexivity; try discriminate.
    change (Pos.compare_cont Eq m 8998192055486251)
      with (Pos.compare_cont (CompOpp Eq) m 8998192055486251).
    rewrite <- Pos.compare_cont_antisym.
    destruct (Pos.compare_cont Eq 8998192055486251 m); cbn [CompOpp];
      try reflexivity; discriminate. }
  rewrite Hl, Hh. reflexivity.
Qed.

Lemma channel_byte_below c : dlt c (imin intensity) = true -> channel_byte c = Some 0.
Proof.
  intros Hlt. unfold channel_byte, clamp. rewrite Hlt. reflexivity.
Qed.

Lemma channel_byte_above c : dlt (imax intensity) c = true -> channel_byte c = Some 255.
Proof.
  intros Hgt. unfold channel_byte, clamp. rewrite Hgt.
  destruct (dlt c (imin intensity)) eqn:Hlt; [|reflexivity].
  exfalso. revert Hlt Hgt. rewrite intensity_eq. cbn [imin imax].
  destruct c as [s|s| |s m e]; try discriminate; destruct s; discriminate.
Qed.

(** C9 (as amended).  [write_color] turns each channel of a pixel into a
    byte on its own: the channel is clamped to [[0, 0.999]], multiplied by
    256 and truncated.  A channel below 0 gives 0 and one above 0.999 gives
    255; a channel inside the interval gives the truncation of 256 times
    itself, with no other transformation (no gamma curve): 0.25 gives 64.
    The inputs 1.0, 0.0 and -5.0 give 255, 0 and 0.  A pixel with no NaN
    channel is always written, and every byte of its line lies in
    [[0, 255]].  A NaN is not clamped, both comparisons of the clamp being
    false for it, and its conversion to [int] is undefined: a pixel with a
    NaN channel has no defined line, and no byte of [[0, 255]] is promised
    for it. *)
Theorem write_color_quantization (out : list ppm_item) (pixel : color) :
  is_double (x pixel) -> is_double (y pixel) -> is_double (z pixel) ->
  (* the documented values *)
  (channel_byte (double_of_int 1) = Some 255 /\
   channel_byte (double_of_int 0) = Some 0 /\
   channel_byte (double_of_int (-5)) = Some 0 /\
   channel_byte (decimal 25 2) = Some 64) /\
  (* clamp, scale by 256, truncate *)
  (forall c, dlt c (imin intensity) = true -> channel_byte c = Some 0) /\
  (forall c, dlt (imax intensity) c = true -> channel_byte c = Some 255) /\
  (forall c, dle (imin intensity) c = true -> dle c (imax intensity) = true ->
             channel_byte c = int_of_double (dmul (double_of_int 256) c)) /\
  (* every line written holds the bytes of the three channels, in range *)
  (forall out', write_color out pixel = Some out' ->
     exists r g b, out' = out ++ [PixelLine r g b] /\
       channel_byte (x pixel) = Some r /\ channel_byte (y pixel) = Some g /\
       channel_byte (z pixel) = Some b /\
       0 <= r <= 255 /\ 0 <= g <= 255 /\ 0 <= b <= 255) /\
  (* a line is written exactly when no channel is a NaN *)
  (write_color out pixel = None <->
     is_nan (x pixel) || is_nan (y pixel) || is_nan (z pixel) = true) /\
  (is_nan (x pixel) || is_nan (y pixel) || is_nan (z pixel) = false ->
   exists r g b,
     write_color out pixel = Some (out ++ [PixelLine r g b]) /\
     0 <= r <= 255 /\ 0 <= g <= 255 /\ 0 <= b <= 255) /\
  (* a NaN goes through the clamp and has no byte *)
  (forall c, is_nan c = true ->
     clamp intensity c = c /\
     dmul (double_of_int 256) (clamp intensity c) = c /\
     channel_byte c = None).
Proof.
  intros Hx Hy Hz.
  split; [repeat split; reflexivity|].
  split; [exact channel_byte_below|].
  split; [exact channel_byte_above|].
  split; [exact channel_byte_linear|].
  assert (Hline :
    (forall out', write_color out pixel = Some out' ->
       exists r g b, out' = out ++ [PixelLine r g b] /\
         channel_byte (x pixel) = Some r /\ channel_byte (y pixel) = Some g /\
         channel_byte (z pixel) = Some b /\
         0 <= r <= 255 /\ 0 <= g <= 255 /\ 0 <= b <= 255) /\
    (write_color out pixel = None <->
       is_nan (x pixel) || is_nan (y pixel) || is_nan (z pixel) = true)).
  { unfold write_color.
    destruct (channel_byte_spec _ Hx) as [[Nx Ex]|[Nx (r & Ex & Hr)]];
      destruct (channel_byte_spec _ Hy) as [[Ny Ey]|[Ny (g & Ey & Hg)]];
      destruct (channel_byte_spec _ Hz) as [[Nz Ez]|[Nz (b & Ez & Hb)]];
      rewrite Ex, Ey, Ez, Nx, Ny, Nz; cbn [orb].
    all: split; [intros out' Hout; try discriminate|split; intros; congruence].
    injection Hout as <-. exists r, g, b. repeat split; assumption || lia. }
  destruct Hline as [Hsome Hnone].
  split; [exact Hsome|]. split; [exact Hnone|]. split.
  - intros Hnan. destruct (write_color out pixel) as [out'|] eqn:Hw.
    + destruct (Hsome out' eq_refl) as (r & g & b & -> & _ & _ & _ & Hr & Hg & Hb).
      exists r, g, b. split_and!; try reflexivity; lia.
    + rewrite (proj1 Hnone eq_refl) in Hnan. discriminate.
  - intros c Hc. destruct c; try discriminate. split_and!; reflexivity.
Qed.

(** The pixel (1.0, 0.0, -5.0) is written as the line "255 0 0". *)
Lemma write_color_quantization_witness :
  write_color [] (mk_vec3 (double_of_int 1) (double_of_int 0) (double_of_int (-5)))
  = Some [PixelLine 255 0 0] /\
  forall out', write_color [] (mk_vec3 (double_of_int 1) (double_of_int 0) (double_of_int (-5)))
               = Some out' ->
     exists r g b, out' = [] ++ [PixelLine r g b] /\
       channel_byte (double_of_int 1) = Some r /\ channel_byte (double_of_int 0) = Some g /\
       channel_byte (double_of_int (-5)) = Some b /\
       0 <= r <= 255 /\ 0 <= g <= 255 /\ 0 <= b <= 255.
Proof.
  split; [reflexivity|].
  apply (write_color_quantization []
           (mk_vec3 (double_of_int 1) (double_of_int 0) (double_of_int (-5))));
    reflexivity.
Defined.

(** C9, as stated, fails for a NaN: it is a double, the clamp leaves it
    as it is, and the conversion of a NaN to [int] has no defined result,
    so [write_color] has no line of three bytes of [[0, 255]] for a pixel
    with a NaN channel.  Such a pixel is what [render] computes when
    [samples_per_pixel] is 0, for every scene and every pixel: the sum of no
    sample, black, times [1.0 / 0]. *)
Lemma nan_channel_has_no_byte :
  is_double S754_nan /\
  clamp intensity S754_nan = S754_nan /\
  channel_byte S754_nan = None /\
  write_color [] (mk_vec3 S754_nan S754_nan S754_nan) = None /\
  ~ writes_bytes_in_range (mk_vec3 S754_nan S754_nan S754_nan) /\
  ~ (forall pixel,
       is_double (x pixel) -> is_double (y pixel) -> is_double (z pixel) ->
       writes_bytes_in_range pixel) /\
  exists c,
    @initialize (test_env 1) sample_free_camera = Some c /\
    forall world i j g,
      @render_pixel (test_env 1) c world i j g
      = Some (mk_vec3 S754_nan S754_nan S754_nan, g).
Proof.
  assert (Hno : ~ writes_bytes_in_range (mk_vec3 S754_nan S754_nan S754_nan)).
  { intros Hw. destruct (Hw []) as (r & g & b & Hline & _). discriminate Hline. }
  split_and!; try reflexivity; try exact Hno.
  - intros Hall. apply Hno. apply Hall; reflexivity.
  - eexists. split; [reflexivity|]. intros world i j g. reflexivity.
Qed.

(** ** camera.h: render *)

Section Render.
Context {E : Environment}.
Variable world : hittable.
Hypothesis Hhw : 0 <= hardware_concurrency <= UINT_MAX.

Lemma num_threads_range : 1 <= num_threads <= UINT_MAX.
Proof.
  unfold num_threads. destruct (Z.eqb_spec hardware_concurrency 0); unfold UINT_MAX in *; lia.
Qed.

(** *** The rows entered *)

Lemma entered_rows_app ws w :
  entered_rows (ws ++ [w]) = entered_rows ws + (cursor w - w_start w).
Proof.
  induction ws as [|w' ws IH]; cbn [entered_rows app]; lia.
Qed.

Lemma entered_rows_insert ws t w w' :
  ws !! t = Some w ->
  entered_rows (<[t := w']> ws)
  = entered_rows ws + (cursor w' - w_start w') - (cursor w - w_start w).
Proof.
  revert t. induction ws as [|w0 ws IH]; intros [|t] Hl; try discriminate.
  - injection Hl as ->. cbn [entered_rows]. change (<[0%nat := w']> (w :: ws)) with (w' :: ws).
    cbn [entered_rows]. lia.
  - change (<[S t := w']> (w0 :: ws)) with (w0 :: <[t := w']> ws).
    cbn [entered_rows]. rewrite (IH t Hl). lia.
Qed.

(** A worker stands between the bounds of its range. *)
Lemma wf_worker_cursor H W k w :
  1 <= H <= INT_MAX -> (Z.of_nat k < num_threads) ->
  wf_worker H W k w ->
  w_start w <= cursor w <= w_end w /\ 0 <= w_start w /\ w_end w <= H.
Proof.
  intros HH Hk (Hs & He & Hpc).
  pose proof (range_bounds H num_threads HH num_threads_range (Z.of_nat k) ltac:(lia)) as Hb.
  rewrite <- Hs, <- He in Hb. unfold cursor. destruct (w_pc w); lia.
Qed.

(** The rows entered by the first [n] workers all lie below the start of
    worker [n]. *)
Lemma entered_rows_bound H W ws :
  1 <= H <= INT_MAX ->
  Z.of_nat (length ws) <= num_threads ->
  (forall k w, ws !! k = Some w -> wf_worker H W k w) ->
  0 <= entered_rows ws /\
  entered_rows ws <= (if Z.of_nat (length ws) <? num_threads
                      then start_line H num_threads (Z.of_nat (length ws)) else H).
Proof.
  intros HH. pose proof num_threads_range as HT.
  induction ws as [|w ws IH] using rev_ind; intros Hlen Hwf.
  - cbn [entered_rows length]. change (Z.of_nat 0) with 0.
    destruct (Z.ltb_spec 0 num_threads); [|lia].
    rewrite (first_start H num_threads HH HT). lia.
  - rewrite length_app in *. cbn [length] in *. rewrite entered_rows_app.
    assert (Hlen' : Z.of_nat (length ws) <= num_threads) by lia.
    specialize (IH Hlen').
    destruct IH as [IH0 IH1].
    { intros k w' Hk. apply Hwf. apply lookup_app_l_Some. exact Hk. }
    assert (Hw : wf_worker H W (length ws) w).
    { apply Hwf. rewrite lookup_app_r by lia. rewrite Nat.sub_diag. reflexivity. }
    pose proof (wf_worker_cursor H W (length ws) w HH ltac:(lia) Hw) as (Hc & Hs0 & HeH).
    destruct Hw as (Hs & He & _).
    destruct (Z.ltb_spec (Z.of_nat (length ws)) num_threads) as [Hlt|]; [|lia].
    rewrite <- Hs in IH1. split; [lia|].
    destruct (Z.ltb_spec (Z.of_nat (length ws + 1)) num_threads) as [Hlt'|Hge].
    + rewrite Nat2Z.inj_add. change (Z.of_nat 1) with 1.
      rewrite <- (range_adjacent H num_threads HH HT) by lia. rewrite <- He. lia.
    + lia.
Qed.


(** *** The invariant of the shared state *)

Lemma write_all_app out l1 l2 :
  write_all out (l1 ++ l2)
  = match write_all out l1 with Some out' => write_all out' l2 | None => None end.
Proof.
  revert out. induction l1 as [|p l1 IH]; intros out; cbn [write_all app]; [reflexivity|].
  destruct (write_color out p); [apply IH|reflexivity].
Qed.

(** A step of worker [t], from [w] (not finished) to [w']. *)
Lemma worker_step_ok c s s' t w w' :
  state_ok c s ->
  threads s !! t = Some w ->
  w_pc w <> Finished ->
  st_cam s' = st_cam s ->
  st_main s' = st_main s ->
  threads s' = <[t := w']> (threads s) ->
  length (image_buffer s') = length (image_buffer s) ->
  cout s' = cout s ->
  wf_worker (image_height c) (image_width c) t w' ->
  scanlines_remaining s' = scanlines_remaining s - (cursor w' - cursor w) ->
  state_ok c s'.
Proof.
  intros (Hcam & HW & HH & HWH & Hbuf & Hwf & Hrem & Hmain) Ht Hpc Hcam' Hmain' Hthr Hbuf'
         Hcout Hwf' Hrem'.
  unfold state_ok. rewrite Hcam', Hmain', Hthr, Hbuf', Hcout, Hrem'.
  rewrite length_insert.
  split; [assumption|]. split; [assumption|]. split; [assumption|].
  split; [assumption|]. split; [assumption|].
  split.
  { intros k w0 Hk. apply list_lookup_insert_Some in Hk as [(-> & <- & _)|(Hne & Hk)].
    - exact Hwf'.
    - apply Hwf. exact Hk. }
  split.
  { rewrite (entered_rows_insert _ _ _ _ Ht), Hrem.
    destruct Hwf' as (Hs' & _). destruct (Hwf _ _ Ht) as (Hs & _). lia. }
  destruct (st_main s) as [|t0|k|k|].
  - contradiction.
  - exact Hmain.
  - destruct Hmain as (Hlen & Hfin & Hc). repeat split; try assumption.
    intros k' w0 Hk' Hl. apply list_lookup_insert_Some in Hl as [(-> & <- & _)|(Hne & Hl)].
    + exfalso. apply Hpc. apply (Hfin _ _ Hk' Ht).
    + apply (Hfin _ _ Hk' Hl).
  - destruct Hmain as (_ & Hfin & _). exfalso. apply Hpc. apply (Hfin _ _ Ht).
  - destruct Hmain as (_ & Hfin & _). exfalso. apply Hpc. apply (Hfin _ _ Ht).
Qed.

Lemma step_state_ok c s ev s' : state_ok c s -> step world s ev s' -> state_ok c s'.
Proof.
  intros Hok Hstep. pose proof Hok as (Hcam & HW & HH & HWH & Hbuf & Hwf & Hrem & Hmain).
  pose proof num_threads_range as HT.
  destruct Hstep as [s c1 Hm Hi Hr | s t g Hm Ht st en | s t Hm Ht | s k w Hm Hk Hw
                    | s k Hm Hk | s k pixel out Hm Hk Hout | s k Hm Hk
                    | s t w j Ht Hpc Hj rem | s t w j Ht Hpc Hj
                    | s t w j i col g Ht Hpc Hi Hpx idx Hidx | s t w j i Ht Hpc Hi].
  - rewrite Hm in Hmain. contradiction.
  - (* spawn *)
    rewrite Hm in Hmain. destruct Hmain as (Ht0 & Hlen & Hc).
    subst st en. rewrite Hcam.
    pose proof (range_bounds _ _ HH HT t ltac:(lia)) as Hb.
    unfold state_ok. cbn [st_cam st_main threads image_buffer scanlines_remaining cout].
    do 5 (split; [first [assumption|reflexivity]|]).
    split.
    { intros k w0 Hk. apply lookup_snoc_Some in Hk as [(Hlt & Hk)|(-> & <-)].
      - apply Hwf. exact Hk.
      - unfold wf_worker. cbn [w_start w_end w_pc]. rewrite Hlen, Z2Nat.id by lia.
        repeat split; lia. }
    split.
    { rewrite entered_rows_app, Hrem. unfold cursor. cbn [w_pc w_start]. lia. }
    rewrite to_unsigned_small by lia.
    split; [lia|]. split; [|assumption].
    rewrite length_app, Hlen. cbn [length]. lia.
  - (* all workers spawned *)
    rewrite Hm in Hmain. destruct Hmain as (Ht0 & Hlen & Hc).
    unfold state_ok, set_main.
    cbn [st_cam st_main threads image_buffer scanlines_remaining cout].
    do 7 (split; [first [assumption|reflexivity]|]).
    split; [|split; [|assumption]].
    + rewrite Hlen. f_equal. lia.
    + intros k' w0 Hk'. lia.
  - (* join *)
    rewrite Hm in Hmain. destruct Hmain as (Hlen & Hfin & Hc).
    unfold state_ok, set_main.
    cbn [st_cam st_main threads image_buffer scanlines_remaining cout].
    do 7 (split; [first [assumption|reflexivity]|]).
    split; [assumption|]. split; [|assumption].
    intros k' w0 Hk' Hl. destruct (decide (k' = k)) as [->|Hne].
    + rewrite Hk in Hl. injection Hl as <-. exact Hw.
    + apply (Hfin k' w0); [lia|exact Hl].
  - (* all workers joined *)
    rewrite Hm in Hmain. destruct Hmain as (Hlen & Hfin & Hc).
    unfold state_ok.
    cbn [st_cam st_main threads image_buffer scanlines_remaining cout].
    do 7 (split; [first [assumption|reflexivity]|]).
    split; [assumption|]. split; [|split; [lia|]].
    + intros k' w0 Hl. apply (Hfin k' w0); [|exact Hl].
      apply lookup_lt_Some in Hl. lia.
    + rewrite take_0. cbn [write_all]. rewrite Hc. reflexivity.
  - (* one pixel line *)
    rewrite Hm in Hmain. destruct Hmain as (Hlen & Hfin & Hk' & Hw).
    unfold state_ok.
    cbn [st_cam st_main threads image_buffer scanlines_remaining cout].
    do 7 (split; [first [assumption|reflexivity]|]).
    split; [assumption|]. split; [assumption|].
    split; [apply lookup_lt_Some in Hk; lia|].
    rewrite (take_S_r _ _ _ Hk), write_all_app, Hw. cbn [write_all]. rewrite Hout. reflexivity.
  - (* return *)
    rewrite Hm in Hmain. destruct Hmain as (Hlen & Hfin & Hk' & Hw).
    unfold state_ok, set_main.
    cbn [st_cam st_main threads image_buffer scanlines_remaining cout].
    do 7 (split; [first [assumption|reflexivity]|]).
    split; [assumption|]. split; [assumption|].
    rewrite take_ge in Hw by lia. exact Hw.
  - (* a worker enters a row *)
    destruct (Hwf _ _ Ht) as (Hs & He & Hp). rewrite Hpc in Hp.
    eapply (worker_step_ok c s _ t w (set_pc w (AtPixel j 0)) Hok Ht);
      try reflexivity; [congruence| |].
    + unfold wf_worker, set_pc. cbn [w_start w_end w_pc]. repeat split; lia.
    + subst rem. unfold cursor, set_pc. cbn [scanlines_remaining w_pc]. rewrite Hpc. lia.
  - (* a worker leaves the row loop *)
    destruct (Hwf _ _ Ht) as (Hs & He & Hp). rewrite Hpc in Hp.
    eapply (worker_step_ok c s _ t w (set_pc w Finished) Hok Ht);
      try reflexivity; [congruence| |].
    + unfold wf_worker, set_pc. cbn [w_start w_end w_pc]. repeat split; lia.
    + unfold cursor, set_pc, set_worker. cbn [scanlines_remaining w_pc w_end].
      rewrite Hpc. lia.
  - (* a worker stores a pixel *)
    destruct (Hwf _ _ Ht) as (Hs & He & Hp). rewrite Hpc in Hp.
    eapply (worker_step_ok c s _ t w (mk_worker (w_start w) (w_end w) (AtPixel j (i + 1)) g)
              Hok Ht); try reflexivity; [congruence| | |].
    + cbn [image_buffer]. apply length_insert.
    + unfold wf_worker. cbn [w_start w_end w_pc]. rewrite Hcam in Hi. repeat split; lia.
    + unfold cursor. cbn [scanlines_remaining w_pc]. rewrite Hpc. lia.
  - (* a worker finishes a row *)
    destruct (Hwf _ _ Ht) as (Hs & He & Hp). rewrite Hpc in Hp.
    eapply (worker_step_ok c s _ t w (set_pc w (AtRow (j + 1))) Hok Ht);
      try reflexivity; [congruence| |].
    + unfold wf_worker, set_pc. cbn [w_start w_end w_pc]. repeat split; lia.
    + unfold cursor, set_pc, set_worker. cbn [scanlines_remaining w_pc]. rewrite Hpc. lia.
Qed.

(** The first step of [render]. *)
Lemma step_begin_ok c0 ev s' :
  step world (initial c0) ev s' ->
  ev = EvHeader /\
  exists c, initialize c0 = Some c /\ state_ok c s' /\
    (threads s' = []) /\ (st_main s' = Spawning 0) /\
    (scanlines_remaining s' = image_height c) /\
    (image_buffer s' = replicate (Z.to_nat (image_width c * image_height c)) black).
Proof.
  intros Hstep. pose proof num_threads_range as HT.
  remember (initial c0) as s0 eqn:Hs0.
  destruct Hstep as [s c Hm Hi Hr| | | | | | | | | | ]; subst s0 || subst s;
    cbn [initial st_main threads] in *;
    try discriminate; try (rewrite lookup_nil in *; discriminate).
  split; [reflexivity|]. exists c. split; [assumption|].
  destruct (initialize_spec _ _ Hi) as (_ & _ & _ & _ & HH & _).
  assert (HW : 0 <= image_width c) by nia.
  unfold state_ok.
  cbn [st_cam st_main threads image_buffer scanlines_remaining cout app entered_rows length].
  split_and!; try lia; try reflexivity.
  - apply length_replicate.
  - intros k w Hk. rewrite lookup_nil in Hk. discriminate.
Qed.

(** *** Executions *)

Lemma exec_app s tr1 s1 tr2 s2 :
  exec world s tr1 s1 -> exec world s1 tr2 s2 -> exec world s (tr1 ++ tr2) s2.
Proof.
  intros H1 H2. induction H2 as [s1|s1 tr2 s2 ev s3 H2 IH Hstep].
  - rewrite app_nil_r. exact H1.
  - rewrite app_assoc. eapply exec_snoc; [apply IH; exact H1|exact Hstep].
Qed.

(** An event of a trace is a step between two states of the execution. *)
Lemma exec_split s tr s' : exec world s tr s' -> forall tr1 ev tr2,
  tr = tr1 ++ ev :: tr2 ->
  exists s1 s2, exec world s tr1 s1 /\ step world s1 ev s2 /\ exec world s2 tr2 s'.
Proof.
  induction 1 as [s|s tr s1 ev0 s2 Hexec IH Hstep]; intros tr1 ev tr2 Heq.
  - destruct tr1; discriminate.
  - destruct tr2 as [|e tr2 _] using rev_ind.
    + apply app_inj_tail in Heq as [-> ->].
      exists s1, s2. split; [assumption|]. split; [assumption|constructor].
    + rewrite app_comm_cons, app_assoc in Heq. apply app_inj_tail in Heq as [-> ->].
      destruct (IH _ _ _ eq_refl) as (sa & sb & Ha & Hs & Hb).
      exists sa, sb. split; [assumption|]. split; [assumption|].
      eapply exec_snoc; eassumption.
Qed.

Lemma in_split_trace (ev : event) tr : In ev tr -> exists tr1 tr2, tr = tr1 ++ ev :: tr2.
Proof. apply in_split. Qed.

(** Every state of a render but the first satisfies the invariant, for the
    camera that [initialize] returned, and its trace starts with the header. *)
Lemma reachable_cases c0 tr s :
  reachable world c0 tr s ->
  (tr = [] /\ s = initial c0) \/
  exists c tr', initialize c0 = Some c /\ tr = EvHeader :: tr' /\ state_ok c s.
Proof.
  unfold reachable. remember (initial c0) as s0 eqn:Hs0.
  induction 1 as [s|s tr s1 ev s2 Hexec IH Hstep]; [left; auto|].
  right. destruct (IH Hs0) as [[-> ->]|(c & tr' & Hi & -> & Hok)].
  - subst s. destruct (step_begin_ok _ _ _ Hstep) as (-> & c & Hi & Hok & _).
    exists c, []. split; [assumption|]. split; [reflexivity|assumption].
  - exists c, (tr' ++ [ev]). split; [assumption|]. split; [reflexivity|].
    eapply step_state_ok; eassumption.
Qed.

Lemma reachable_ok c0 c tr s :
  reachable world c0 tr s -> initialize c0 = Some c -> st_main s <> Start -> state_ok c s.
Proof.
  intros Hr Hi Hm. destruct (reachable_cases _ _ _ Hr) as [[-> ->]|(c' & tr' & Hi' & -> & Hok)].
  - exfalso. apply Hm. reflexivity.
  - congruence.
Qed.

(** Induction over the states of a render that have an initialized camera. *)
Lemma reachable_ind_ok c0 c (Q : list event -> state -> Prop) :
  initialize c0 = Some c ->
  (forall s1, step world (initial c0) EvHeader s1 -> state_ok c s1 -> Q [EvHeader] s1) ->
  (forall tr s ev s',
     reachable world c0 tr s -> state_ok c s -> Q tr s ->
     step world s ev s' -> state_ok c s' -> Q (tr ++ [ev]) s') ->
  forall tr s, reachable world c0 tr s -> st_main s <> Start -> Q tr s.
Proof.
  intros Hi Hbase Hstep tr s Hr. unfold reachable in Hr.
  remember (initial c0) as s0 eqn:Hs0.
  induction Hr as [s|s tr s1 ev s2 Hexec IH Hst]; intros Hm.
  - subst s. exfalso. apply Hm. reflexivity.
  - subst s. destruct (reachable_cases c0 tr s1 Hexec) as [[-> ->]|(c' & tr' & Hi' & -> & Hok)].
    + destruct (step_begin_ok _ _ _ Hst) as (-> & c' & Hi' & Hok & _).
      assert (c' = c) as -> by congruence.
      apply Hbase; assumption.
    + assert (c' = c) as -> by congruence.
      assert (Hm1 : st_main s1 <> Start).
      { destruct Hok as (_ & _ & _ & _ & _ & _ & _ & Hmain).
        intros Heq. rewrite Heq in Hmain. exact Hmain. }
      apply (Hstep _ s1); try assumption.
      * apply IH; auto.
      * eapply step_state_ok; eassumption.
Qed.

(** *** What the trace says about the workers *)

Lemma count_decrements_snoc t j tr ev :
  count_decrements t j (tr ++ [ev])
  = (count_decrements t j tr
     + match ev with
       | EvDecrement t' j' _ => if decide (t = t' /\ j = j') then 1 else 0
       | _ => 0
       end)%nat.
Proof.
  induction tr as [|e tr IH]; cbn [app count_decrements].
  - destruct ev; lia.
  - destruct e; rewrite ?IH; lia.
Qed.

Lemma total_decrements_snoc tr ev :
  total_decrements (tr ++ [ev])
  = (total_decrements tr + match ev with EvDecrement _ _ _ => 1 | _ => 0 end)%nat.
Proof.
  induction tr as [|e tr IH]; cbn [app total_decrements].
  - destruct ev; lia.
  - destruct e; rewrite ?IH; lia.
Qed.

Lemma pixel_events_snoc tr ev :
  pixel_events (tr ++ [ev])
  = pixel_events tr ++ match ev with EvPixel k => [k] | _ => [] end.
Proof.
  induction tr as [|e tr IH]; cbn [app pixel_events].
  - destruct ev; reflexivity.
  - destruct e; rewrite ?IH; reflexivity.
Qed.

Lemma count_decrements_in t j tr :
  (1 <= count_decrements t j tr)%nat -> exists remaining, In (EvDecrement t j remaining) tr.
Proof.
  induction tr as [|e tr IH]; cbn [count_decrements]; [lia|].
  intros Hc. destruct e as [| | |t' j' r| | | | | | |];
    try (destruct (IH Hc) as [r' Hin]; exists r'; right; exact Hin).
  destruct (decide (t = t' /\ j = j')) as [[-> ->]|Hne].
  - exists r. left. reflexivity.
  - destruct (IH ltac:(lia)) as [r' Hin]. exists r'. right. exact Hin.
Qed.

Lemma in_count_decrements t j remaining tr :
  In (EvDecrement t j remaining) tr -> (1 <= count_decrements t j tr)%nat.
Proof.
  induction tr as [|e tr IH]; intros Hin; [destruct Hin|].
  destruct Hin as [->|Hin]; cbn [count_decrements].
  - destruct (decide (t = t /\ j = j)) as [|Hne]; [lia|]. exfalso. apply Hne. auto.
  - specialize (IH Hin). destruct e; lia.
Qed.

Lemma trace_ok_quiet c tr s ev s' :
  trace_ok world c tr s ->
  quiet ev ->
  threads s' = threads s ->
  image_buffer s' = image_buffer s ->
  scanlines_remaining s' = scanlines_remaining s ->
  trace_ok world c (tr ++ [ev]) s'.
Proof.
  intros (HA & HB & HC & HD) Hq Hthr Hbuf Hrem.
  unfold trace_ok. rewrite Hthr, Hbuf, Hrem, total_decrements_snoc.
  split_and!.
  - destruct ev; try contradiction; lia.
  - intros t j. rewrite count_decrements_snoc, <- HB. destruct ev; try contradiction; lia.
  - intros t j i index col Hin. apply in_app_or in Hin as [Hin|[->|[]]].
    + apply HC. exact Hin.
    + contradiction.
  - intros t w j i Hl Hs. destruct (HD _ _ _ _ Hl Hs) as [col Hin].
    exists col. apply in_or_app. left. exact Hin.
Qed.

Lemma trace_ok_spawn c tr s t0 w :
  trace_ok world c tr s ->
  w_pc w = AtRow (w_start w) ->
  trace_ok world c (tr ++ [EvSpawn t0])
           (mk_state (st_cam s) (Spawning (to_unsigned (t0 + 1))) (threads s ++ [w])
                     (image_buffer s) (scanlines_remaining s) (cout s) (clog s)).
Proof.
  intros (HA & HB & HC & HD) Hpc.
  unfold trace_ok. cbn [threads image_buffer scanlines_remaining].
  rewrite total_decrements_snoc.
  assert (Hnew : forall j, ~ entered w j).
  { intros j. unfold entered, cursor. rewrite Hpc. lia. }
  split_and!.
  - lia.
  - intros t j. rewrite count_decrements_snoc, HB, Nat.add_0_r.
    destruct (decide (t < length (threads s))%nat) as [Hlt|Hge].
    + rewrite lookup_app_l by assumption. reflexivity.
    + rewrite (lookup_ge_None_2 (threads s) t) by lia.
      destruct ((threads s ++ [w]) !! t) as [w1|] eqn:Hl; [|reflexivity].
      apply lookup_snoc_Some in Hl as [(Hlt & _)|(_ & <-)]; [lia|].
      destruct (decide (entered w j)) as [Hen|]; [|reflexivity].
      exfalso. apply (Hnew j Hen).
  - intros t j i index col Hin. apply in_app_or in Hin as [Hin|[Heq|[]]]; [|discriminate].
    destruct (HC _ _ _ _ _ Hin) as (Hidx & Hpx & Hb & w1 & Hl & Hst).
    split_and!; try assumption.
    exists w1. split; [|assumption]. apply lookup_app_l_Some. exact Hl.
  - intros t w1 j i Hl Hs.
    apply lookup_snoc_Some in Hl as [(_ & Hl)|(_ & <-)].
    + destruct (HD _ _ _ _ Hl Hs) as [col Hin]. exists col. apply in_or_app. left. exact Hin.
    + exfalso. destruct Hs as (_ & Hs & Hp). rewrite Hpc in Hp. lia.
Qed.

Lemma lookup_insert_worker (ws : list worker) t0 w w' t w1 :
  ws !! t0 = Some w ->
  (<[t0 := w']> ws) !! t = Some w1 ->
  (t = t0 /\ w1 = w') \/ (t <> t0 /\ ws !! t = Some w1).
Proof.
  intros Ht Hl. apply list_lookup_insert_Some in Hl as [(-> & <- & _)|(Hne & Hl)]; auto.
Qed.

Lemma lookup_insert_same (ws : list worker) t0 w w' :
  ws !! t0 = Some w -> (<[t0 := w']> ws) !! t0 = Some w'.
Proof. intros Ht. apply list_lookup_insert_eq. eapply lookup_lt_Some. exact Ht. Qed.

(** Two pixels of the image with the same buffer index are the same. *)
Lemma index_injective W j i j' i' :
  0 <= i < W -> 0 <= i' < W -> j * W + i = j' * W + i' -> j = j' /\ i = i'.
Proof. intros Hi Hi' Heq. assert (j = j') by nia. subst. lia. Qed.

(** A worker that has stored a pixel of a row, or stands in it, owns the row. *)
Lemma wf_worker_assigned H W k w j :
  wf_worker H W k w ->
  w_start w <= j ->
  match w_pc w with
  | AtRow j' => j < j'
  | AtPixel j' _ => j <= j'
  | Finished => j < w_end w
  end ->
  assigned H num_threads (Z.of_nat k) j.
Proof.
  intros (Hs & He & Hp) Hj Hpc. unfold assigned. rewrite <- Hs, <- He.
  destruct (w_pc w); lia.
Qed.

(** A step of a worker other than a store. *)
Lemma trace_ok_worker c tr s s' ev t0 w w' :
  state_ok c s -> trace_ok world c tr s ->
  threads s !! t0 = Some w ->
  threads s' = <[t0 := w']> (threads s) ->
  image_buffer s' = image_buffer s ->
  w_start w' = w_start w ->
  (forall j i, stored (image_width c) w j i <-> stored (image_width c) w' j i) ->
  (exists j0, ev = EvDecrement t0 j0 (scanlines_remaining s') /\
              cursor w = j0 /\ cursor w' = j0 + 1 /\ w_start w <= j0 /\
              scanlines_remaining s' = scanlines_remaining s - 1) \/
  (quiet ev /\ cursor w' = cursor w /\ scanlines_remaining s' = scanlines_remaining s) ->
  trace_ok world c (tr ++ [ev]) s'.
Proof.
  intros Hok (HA & HB & HC & HD) Ht Hthr Hbuf Hst Hstored Hkind.
  unfold trace_ok. rewrite Hthr, Hbuf, total_decrements_snoc.
  split_and!.
  - destruct Hkind as [(j0 & -> & _ & _ & _ & ->)|(Hq & _ & ->)]; [lia|].
    destruct ev; try contradiction; lia.
  - intros t j. rewrite count_decrements_snoc, HB.
    destruct (decide (t = t0)) as [->|Hne].
    + rewrite Ht, (lookup_insert_same _ _ _ _ Ht).
      destruct Hkind as [(j0 & -> & Hc & Hc' & Hs0 & _)|(Hq & Hc & _)].
      * repeat case_decide; unfold entered in *; rewrite ?Hst, ?Hc, ?Hc' in *; lia.
      * destruct ev; try contradiction;
          repeat case_decide; unfold entered in *; rewrite ?Hst, ?Hc in *; lia.
    + rewrite list_lookup_insert_ne by congruence.
      destruct Hkind as [(j0 & -> & _)|(Hq & _)].
      * case_decide; [|lia]. exfalso. apply Hne. tauto.
      * destruct ev; try contradiction; lia.
  - intros t j i index col Hin. apply in_app_or in Hin as [Hin|[Heq|[]]].
    + destruct (HC _ _ _ _ _ Hin) as (Hidx & Hpx & Hb & w1 & Hl & Hs).
      split_and!; try assumption.
      destruct (decide (t = t0)) as [->|Hne].
      * exists w'. split; [eapply lookup_insert_same; eassumption|].
        apply Hstored. congruence.
      * exists w1. split; [|assumption]. rewrite list_lookup_insert_ne by congruence. exact Hl.
    + subst ev. destruct Hkind as [(j0 & Heq & _)|(Hq & _)]; [discriminate|contradiction].
  - intros t w1 j i Hl Hs.
    destruct (lookup_insert_worker _ _ _ _ _ _ Ht Hl) as [(-> & ->)|(Hne & Hl')].
    + apply Hstored in Hs. destruct (HD _ _ _ _ Ht Hs) as [col Hin].
      exists col. apply in_or_app. left. exact Hin.
    + destruct (HD _ _ _ _ Hl' Hs) as [col Hin].
      exists col. apply in_or_app. left. exact Hin.
Qed.

Lemma threads_index_range c s t w :
  state_ok c s -> threads s !! t = Some w -> 0 <= Z.of_nat t < num_threads.
Proof.
  intros (_ & _ & _ & _ & _ & _ & _ & Hmain) Hl. apply lookup_lt_Some in Hl.
  pose proof num_threads_range as HT.
  destruct (st_main s); [contradiction|..]; destruct Hmain as (H1 & H2 & _); lia.
Qed.

(** Rows are not shared: the worker that stands in a row, or has stored a
    pixel of it, is the only one assigned to it. *)
Lemma row_owner_unique c s t w t' w' j :
  state_ok c s ->
  threads s !! t = Some w -> threads s !! t' = Some w' ->
  assigned (image_height c) num_threads (Z.of_nat t) j ->
  assigned (image_height c) num_threads (Z.of_nat t') j ->
  t = t' /\ w = w'.
Proof.
  intros Hok Hl Hl' Ha Ha'.
  pose proof (threads_index_range _ _ _ _ Hok Hl) as Ht.
  pose proof (threads_index_range _ _ _ _ Hok Hl') as Ht'.
  destruct Hok as (_ & _ & HH & _).
  assert (t = t').
  { apply Nat2Z.inj. eapply (assigned_unique _ _ HH num_threads_range); eassumption. }
  subst t'. split; [reflexivity|congruence].
Qed.

Lemma stored_assigned c s t w j i :
  state_ok c s -> threads s !! t = Some w -> stored (image_width c) w j i ->
  assigned (image_height c) num_threads (Z.of_nat t) j.
Proof.
  intros (_ & _ & _ & _ & _ & Hwf & _) Hl (_ & Hs & Hp).
  apply (wf_worker_assigned _ _ _ _ _ (Hwf _ _ Hl) Hs).
  destruct (w_pc w); lia.
Qed.

(** The store of one pixel. *)
Lemma trace_ok_store c tr s t0 w j0 i0 col g :
  state_ok c s -> trace_ok world c tr s ->
  threads s !! t0 = Some w ->
  w_pc w = AtPixel j0 i0 ->
  i0 < image_width c ->
  render_pixel c world i0 j0 (w_gen w) = Some (col, g) ->
  0 <= j0 * image_width c + i0 < Z.of_nat (length (image_buffer s)) ->
  trace_ok world c (tr ++ [EvStore t0 j0 i0 (j0 * image_width c + i0) col])
    (mk_state (st_cam s) (st_main s)
       (<[t0 := mk_worker (w_start w) (w_end w) (AtPixel j0 (i0 + 1)) g]> (threads s))
       (<[Z.to_nat (j0 * image_width c + i0) := col]> (image_buffer s))
       (scanlines_remaining s) (cout s) (clog s)).
Proof.
  intros Hok (HA & HB & HC & HD) Ht Hpc Hi0 Hpx Hidx.
  pose proof Hok as (Hcam & HW & HH & HWH & Hbuf & Hwf & _).
  destruct (Hwf _ _ Ht) as (Hs & He & Hp). rewrite Hpc in Hp.
  set (w' := mk_worker (w_start w) (w_end w) (AtPixel j0 (i0 + 1)) g).
  assert (Hown : assigned (image_height c) num_threads (Z.of_nat t0) j0).
  { apply (wf_worker_assigned _ _ _ _ _ (Hwf _ _ Ht)); [lia|]. rewrite Hpc. lia. }
  assert (Hmono : forall j i, stored (image_width c) w j i ->
                              stored (image_width c) w' j i).
  { intros j i (Hi & Hj & Hc). unfold stored, w'. cbn [w_start w_pc].
    rewrite Hpc in Hc. split_and!; try lia. }
  assert (Hnot : ~ stored (image_width c) w j0 i0).
  { intros (_ & _ & Hc). rewrite Hpc in Hc. lia. }
  unfold trace_ok. cbn [threads image_buffer scanlines_remaining].
  rewrite total_decrements_snoc.
  split_and!.
  - lia.
  - intros t j. rewrite count_decrements_snoc, HB, Nat.add_0_r.
    destruct (decide (t = t0)) as [->|Hne].
    + rewrite Ht, (lookup_insert_same _ _ _ _ Ht).
      repeat case_decide; unfold entered, cursor, w' in *; cbn [w_start w_pc] in *;
        rewrite ?Hpc in *; lia.
    + rewrite list_lookup_insert_ne by congruence. reflexivity.
  - intros t j i index col1 Hin. apply in_app_or in Hin as [Hin|[Heq|[]]].
    + destruct (HC _ _ _ _ _ Hin) as (Hidx1 & Hpx1 & Hb & w1 & Hl & Hst).
      split_and!; try assumption.
      * rewrite list_lookup_insert_ne; [exact Hb|].
        intros Heq. apply Hnot.
        pose proof Hst as (Hi & Hj & _).
        assert (0 <= w_start w1).
        { destruct (wf_worker_cursor _ _ _ _ HH
                      (proj2 (threads_index_range _ _ _ _ Hok Hl)) (Hwf _ _ Hl)) as (_ & ? & _).
          assumption. }
        assert (index = j0 * image_width c + i0) by nia.
        destruct (index_injective (image_width c) j i j0 i0) as [-> ->]; [lia..|].
        destruct (row_owner_unique c s t w1 t0 w j0 Hok Hl Ht) as [_ ->];
          [eapply stored_assigned; eassumption|assumption|].
        exact Hst.
      * destruct (decide (t = t0)) as [->|Hne].
        -- exists w'. split; [eapply lookup_insert_same; eassumption|].
           apply Hmono. congruence.
        -- exists w1. split; [|assumption].
           rewrite list_lookup_insert_ne by congruence. exact Hl.
    + injection Heq as <- <- <- <- <-. split_and!.
      * reflexivity.
      * eauto.
      * apply list_lookup_insert_eq. lia.
      * exists w'. split; [eapply lookup_insert_same; eassumption|].
        unfold stored, w'. cbn [w_start w_pc]. split_and!; lia.
  - intros t w1 j i Hl Hst.
    destruct (lookup_insert_worker _ _ _ _ _ _ Ht Hl) as [(-> & ->)|(Hne & Hl')].
    + destruct (decide (j = j0 /\ i = i0)) as [[-> ->]|Hne].
      * exists col. apply in_or_app. right. left. reflexivity.
      * assert (Hold : stored (image_width c) w j i).
        { destruct Hst as (Hi & Hj & Hc). unfold w' in *. cbn [w_start w_pc] in *.
          unfold stored. rewrite Hpc. split_and!; lia. }
        destruct (HD _ _ _ _ Ht Hold) as [col1 Hin].
        exists col1. apply in_or_app. left. exact Hin.
    + destruct (HD _ _ _ _ Hl' Hst) as [col1 Hin].
      exists col1. apply in_or_app. left. exact Hin.
Qed.

Lemma trace_ok_step c tr s ev s' :
  state_ok c s -> trace_ok world c tr s -> step world s ev s' ->
  trace_ok world c (tr ++ [ev]) s'.
Proof.
  intros Hok Htr Hstep.
  pose proof Hok as (Hcam & HW & HH & HWH & Hbuf & Hwf & Hrem & Hmain).
  destruct Hstep as [s c1 Hm Hi Hr | s t g Hm Ht st en | s t Hm Ht | s k w Hm Hk Hw
                    | s k Hm Hk | s k pixel out Hm Hk Hout | s k Hm Hk
                    | s t w j Ht Hpc Hj rem | s t w j Ht Hpc Hj
                    | s t w j i col g Ht Hpc Hi Hpx idx Hidx | s t w j i Ht Hpc Hi].
  - rewrite Hm in Hmain. contradiction.
  - apply trace_ok_spawn; [assumption|reflexivity].
  - apply (trace_ok_quiet c tr s); [assumption|exact I|reflexivity..].
  - apply (trace_ok_quiet c tr s); [assumption|exact I|reflexivity..].
  - apply (trace_ok_quiet c tr s); [assumption|exact I|reflexivity..].
  - apply (trace_ok_quiet c tr s); [assumption|exact I|reflexivity..].
  - apply (trace_ok_quiet c tr s); [assumption|exact I|reflexivity..].
  - destruct (Hwf _ _ Ht) as (Hs & He & Hp). rewrite Hpc in Hp.
    eapply (trace_ok_worker c tr s _ _ t w (set_pc w (AtPixel j 0)) Hok Htr Ht);
      [reflexivity|reflexivity|reflexivity| |].
    + intros j1 i1. unfold stored, set_pc. cbn [w_start w_pc]. rewrite Hpc. intuition lia.
    + left. exists j. unfold cursor, set_pc. cbn [w_pc scanlines_remaining]. rewrite Hpc.
      subst rem. split_and!; try reflexivity; lia.
  - destruct (Hwf _ _ Ht) as (Hs & He & Hp). rewrite Hpc in Hp.
    eapply (trace_ok_worker c tr s _ _ t w (set_pc w Finished) Hok Htr Ht);
      [reflexivity|reflexivity|reflexivity| |].
    + intros j1 i1. unfold stored, set_pc. cbn [w_start w_pc w_end]. rewrite Hpc.
      intuition lia.
    + right. unfold cursor, set_pc, set_worker. cbn [w_pc w_end scanlines_remaining].
      rewrite Hpc. split_and!; [exact I|lia|reflexivity].
  - subst idx. rewrite Hcam in *. apply trace_ok_store; assumption.
  - destruct (Hwf _ _ Ht) as (Hs & He & Hp). rewrite Hpc in Hp. rewrite Hcam in Hi.
    eapply (trace_ok_worker c tr s _ _ t w (set_pc w (AtRow (j + 1))) Hok Htr Ht);
      [reflexivity|reflexivity|reflexivity| |].
    + intros j1 i1. unfold stored, set_pc. cbn [w_start w_pc]. rewrite Hpc. intuition lia.
    + right. unfold cursor, set_pc, set_worker. cbn [w_pc scanlines_remaining].
      rewrite Hpc. split_and!; [exact I|lia|reflexivity].
Qed.

Lemma reachable_trace_ok c0 c tr s :
  reachable world c0 tr s -> initialize c0 = Some c -> st_main s <> Start ->
  trace_ok world c tr s.
Proof.
  intros Hr Hi. revert tr s Hr.
  apply (reachable_ind_ok c0 c (trace_ok world c) Hi).
  - intros s1 Hstep Hok.
    destruct (step_begin_ok _ _ _ Hstep) as (_ & c' & Hi' & _ & Hthr & _ & Hrem & _).
    assert (c' = c) as -> by congruence.
    unfold trace_ok. rewrite Hthr, Hrem. cbn [total_decrements count_decrements].
    split_and!.
    + lia.
    + intros t j. rewrite lookup_nil. reflexivity.
    + intros t j i index col [Heq|[]]. discriminate.
    + intros t w j i Hl. rewrite lookup_nil in Hl. discriminate.
  - intros tr s ev s' _ Hok Htr Hstep _. eapply trace_ok_step; eassumption.
Qed.

(** *** What the trace says about the calling thread *)

Lemma main_trace_ok_worker tr s s' ev :
  main_trace_ok tr s ->
  st_main s <> Start ->
  st_main s' = st_main s ->
  length (threads s') = length (threads s) ->
  length (image_buffer s') = length (image_buffer s) ->
  match ev with EvJoin _ | EvJoined | EvPixel _ => False | _ => True end ->
  main_trace_ok (tr ++ [ev]) s'.
Proof.
  intros Hmt Hns Hm Hlt Hlb Hev. unfold main_trace_ok in *. rewrite Hm, Hlt, Hlb.
  assert (Hp : pixel_events (tr ++ [ev]) = pixel_events tr).
  { rewrite pixel_events_snoc. destruct ev; try contradiction; apply app_nil_r. }
  assert (Hj : In EvJoined (tr ++ [ev]) <-> In EvJoined tr).
  { rewrite in_app_iff. cbn [In]. destruct ev; try contradiction; intuition discriminate. }
  assert (Hk : forall k, In (EvJoin k) (tr ++ [ev]) <-> In (EvJoin k) tr).
  { intros k. rewrite in_app_iff. cbn [In].
    destruct ev; try contradiction; intuition discriminate. }
  rewrite Hp. destruct (st_main s); [contradiction|..].
  - destruct Hmt as (H1 & H2 & H3). split_and!; [assumption|tauto|].
    intros k0. rewrite Hk. apply H3.
  - destruct Hmt as (H1 & H2 & H3 & H4). split_and!; [assumption|tauto|assumption|].
    intros k0. rewrite Hk. apply H4.
  - destruct Hmt as (H1 & H2 & H3). split_and!; [assumption|tauto|].
    intros k0. rewrite Hk. apply H3.
  - destruct Hmt as (H1 & H2 & H3). split_and!; [assumption|tauto|].
    intros k0. rewrite Hk. apply H3.
Qed.

Lemma main_trace_ok_step c tr s ev s' :
  state_ok c s -> main_trace_ok tr s -> step world s ev s' ->
  main_trace_ok (tr ++ [ev]) s'.
Proof.
  intros Hok Hmt Hstep.
  pose proof Hok as (Hcam & HW & HH & HWH & Hbuf & Hwf & Hrem & Hmain).
  assert (Hns : st_main s <> Start) by (intros Heq; rewrite Heq in Hmain; exact Hmain).
  destruct Hstep as [s c1 Hm Hi Hr | s t g Hm Ht st en | s t Hm Ht | s k w Hm Hk Hw
                    | s k Hm Hk | s k pixel out Hm Hk Hout | s k Hm Hk
                    | s t w j Ht Hpc Hj rem | s t w j Ht Hpc Hj
                    | s t w j i col g Ht Hpc Hi Hpx idx Hidx | s t w j i Ht Hpc Hi].
  - contradiction.
  - unfold main_trace_ok in *. cbn [st_main]. rewrite Hm in Hmt.
    rewrite pixel_events_snoc, app_nil_r.
    destruct Hmt as (Hp & Hj & Hk). split_and!; [assumption|..].
    + intros [Hin|[Heq|[]]]%in_app_or; [tauto|discriminate].
    + intros k [Hin|[Heq|[]]]%in_app_or; [apply (Hk k Hin)|discriminate].
  - unfold main_trace_ok in *. cbn [st_main set_main threads]. rewrite Hm in Hmt.
    rewrite pixel_events_snoc, app_nil_r.
    destruct Hmt as (Hp & Hj & Hk). split_and!; [assumption|..].
    + intros [Hin|[Heq|[]]]%in_app_or; [tauto|discriminate].
    + lia.
    + intros k'. split; [|lia].
      intros [Hin|[Heq|[]]]%in_app_or; [destruct (Hk k' Hin)|discriminate].
  - unfold main_trace_ok in *. cbn [st_main set_main threads]. rewrite Hm in Hmt.
    rewrite pixel_events_snoc, app_nil_r.
    destruct Hmt as (Hp & Hj & Hle & Hk'). apply lookup_lt_Some in Hk.
    split_and!; [assumption|..].
    + intros [Hin|[Heq|[]]]%in_app_or; [tauto|discriminate].
    + lia.
    + intros k'. rewrite in_app_iff, Hk'. cbn [In]. split.
      * intros [Hlt|[[= <-]|[]]]; lia.
      * intros Hlt. destruct (decide (k' = k)) as [->|]; [right; left; reflexivity|left; lia].
  - unfold main_trace_ok in *. cbn [st_main threads]. rewrite Hm in Hmt, Hmain.
    rewrite pixel_events_snoc, app_nil_r.
    destruct Hmt as (Hp & Hj & Hle & Hk'). split_and!.
    + assumption.
    + apply in_or_app. right. left. reflexivity.
    + intros k'. rewrite in_app_iff, Hk'. cbn [In]. split.
      * intros [Hlt|[Heq|[]]]; [lia|discriminate].
      * intros Hlt. left. lia.
  - unfold main_trace_ok in *. cbn [st_main threads]. rewrite Hm in Hmt.
    rewrite pixel_events_snoc.
    destruct Hmt as (Hp & Hj & Hk'). split_and!.
    + rewrite Hp. symmetry. apply seq_S.
    + apply in_or_app. left. assumption.
    + intros k'. rewrite in_app_iff, Hk'. cbn [In]. split; [|tauto].
      intros [Hlt|[Heq|[]]]; [assumption|discriminate].
  - unfold main_trace_ok in *. cbn [st_main set_main threads image_buffer].
    rewrite Hm in Hmt, Hmain. rewrite pixel_events_snoc, app_nil_r.
    destruct Hmt as (Hp & Hj & Hk'). destruct Hmain as (_ & _ & Hle & _).
    split_and!.
    + rewrite Hp. f_equal. lia.
    + apply in_or_app. left. assumption.
    + intros k'. rewrite in_app_iff, Hk'. cbn [In]. split; [|tauto].
      intros [Hlt|[Heq|[]]]; [assumption|discriminate].
  - apply (main_trace_ok_worker tr s); try assumption; try reflexivity; try exact I.
    cbn [threads]. apply length_insert.
  - apply (main_trace_ok_worker tr s); try assumption; try reflexivity; try exact I.
    cbn [threads set_worker]. apply length_insert.
  - apply (main_trace_ok_worker tr s); try assumption; try reflexivity; try exact I;
      cbn [threads image_buffer]; apply length_insert.
  - apply (main_trace_ok_worker tr s); try assumption; try reflexivity; try exact I.
    cbn [threads set_worker]. apply length_insert.
Qed.

Lemma reachable_main_trace_ok c0 tr s :
  reachable world c0 tr s -> main_trace_ok tr s.
Proof.
  intros Hr. pose proof Hr as Hr'. unfold reachable in Hr.
  remember (initial c0) as s0 eqn:Hs0.
  induction Hr as [s|s tr s1 ev s2 Hexec IH Hst]; [subst s; reflexivity|].
  subst s. specialize (IH eq_refl Hexec).
  destruct (reachable_cases c0 tr s1 Hexec) as [[-> ->]|(c & tr' & Hi & -> & Hok)].
  - destruct (step_begin_ok _ _ _ Hst) as (-> & c & _ & _ & _ & Hm & _).
    unfold main_trace_ok. rewrite Hm. cbn [app pixel_events In].
    split_and!; [reflexivity|intros [|[]]; discriminate|intros k [|[]]; discriminate].
  - eapply main_trace_ok_step; eassumption.
Qed.

(** *** The pixels of a render of depth zero *)

Lemma sample_loop_black n c i j g :
  max_depth c <= 0 -> exists g', sample_loop n c world i j black g = Some (black, g').
Proof.
  intros Hd. revert g. induction n as [|n IH]; intros g; cbn [sample_loop]; [eauto|].
  destruct (get_ray c i j g) as [r g1]. rewrite (ray_color_floor world r _ g1 Hd).
  change (vadd black black) with black. apply IH.
Qed.

Lemma render_pixel_black c0 c i j g :
  initialize c0 = Some c ->
  max_depth c0 <= 0 ->
  1 <= samples_per_pixel c0 <= INT_MAX ->
  exists g', render_pixel c world i j g = Some (black, g').
Proof.
  intros Hi Hd Hspp.
  destruct (initialize_spec _ _ Hi) as (_ & _ & Hmd & _ & _ & Hscale & _).
  unfold render_pixel.
  destruct (sample_loop_black (Z.to_nat (samples_per_pixel c)) c i j g ltac:(lia)) as [g' ->].
  exists g'. rewrite Hscale. unfold vscale, black. cbn [x y z].
  rewrite (reciprocal_times_zero _ Hspp). reflexivity.
Qed.

(** *** The lines written *)

Lemma write_color_line out pixel out' :
  write_color out pixel = Some out' ->
  exists r g b, out' = out ++ [PixelLine r g b] /\
                write_color [] pixel = Some [PixelLine r g b].
Proof.
  unfold write_color.
  destruct (channel_byte (x pixel)) as [r|]; [|discriminate].
  destruct (channel_byte (y pixel)) as [g|]; [|discriminate].
  destruct (channel_byte (z pixel)) as [b|]; [|discriminate].
  intros [= <-]. exists r, g, b. split; reflexivity.
Qed.

(** The output of [write_all] is the output so far followed by one line
    per pixel, in the order of the pixels. *)
Lemma write_all_lines pixels : forall out out',
  write_all out pixels = Some out' ->
  length out' = (length out + length pixels)%nat /\
  (forall k, (k < length out)%nat -> out' !! k = out !! k) /\
  (forall k pixel, pixels !! k = Some pixel ->
     exists r g b, write_color [] pixel = Some [PixelLine r g b] /\
                   out' !! (length out + k)%nat = Some (PixelLine r g b)).
Proof.
  induction pixels as [|p pixels IH]; intros out out' Hw; cbn [write_all] in Hw.
  - injection Hw as <-. split_and!; [cbn; lia|reflexivity|].
    intros k pixel Hk. rewrite lookup_nil in Hk. discriminate.
  - destruct (write_color out p) as [out1|] eqn:Hp; [|discriminate].
    destruct (write_color_line _ _ _ Hp) as (r & g & b & -> & Hline).
    destruct (IH _ _ Hw) as (Hlen & Hold & Hnew).
    rewrite length_app in Hlen, Hold, Hnew. cbn [length] in *.
    split_and!.
    + lia.
    + intros k Hk. rewrite Hold by lia. apply lookup_app_l. exact Hk.
    + intros [|k] pixel Hk.
      * injection Hk as <-. exists r, g, b. split; [exact Hline|].
        rewrite Nat.add_0_r, Hold by lia.
        rewrite lookup_app_r by lia. rewrite Nat.sub_diag. reflexivity.
      * destruct (Hnew k pixel Hk) as (r' & g' & b' & Hl & Ho).
        exists r', g', b'. split; [exact Hl|].
        rewrite <- Ho. f_equal. lia.
Qed.

(** *** The steps behind the events *)

Lemma step_decrement_inv s t j remaining s' :
  step world s (EvDecrement t j remaining) s' ->
  exists w, threads s !! t = Some w /\ w_pc w = AtRow j /\ j < w_end w /\
            remaining = scanlines_remaining s - 1.
Proof.
  intros Hstep. inversion Hstep; subst. eexists. split_and!; try eassumption. reflexivity.
Qed.

Lemma step_store_inv s t j i index col s' :
  step world s (EvStore t j i index col) s' ->
  exists w g, threads s !! t = Some w /\ w_pc w = AtPixel j i /\
              i < image_width (st_cam s) /\
              render_pixel (st_cam s) world i j (w_gen w) = Some (col, g) /\
              index = j * image_width (st_cam s) + i.
Proof.
  intros Hstep. inversion Hstep; subst. eexists _, _. split_and!; try eassumption. reflexivity.
Qed.

Lemma step_pixel_inv s k s' :
  step world s (EvPixel k) s' ->
  st_main s = Writing k /\
  exists pixel, image_buffer s !! k = Some pixel /\ write_color (cout s) pixel = Some (cout s').
Proof.
  intros Hstep. inversion Hstep; subst. split; [assumption|].
  eexists. split; eassumption.
Qed.

Lemma reachable_worker c0 tr s t w :
  reachable world c0 tr s -> threads s !! t = Some w ->
  exists c, initialize c0 = Some c /\ state_ok c s /\ trace_ok world c tr s.
Proof.
  intros Hr Hl. destruct (reachable_cases _ _ _ Hr) as [[-> ->]|(c & tr' & Hi & Htr & Hok)].
  - cbn [initial threads] in Hl. rewrite lookup_nil in Hl. discriminate.
  - exists c. split_and!; [assumption..|].
    apply (reachable_trace_ok c0); [assumption..|].
    destruct Hok as (_ & _ & _ & _ & _ & _ & _ & Hmain).
    intros Heq. rewrite Heq in Hmain. exact Hmain.
Qed.

Lemma threads_length_le c s :
  state_ok c s -> Z.of_nat (length (threads s)) <= num_threads.
Proof.
  intros (_ & _ & _ & _ & _ & _ & _ & Hmain). pose proof num_threads_range as HT.
  destruct (st_main s); [contradiction|..]; destruct Hmain as (H1 & H2 & _); lia.
Qed.

Lemma remaining_bounds c s :
  state_ok c s -> 0 <= scanlines_remaining s <= image_height c.
Proof.
  intros Hok. pose proof (threads_length_le _ _ Hok) as Hlen.
  pose proof Hok as (_ & _ & HH & _ & _ & Hwf & Hrem & _).
  pose proof num_threads_range as HT.
  destruct (entered_rows_bound _ _ _ HH Hlen Hwf) as [H0 H1].
  destruct (Z.ltb_spec (Z.of_nat (length (threads s))) num_threads) as [Hlt|Hge].
  - pose proof (range_bounds _ _ HH HT (Z.of_nat (length (threads s))) ltac:(lia)). lia.
  - lia.
Qed.

Lemma remaining_step c s ev s' :
  state_ok c s -> step world s ev s' ->
  scanlines_remaining s' = scanlines_remaining s \/
  (exists t j, ev = EvDecrement t j (scanlines_remaining s') /\
               scanlines_remaining s' = scanlines_remaining s - 1).
Proof.
  intros (_ & _ & _ & _ & _ & _ & _ & Hmain) Hstep.
  destruct Hstep; cbn [scanlines_remaining set_main set_worker]; auto.
  - rewrite H in Hmain. contradiction.
  - right. eauto.
Qed.

(** An entered row is a row of the worker's range. *)
Lemma entered_assigned c s t w j :
  state_ok c s -> threads s !! t = Some w -> entered w j ->
  assigned (image_height c) num_threads (Z.of_nat t) j.
Proof.
  intros Hok Hl Hen. pose proof (threads_index_range _ _ _ _ Hok Hl) as Ht.
  destruct Hok as (_ & _ & HH & _ & _ & Hwf & _).
  pose proof (wf_worker_cursor _ _ _ _ HH (proj2 Ht) (Hwf _ _ Hl)) as (Hc & _).
  destruct (Hwf _ _ Hl) as (Hs & He & _). unfold assigned, entered in *.
  rewrite <- Hs, <- He. lia.
Qed.

Lemma exec_cons s ev s1 tr s2 :
  step world s ev s1 -> exec world s1 tr s2 -> exec world s (ev :: tr) s2.
Proof.
  intros Hstep Hexec. change (ev :: tr) with ([ev] ++ tr).
  eapply exec_app; [|exact Hexec].
  change [ev] with ([] ++ [ev]). eapply exec_snoc; [constructor|exact Hstep].
Qed.

End Render.

(** *** Once the calling thread writes pixel lines *)

(** From a state in which every worker has finished and the calling thread
    is at the output loop, the only steps are the writes of pixel lines and
    the return: the workers and the buffer do not change any more. *)
Lemma writing_frozen `{E : Environment} (world : hittable) (s : state) (tr : list event)
  (s' : state) :
  exec world s tr s' ->
  all_finished (threads s) ->
  (exists k, st_main s = Writing k) \/ st_main s = Returned ->
  threads s' = threads s /\ image_buffer s' = image_buffer s /\
  ((exists k, st_main s' = Writing k) \/ st_main s' = Returned) /\
  forall ev, In ev tr -> (exists k, ev = EvPixel k) \/ ev = EvReturn.
Proof.
  intros Hexec. induction Hexec as [s|s tr s1 ev s2 Hexec IH Hstep]; intros Hfin Hm.
  - split_and!; [reflexivity|reflexivity|exact Hm|intros ev []].
  - destruct (IH Hfin Hm) as (Hth & Hbuf & Hm1 & Hev). rewrite <- Hth in Hfin.
    assert (Hmain : forall pc, st_main s1 = pc ->
                               (exists k, pc = Writing k) \/ pc = Returned)
      by (intros pc <-; exact Hm1).
    assert (Hw : forall t w, threads s1 !! t = Some w -> w_pc w = Finished)
      by exact Hfin.
    assert (Hin : forall ev0, (exists k, ev0 = EvPixel k) \/ ev0 = EvReturn ->
                              forall ev1, In ev1 (tr ++ [ev0]) ->
                                          (exists k, ev1 = EvPixel k) \/ ev1 = EvReturn).
    { intros ev0 H0 ev1 [Hin|[<-|[]]]%in_app_or; [apply Hev; exact Hin|exact H0]. }
    destruct Hstep as [s1 c Hs|s1 t g Hs|s1 t Hs|s1 k w Hs|s1 k Hs
                      |s1 k pixel out Hs Hl Hwc|s1 k Hs Hlen
                      |s1 t w j Hl Hpc|s1 t w j Hl Hpc
                      |s1 t w j i c g Hl Hpc|s1 t w j i Hl Hpc];
      try (destruct (Hmain _ Hs) as [[k' Hk]|Hk]; discriminate);
      try (rewrite (Hw _ _ Hl) in Hpc; discriminate).
    + cbn. split_and!; [exact Hth|exact Hbuf|left; eauto|].
      apply Hin. left. eauto.
    + cbn. split_and!; [exact Hth|exact Hbuf|right; reflexivity|].
      apply Hin. right. reflexivity.
Qed.

(** ** Runs of the model *)

(** Evaluate the state an execution continues from. *)
Ltac norm_state :=
  match goal with
  | |- exec _ ?s _ _ => let s' := eval vm_compute in s in change s with s'
  end.

(** One more step of an execution whose events are listed oldest first. *)
Ltac next_step tac := eapply exec_cons; [tac|norm_state].

Ltac at_state tac :=
  match goal with
  | |- step _ ?s _ _ => tac s
  end.

Ltac use_step H :=
  let Hstep := fresh in
  pose proof H as Hstep; cbv zeta in Hstep; eapply Hstep; clear Hstep.

Ltac not_less := let H := fresh in intros H; vm_compute in H; discriminate.

(** The render of the 16 by 9 image by one worker, up to the header. *)
Lemma header_run :
  exists c s,
    @initialize (test_env 1) pinhole_camera = Some c /\
    @reachable (test_env 1) EmptyScene pinhole_camera [EvHeader] s /\
    st_main s = Spawning 0 /\
    threads s = [] /\
    cout s = [Header 16 9].
Proof.
  eexists _, _. split; [vm_compute; reflexivity|].
  split.
  { unfold reachable. norm_state.
    next_step ltac:(eapply step_begin;
                    [reflexivity|vm_compute; reflexivity|vm_compute; split; discriminate]).
    apply exec_nil. }
  split_and!; reflexivity.
Qed.

(** The same render, up to the first decrement of the counter. *)
Lemma first_decrement_run :
  exists c s,
    @initialize (test_env 1) pinhole_camera = Some c /\
    image_width c = 16 /\ image_height c = 9 /\
    @reachable (test_env 1) EmptyScene pinhole_camera first_decrement_trace s /\
    st_main s = Joining 0 /\
    scanlines_remaining s = 8 /\
    image_buffer s = replicate 144 black.
Proof.
  eexists _, _. split; [vm_compute; reflexivity|].
  split; [reflexivity|]. split; [reflexivity|].
  split.
  { unfold reachable, first_decrement_trace. norm_state.
    next_step ltac:(eapply step_begin;
                    [reflexivity|vm_compute; reflexivity|vm_compute; split; discriminate]).
    next_step ltac:(eapply (@step_spawn (test_env 1) _ _ 0 7); reflexivity).
    next_step ltac:(eapply step_spawned; [reflexivity|not_less]).
    next_step ltac:(at_state ltac:(fun s => use_step (@step_row (test_env 1) EmptyScene s 0%nat)); reflexivity).
    apply exec_nil. }
  split_and!; reflexivity.
Qed.

(** The complete render of a 2 by 1 image of the empty scene by one worker
    whose generator starts at 7. *)
Lemma tiny_render_run :
  exists c col0 col1 g1 g2 s,
    @initialize (test_env 1) tiny_camera = Some c /\
    image_width c = 2 /\ image_height c = 1 /\
    @render_pixel (test_env 1) c EmptyScene 0 0 7 = Some (col0, g1) /\
    @render_pixel (test_env 1) c EmptyScene 1 0 g1 = Some (col1, g2) /\
    @reachable (test_env 1) EmptyScene tiny_camera
      [EvHeader; EvSpawn 0; EvSpawned; EvDecrement 0 0 0;
       EvStore 0 0 0 0 col0; EvStore 0 0 1 1 col1; EvRowEnd 0 0; EvExit 0;
       EvJoin 0; EvJoined; EvPixel 0; EvPixel 1; EvReturn] s /\
    st_main s = Returned /\
    image_buffer s = [col0; col1] /\
    scanlines_remaining s = 0.
Proof.
  eexists _, _, _, _, _, _. split; [vm_compute; reflexivity|].
  split; [reflexivity|]. split; [reflexivity|].
  split; [vm_compute; reflexivity|]. split; [vm_compute; reflexivity|].
  split.
  { unfold reachable. norm_state.
    next_step ltac:(eapply step_begin;
                    [reflexivity|vm_compute; reflexivity|vm_compute; split; discriminate]).
    next_step ltac:(eapply (@step_spawn (test_env 1) _ _ 0 7); reflexivity).
    next_step ltac:(eapply step_spawned; [reflexivity|not_less]).
    next_step ltac:(at_state ltac:(fun s => use_step (@step_row (test_env 1) EmptyScene s 0%nat)); reflexivity).
    next_step ltac:(at_state ltac:(fun s => use_step (@step_pixel (test_env 1) EmptyScene s 0%nat));
                    [reflexivity|reflexivity|reflexivity|vm_compute; reflexivity
                    |vm_compute; split; [discriminate|reflexivity]]).
    next_step ltac:(at_state ltac:(fun s => use_step (@step_pixel (test_env 1) EmptyScene s 0%nat));
                    [reflexivity|reflexivity|reflexivity|vm_compute; reflexivity
                    |vm_compute; split; [discriminate|reflexivity]]).
    next_step ltac:(eapply (step_row_end _ _ 0%nat); [reflexivity|reflexivity|not_less]).
    next_step ltac:(eapply (step_exit _ _ 0%nat); [reflexivity|reflexivity|not_less]).
    next_step ltac:(eapply (step_join _ _ 0%nat); reflexivity).
    next_step ltac:(eapply step_joined; [reflexivity|vm_compute; lia]).
    next_step ltac:(eapply step_write; [reflexivity|reflexivity|vm_compute; reflexivity]).
    next_step ltac:(eapply step_write; [reflexivity|reflexivity|vm_compute; reflexivity]).
    next_step ltac:(eapply step_return; [reflexivity|vm_compute; lia]).
    apply exec_nil. }
  split_and!; reflexivity.
Qed.

(** ** The render: the counter, the output and the buffer *)

(** C7 (as amended).  In every state of a render, after [initialize]:
    the counter of remaining scanlines is the row count minus the number of
    decrements made so far, it lies between 0 and the row count, and no step
    increases it; a worker decrements it at most once for a row, only for a
    row of its own range, and it is the same worker that stores the pixels
    of the row; when [render] returns, every row has been decremented for
    exactly once; and the decrement for a row comes before every store of a
    pixel of that row, not after. *)
Theorem scanline_counter `{E : Environment} (world : hittable) (c0 c : camera)
  (tr : list event) (s : state) :
  0 <= hardware_concurrency <= UINT_MAX ->
  initialize c0 = Some c ->
  reachable world c0 tr s ->
  st_main s <> Start ->
  scanlines_remaining s = image_height c - Z.of_nat (total_decrements tr) /\
  0 <= scanlines_remaining s <= image_height c /\
  (forall ev s', step world s ev s' -> scanlines_remaining s' <= scanlines_remaining s) /\
  (forall t j, (count_decrements t j tr <= 1)%nat) /\
  (forall t j remaining,
     In (EvDecrement t j remaining) tr ->
     assigned (image_height c) num_threads (Z.of_nat t) j /\
     forall t' i index col, In (EvStore t' j i index col) tr -> t' = t) /\
  (st_main s = Returned ->
   forall j, 0 <= j < image_height c ->
     exists t, count_decrements t j tr = 1%nat /\
               forall t', t' <> t -> count_decrements t' j tr = 0%nat) /\
  (forall tr1 tr2 t j remaining,
     tr = tr1 ++ EvDecrement t j remaining :: tr2 ->
     forall t' i index col, ~ In (EvStore t' j i index col) tr1) /\
  (forall tr1 tr2 t j i index col,
     tr = tr1 ++ EvStore t j i index col :: tr2 ->
     exists remaining, In (EvDecrement t j remaining) tr1).
Proof.
  intros Hhw Hi Hr Hm.
  pose proof (reachable_ok world Hhw _ _ _ _ Hr Hi Hm) as Hok.
  pose proof (reachable_trace_ok world Hhw _ _ _ _ Hr Hi Hm) as Htr.
  pose proof Htr as (HA & HB & HC & HD).
  pose proof Hok as (Hcam & HW & HH & HWH & Hbuf & Hwf & Hrem & Hmain).
  pose proof (num_threads_range Hhw) as HT.
  assert (Hown : forall t j remaining,
             In (EvDecrement t j remaining) tr ->
             assigned (image_height c) num_threads (Z.of_nat t) j /\
             exists w, threads s !! t = Some w).
  { intros t j remaining Hin. apply in_count_decrements in Hin. rewrite HB in Hin.
    destruct (threads s !! t) as [w|] eqn:Hl; [|lia].
    destruct (decide (entered w j)) as [Hen|]; [|lia].
    split; [|eauto]. eapply entered_assigned; eassumption. }
  split; [exact HA|].
  split; [apply (remaining_bounds Hhw); assumption|].
  split.
  { intros ev s' Hstep.
    destruct (remaining_step world c s ev s' Hok Hstep) as [->|(t & j & _ & ->)]; lia. }
  split.
  { intros t j. rewrite HB. destruct (threads s !! t); [case_decide|]; lia. }
  split.
  { intros t j remaining Hin. destruct (Hown _ _ _ Hin) as (Ha & w & Hl).
    split; [exact Ha|].
    intros t' i index col Hin'.
    destruct (HC _ _ _ _ _ Hin') as (_ & _ & _ & w' & Hl' & Hst).
    pose proof (stored_assigned _ _ _ _ _ _ Hok Hl' Hst) as Ha'.
    apply (row_owner_unique Hhw c s t' w' t w j Hok Hl' Hl Ha' Ha). }
  split.
  { intros Hret j Hj. rewrite Hret in Hmain. destruct Hmain as (Hlen & Hfin & _).
    pose proof (owner_range _ _ HH HT j Hj) as Hto.
    pose proof (owner_assigned _ _ HH HT j Hj) as Hao.
    set (t := Z.to_nat (owner (image_height c) num_threads j)).
    assert (Hzt : Z.of_nat t = owner (image_height c) num_threads j)
      by (unfold t; lia).
    destruct (lookup_lt_is_Some_2 (threads s) t ltac:(lia)) as [w Hl].
    exists t. split.
    - rewrite HB, Hl. destruct (decide (entered w j)) as [|Hne]; [reflexivity|].
      exfalso. apply Hne. destruct (Hwf _ _ Hl) as (Hs & He & _).
      unfold entered, cursor. rewrite (Hfin _ _ Hl), Hs, He, Hzt. exact Hao.
    - intros t' Hne. destruct (count_decrements t' j tr) as [|n] eqn:Hc; [reflexivity|].
      exfalso. apply Hne.
      destruct (count_decrements_in t' j tr ltac:(lia)) as [remaining Hin].
      destruct (Hown _ _ _ Hin) as (Ha & w' & Hl').
      pose proof (threads_index_range Hhw _ _ _ _ Hok Hl') as Ht'.
      apply Nat2Z.inj. rewrite Hzt. eapply assigned_owner; eassumption. }
  split.
  { intros tr1 tr2 t j remaining Heq t' i index col Hin.
    destruct (exec_split world _ _ _ Hr _ _ _ Heq) as (s1 & s2 & Hr1 & Hstep & _).
    destruct (step_decrement_inv world _ _ _ _ _ Hstep) as (w & Hl & Hpc & Hj & _).
    destruct (reachable_worker world Hhw _ _ _ _ _ Hr1 Hl) as (c1 & Hi1 & Hok1 & Htr1).
    assert (c1 = c) as -> by congruence.
    destruct Htr1 as (_ & _ & HC1 & _).
    destruct (HC1 _ _ _ _ _ Hin) as (_ & _ & _ & w' & Hl' & Hst).
    pose proof (stored_assigned _ _ _ _ _ _ Hok1 Hl' Hst) as Ha'.
    assert (Ha : assigned (image_height c) num_threads (Z.of_nat t) j).
    { destruct Hok1 as (_ & _ & _ & _ & _ & Hwf1 & _).
      destruct (Hwf1 _ _ Hl) as (Hs & He & Hp). rewrite Hpc in Hp.
      unfold assigned. rewrite <- Hs, <- He. lia. }
    destruct (row_owner_unique Hhw c s1 t' w' t w j Hok1 Hl' Hl Ha' Ha) as [-> ->].
    destruct Hst as (_ & _ & Hp). rewrite Hpc in Hp. lia. }
  intros tr1 tr2 t j i index col Heq.
  destruct (exec_split world _ _ _ Hr _ _ _ Heq) as (s1 & s2 & Hr1 & Hstep & _).
  destruct (step_store_inv world _ _ _ _ _ _ _ Hstep) as (w & g & Hl & Hpc & _).
  destruct (reachable_worker world Hhw _ _ _ _ _ Hr1 Hl) as (c1 & Hi1 & Hok1 & Htr1).
  assert (c1 = c) as -> by congruence.
  destruct Htr1 as (_ & HB1 & _).
  apply count_decrements_in. rewrite HB1, Hl.
  destruct (decide (entered w j)) as [|Hne]; [lia|].
  exfalso. apply Hne. unfold entered, cursor. rewrite Hpc.
  destruct Hok1 as (_ & _ & _ & _ & _ & Hwf1 & _).
  destruct (Hwf1 _ _ Hl) as (_ & _ & Hp). rewrite Hpc in Hp. lia.
Qed.

(** The complete render of the 2 by 1 image: the counter starts at 1, the
    one decrement brings it to 0, and it comes before the two stores. *)
Lemma scanline_counter_witness :
  exists c tr s,
    @initialize (test_env 1) tiny_camera = Some c /\
    @reachable (test_env 1) EmptyScene tiny_camera tr s /\
    st_main s = Returned /\
    image_height c = 1 /\
    scanlines_remaining s = 0 /\
    total_decrements tr = 1%nat /\
    (forall j, 0 <= j < image_height c ->
       exists t, count_decrements t j tr = 1%nat /\
                 forall t', t' <> t -> count_decrements t' j tr = 0%nat).
Proof.
  destruct tiny_render_run
    as (c & col0 & col1 & g1 & g2 & s & Hi & HW & HH & _ & _ & Hr & Hm & _ & Hrem).
  match type of Hr with reachable _ _ ?tr _ => exists c, tr, s end.
  assert (Hhw : 0 <= @hardware_concurrency (test_env 1) <= UINT_MAX)
    by (vm_compute; split; discriminate).
  assert (Hstart : st_main s <> Start) by (rewrite Hm; discriminate).
  destruct (@scanline_counter (test_env 1) EmptyScene tiny_camera c _ s Hhw Hi Hr Hstart)
    as (_ & _ & _ & _ & _ & Hall & _).
  split_and!;
    [exact Hi|exact Hr|exact Hm|exact HH|exact Hrem|reflexivity|exact (Hall Hm)].
Defined.

(** C7, as stated, fails: in the render of the 16 by 9 image the counter
    goes from 9 to 8 when the worker enters row 0, and no pixel of row 0
    has been stored by then; the buffer is still all black. *)
Lemma decrement_before_row :
  exists c s,
    @initialize (test_env 1) pinhole_camera = Some c /\
    image_width c = 16 /\
    @reachable (test_env 1) EmptyScene pinhole_camera first_decrement_trace s /\
    scanlines_remaining s = 8 /\
    image_buffer s = replicate 144 black /\
    ~ decrement_after_row (image_width c) first_decrement_trace.
Proof.
  destruct first_decrement_run as (c & s & Hi & HW & HH & Hr & Hm & Hrem & Hbuf).
  exists c, s. split_and!; try assumption.
  intros Hafter. rewrite HW in Hafter.
  destruct (Hafter [EvHeader; EvSpawn 0; EvSpawned] [] 0%nat 0 8 eq_refl 0 ltac:(lia))
    as (t' & index & col & Hin).
  cbn in Hin. intuition discriminate.
Qed.

(** *** The image stream *)

Lemma exec_nil_inv `{E : Environment} (world : hittable) (s s' : state) :
  exec world s [] s' -> s' = s.
Proof.
  intros Hexec. remember [] as tr eqn:Htr.
  destruct Hexec as [|s tr s1 ev s2 _ _]; [reflexivity|].
  destruct tr; discriminate.
Qed.

(** A step other than the first leaves the buffer alone, or is a store. *)
Lemma buffer_step `{E : Environment} (world : hittable) (c : camera) (s : state)
  (ev : event) (s' : state) :
  state_ok c s -> step world s ev s' ->
  image_buffer s' = image_buffer s \/
  exists t j i index col g g',
    ev = EvStore t j i index col /\
    render_pixel c world i j g = Some (col, g') /\
    image_buffer s' = <[Z.to_nat index := col]> (image_buffer s).
Proof.
  intros (Hcam & _ & _ & _ & _ & _ & _ & Hmain) Hstep.
  destruct Hstep; cbn [image_buffer set_main set_worker]; auto.
  - rewrite H in Hmain. contradiction.
  - right. rewrite Hcam in *. eauto 10.
Qed.

(** What [write_all] appends: one pixel line per pixel. *)
Lemma write_all_output pixels : forall out out',
  write_all out pixels = Some out' ->
  exists lines, out' = out ++ lines /\ length lines = length pixels /\
                forall l, In l lines -> exists r g b, l = PixelLine r g b.
Proof.
  induction pixels as [|pixel rest IH]; intros out out' Hw; cbn [write_all] in Hw.
  - injection Hw as <-. exists []. rewrite app_nil_r. split_and!; [reflexivity..|intros l []].
  - destruct (write_color out pixel) as [out1|] eqn:Hwc; [|discriminate].
    destruct (write_color_line _ _ _ Hwc) as (r & g & b & -> & _).
    destruct (IH _ _ Hw) as (lines & -> & Hlen & Hlines).
    exists (PixelLine r g b :: lines). rewrite <- app_assoc. split; [reflexivity|].
    split; [cbn [length]; lia|].
    intros l [<-|Hin]; [eauto|apply Hlines; exact Hin].
Qed.

(** The image stream of a state: the header, then the pixel lines written. *)
Lemma cout_lines `{E : Environment} (c : camera) (tr : list event) (s : state) :
  state_ok c s -> main_trace_ok tr s ->
  exists lines,
    cout s = Header (image_width c) (image_height c) :: lines /\
    length lines = length (pixel_events tr) /\
    (forall l, In l lines -> exists r g b, l = PixelLine r g b) /\
    (lines <> [] ->
     length (threads s) = Z.to_nat num_threads /\ all_finished (threads s) /\
     In EvJoined tr).
Proof.
  intros (_ & _ & _ & _ & _ & _ & _ & Hmain) Htr. unfold main_trace_ok in Htr.
  destruct (st_main s) as [|t|k|k|]; [contradiction|..].
  - destruct Hmain as (_ & _ & ->). destruct Htr as (-> & _).
    exists []. split_and!; [reflexivity|reflexivity|intros l []|congruence].
  - destruct Hmain as (_ & _ & ->). destruct Htr as (-> & _).
    exists []. split_and!; [reflexivity|reflexivity|intros l []|congruence].
  - destruct Hmain as (Hlen & Hfin & Hk & Hw). destruct Htr as (-> & Hj & _).
    destruct (write_all_output _ _ _ Hw) as (lines & -> & Hl & Hlines).
    exists lines. rewrite length_seq, Hl, length_take.
    split_and!; [reflexivity|lia|exact Hlines|auto].
  - destruct Hmain as (Hlen & Hfin & Hw). destruct Htr as (-> & Hj & _).
    destruct (write_all_output _ _ _ Hw) as (lines & -> & Hl & Hlines).
    exists lines. rewrite length_seq, Hl.
    split_and!; [reflexivity|reflexivity|exact Hlines|auto].
Qed.

(** C8 (as amended).  In every state of a render, after [initialize]:
    the header is written first and once, when no worker has been started
    yet; the image stream is the header followed by one line per pixel
    written so far; a pixel line is written only when all the workers have
    been started, have finished and have been joined, and from then on only
    pixel lines are written and the buffer does not change.  So it is the
    pixel lines, not the header, that wait for the workers. *)
Theorem pixel_lines_after_join `{E : Environment} (world : hittable) (c0 c : camera)
  (tr : list event) (s : state) :
  0 <= hardware_concurrency <= UINT_MAX ->
  initialize c0 = Some c ->
  reachable world c0 tr s ->
  st_main s <> Start ->
  (exists tr', tr = EvHeader :: tr' /\ ~ In EvHeader tr') /\
  (forall s1, reachable world c0 [EvHeader] s1 ->
     threads s1 = [] /\ cout s1 = [Header (image_width c) (image_height c)]) /\
  (exists lines,
     cout s = Header (image_width c) (image_height c) :: lines /\
     length lines = length (pixel_events tr) /\
     (forall l, In l lines -> exists r g b, l = PixelLine r g b) /\
     (lines <> [] ->
      length (threads s) = Z.to_nat num_threads /\ all_finished (threads s) /\
      In EvJoined tr)) /\
  (forall tr1 k tr2,
     tr = tr1 ++ EvPixel k :: tr2 ->
     In EvJoined tr1 /\
     (forall t, (t < Z.to_nat num_threads)%nat -> In (EvJoin t) tr1) /\
     (forall ev, In ev tr2 -> (exists k', ev = EvPixel k') \/ ev = EvReturn) /\
     exists s1,
       reachable world c0 tr1 s1 /\
       length (threads s1) = Z.to_nat num_threads /\
       all_finished (threads s1) /\
       threads s = threads s1 /\
       image_buffer s = image_buffer s1).
Proof.
  intros Hhw Hi Hr Hm.
  pose proof (reachable_ok world Hhw _ _ _ _ Hr Hi Hm) as Hok.
  pose proof (reachable_main_trace_ok world Hhw _ _ _ Hr) as Hmt.
  split.
  { destruct (reachable_cases world Hhw _ _ _ Hr) as [[_ ->]|(c1 & tr' & _ & -> & _)];
      [contradiction Hm; reflexivity|].
    exists tr'. split; [reflexivity|]. intros Hin.
    destruct (in_split_trace _ _ Hin) as (tr1 & tr2 & ->).
    destruct (exec_split world _ _ _ Hr (EvHeader :: tr1) EvHeader tr2 eq_refl)
      as (s1 & s2 & Hr1 & Hstep & _).
    destruct (reachable_cases world Hhw _ _ _ Hr1)
      as [[Hnil _]|(c2 & tr1' & _ & _ & Hok1)]; [discriminate|].
    destruct Hok1 as (_ & _ & _ & _ & _ & _ & _ & Hmain1).
    inversion Hstep as [s0 c' Hs0| | | | | | | | | |]; subst.
    rewrite Hs0 in Hmain1. exact Hmain1. }
  split.
  { intros s1 Hr1.
    destruct (exec_split world _ _ _ Hr1 [] EvHeader [] eq_refl)
      as (sa & sb & Ha & Hstep & Hb).
    apply exec_nil_inv in Ha, Hb. subst sa sb.
    destruct (step_begin_ok world Hhw _ _ _ Hstep)
      as (_ & c1 & Hi1 & Hok1 & Hth & Hm1 & _).
    assert (c1 = c) as -> by congruence.
    split; [exact Hth|].
    destruct Hok1 as (_ & _ & _ & _ & _ & _ & _ & Hmain1).
    rewrite Hm1 in Hmain1. apply Hmain1. }
  split; [apply cout_lines; assumption|].
  intros tr1 k tr2 Heq.
  destruct (exec_split world _ _ _ Hr _ _ _ Heq) as (s1 & s2 & Hr1 & Hstep & Hr2).
  destruct (step_pixel_inv world _ _ _ Hstep) as (Hm1 & _).
  assert (Hs1 : st_main s1 <> Start) by (rewrite Hm1; discriminate).
  pose proof (reachable_ok world Hhw _ _ _ _ Hr1 Hi Hs1) as Hok1.
  pose proof (reachable_main_trace_ok world Hhw _ _ _ Hr1) as Hmt1.
  destruct Hok1 as (_ & _ & _ & _ & _ & _ & _ & Hmain1).
  unfold main_trace_ok in Hmt1. rewrite Hm1 in Hmain1, Hmt1.
  destruct Hmain1 as (Hlen & Hfin & _). destruct Hmt1 as (_ & Hj & Hjoin).
  pose proof (exec_cons world _ _ _ _ _ Hstep Hr2) as Hrest.
  destruct (writing_frozen world _ _ _ Hrest Hfin (or_introl (ex_intro _ k Hm1)))
    as (Hth & Hbuf & _ & Hev).
  split; [exact Hj|].
  split; [intros t Ht; apply Hjoin; lia|].
  split; [intros ev Hin; apply Hev; right; exact Hin|].
  exists s1. split_and!; assumption.
Qed.

(** The complete render of the 2 by 1 image: the stream is the header and
    two pixel lines, written when the one worker has finished and has been
    joined. *)
Lemma pixel_lines_after_join_witness :
  exists c tr s,
    @initialize (test_env 1) tiny_camera = Some c /\
    @reachable (test_env 1) EmptyScene tiny_camera tr s /\
    pixel_events tr = [0; 1]%nat /\
    exists lines,
      cout s = Header (image_width c) (image_height c) :: lines /\
      length lines = 2%nat /\
      (lines <> [] ->
       length (threads s) = Z.to_nat (@num_threads (test_env 1)) /\
       all_finished (threads s) /\ In EvJoined tr).
Proof.
  destruct tiny_render_run
    as (c & col0 & col1 & g1 & g2 & s & Hi & HW & HH & _ & _ & Hr & Hm & _ & _).
  match type of Hr with reachable _ _ ?tr _ => exists c, tr, s end.
  assert (Hhw : 0 <= @hardware_concurrency (test_env 1) <= UINT_MAX)
    by (vm_compute; split; discriminate).
  assert (Hstart : st_main s <> Start) by (rewrite Hm; discriminate).
  destruct (@pixel_lines_after_join (test_env 1) EmptyScene tiny_camera c _ s
              Hhw Hi Hr Hstart)
    as (_ & _ & (lines & Hc & Hlen & _ & Hjoined) & _).
  split_and!; [exact Hi|exact Hr|reflexivity|].
  exists lines. split_and!; [exact Hc|exact Hlen|exact Hjoined].
Defined.

(** C8, as stated, fails for the header: in the render of the 16 by 9 image
    the stream holds the header after the first step, when no worker has
    been started, let alone joined. *)
Lemma header_before_workers :
  exists c s,
    @initialize (test_env 1) pinhole_camera = Some c /\
    @reachable (test_env 1) EmptyScene pinhole_camera [EvHeader] s /\
    cout s = [Header 16 9] /\
    threads s = [] /\
    ~ @output_after_join (test_env 1) [EvHeader] s.
Proof.
  destruct header_run as (c & s & Hi & Hr & Hm & Hth & Hc).
  exists c, s. split_and!; try assumption.
  intros Hafter. destruct Hafter as (Hlen & _); [rewrite Hc; discriminate|].
  rewrite Hth in Hlen. vm_compute in Hlen. discriminate.
Qed.

(** *** The buffer *)

(** C10.  In every state of a render, after [initialize]: the buffer has
    [image_width * image_height] elements; a store for pixel [(i, j)] is a
    store of the colour computed for that pixel, at index
    [j * image_width + i], inside the image, and the buffer holds that colour
    from then on; the pixel line of element [k] is written when those of
    the elements [0 .. k - 1] have been written, in that order, and when
    every worker has finished, from the buffer as it is at the end; and when
    [render] returns, every element has been written once, in the order of
    the indices, and the line of pixel [(i, j)] is line [j * image_width + i]
    after the header: what [write_color] prints for the colour stored for
    that pixel. *)
Theorem image_buffer_row_major `{E : Environment} (world : hittable) (c0 c : camera)
  (tr : list event) (s : state) :
  0 <= hardware_concurrency <= UINT_MAX ->
  initialize c0 = Some c ->
  reachable world c0 tr s ->
  st_main s <> Start ->
  length (image_buffer s) = Z.to_nat (image_width c * image_height c) /\
  (forall t j i index col,
     In (EvStore t j i index col) tr ->
     0 <= i < image_width c /\ 0 <= j < image_height c /\
     index = j * image_width c + i /\
     (exists g g', render_pixel c world i j g = Some (col, g')) /\
     image_buffer s !! Z.to_nat index = Some col) /\
  (forall tr1 k tr2,
     tr = tr1 ++ EvPixel k :: tr2 ->
     pixel_events tr1 = seq 0 k /\
     (k < length (image_buffer s))%nat /\
     exists s1 s2 pixel,
       reachable world c0 tr1 s1 /\ step world s1 (EvPixel k) s2 /\
       all_finished (threads s1) /\
       image_buffer s1 = image_buffer s /\
       image_buffer s !! k = Some pixel /\
       write_color (cout s1) pixel = Some (cout s2)) /\
  (st_main s = Returned ->
   pixel_events tr = seq 0 (Z.to_nat (image_width c * image_height c)) /\
   write_all [Header (image_width c) (image_height c)] (image_buffer s) = Some (cout s) /\
   length (cout s) = S (Z.to_nat (image_width c * image_height c)) /\
   forall i j,
     0 <= i < image_width c -> 0 <= j < image_height c ->
     exists t col r g b,
       In (EvStore t j i (j * image_width c + i) col) tr /\
       image_buffer s !! Z.to_nat (j * image_width c + i) = Some col /\
       write_color [] col = Some [PixelLine r g b] /\
       cout s !! S (Z.to_nat (j * image_width c + i)) = Some (PixelLine r g b)).
Proof.
  intros Hhw Hi Hr Hm.
  pose proof (reachable_ok world Hhw _ _ _ _ Hr Hi Hm) as Hok.
  pose proof (reachable_trace_ok world Hhw _ _ _ _ Hr Hi Hm) as (_ & _ & HC & HD).
  pose proof (reachable_main_trace_ok world Hhw _ _ _ Hr) as Hmt.
  pose proof Hok as (Hcam & HW & HH & HWH & Hbuf & Hwf & _ & Hmain).
  pose proof (num_threads_range Hhw) as HT.
  split; [exact Hbuf|].
  split.
  { intros t j i index col Hin.
    destruct (HC _ _ _ _ _ Hin) as (Hidx & Hpix & Hl & w & Hw & Hst).
    pose proof (stored_assigned _ _ _ _ _ _ Hok Hw Hst) as Ha.
    pose proof (threads_index_range Hhw _ _ _ _ Hok Hw) as Ht.
    pose proof (assigned_in_image _ _ HH HT _ _ Ht Ha) as Hj.
    destruct Hst as (Hi' & _).
    split; [exact Hi'|]. split; [exact Hj|]. split_and!; assumption. }
  split.
  { intros tr1 k tr2 Heq.
    destruct (exec_split world _ _ _ Hr _ _ _ Heq) as (s1 & s2 & Hr1 & Hstep & Hr2).
    destruct (step_pixel_inv world _ _ _ Hstep) as (Hm1 & pixel & Hl & Hwc).
    assert (Hs1 : st_main s1 <> Start) by (rewrite Hm1; discriminate).
    pose proof (reachable_ok world Hhw _ _ _ _ Hr1 Hi Hs1) as Hok1.
    pose proof (reachable_main_trace_ok world Hhw _ _ _ Hr1) as Hmt1.
    destruct Hok1 as (_ & _ & _ & _ & _ & _ & _ & Hmain1).
    unfold main_trace_ok in Hmt1. rewrite Hm1 in Hmain1, Hmt1.
    destruct Hmain1 as (_ & Hfin & _). destruct Hmt1 as (Hpe & _).
    pose proof (exec_cons world _ _ _ _ _ Hstep Hr2) as Hrest.
    destruct (writing_frozen world _ _ _ Hrest Hfin (or_introl (ex_intro _ k Hm1)))
      as (_ & Hsame & _).
    split; [exact Hpe|].
    split; [rewrite Hsame; eapply lookup_lt_Some; exact Hl|].
    exists s1, s2, pixel. rewrite Hsame. split_and!; auto. }
  intros Hret. unfold main_trace_ok in Hmt. rewrite Hret in Hmain, Hmt.
  destruct Hmain as (Hlen & Hfin & Hw). destruct Hmt as (Hpe & _).
  destruct (write_all_lines _ _ _ Hw) as (Hlo & _ & Hlines).
  split; [rewrite Hpe, Hbuf; reflexivity|].
  split; [exact Hw|].
  split; [rewrite Hlo, Hbuf; reflexivity|].
  intros i j Hi' Hj.
  pose proof (owner_range _ _ HH HT j Hj) as Hto.
  pose proof (owner_assigned _ _ HH HT j Hj) as Hao.
  set (t := Z.to_nat (owner (image_height c) num_threads j)).
  assert (Hzt : Z.of_nat t = owner (image_height c) num_threads j)
    by (unfold t; lia).
  destruct (lookup_lt_is_Some_2 (threads s) t ltac:(lia)) as [w Hl].
  assert (Hst : stored (image_width c) w j i).
  { destruct (Hwf _ _ Hl) as (Hs & He & _). unfold stored.
    rewrite (Hfin _ _ Hl), Hs, He, Hzt. unfold assigned in Hao. lia. }
  destruct (HD _ _ _ _ Hl Hst) as (col & Hin).
  destruct (HC _ _ _ _ _ Hin) as (_ & _ & Hcol & _).
  destruct (Hlines _ _ Hcol) as (r & g & b & Hwc & Hline).
  exists t, col, r, g, b. split_and!; assumption.
Qed.

(** The complete render of the 2 by 1 image: the two colours are stored at
    the indices 0 and 1, and the lines 1 and 2 of the stream are theirs. *)
Lemma image_buffer_row_major_witness :
  exists c tr s,
    @initialize (test_env 1) tiny_camera = Some c /\
    @reachable (test_env 1) EmptyScene tiny_camera tr s /\
    st_main s = Returned /\
    length (image_buffer s) = 2%nat /\
    pixel_events tr = [0; 1]%nat /\
    length (cout s) = 3%nat /\
    forall i, 0 <= i < 2 ->
      exists t col r g b,
        In (EvStore t 0 i i col) tr /\
        image_buffer s !! Z.to_nat i = Some col /\
        write_color [] col = Some [PixelLine r g b] /\
        cout s !! S (Z.to_nat i) = Some (PixelLine r g b).
Proof.
  destruct tiny_render_run
    as (c & col0 & col1 & g1 & g2 & s & Hi & HW & HH & _ & _ & Hr & Hm & _ & _).
  match type of Hr with reachable _ _ ?tr _ => exists c, tr, s end.
  assert (Hhw : 0 <= @hardware_concurrency (test_env 1) <= UINT_MAX)
    by (vm_compute; split; discriminate).
  assert (Hstart : st_main s <> Start) by (rewrite Hm; discriminate).
  destruct (@image_buffer_row_major (test_env 1) EmptyScene tiny_camera c _ s
              Hhw Hi Hr Hstart)
    as (Hlen & _ & _ & Hret).
  destruct (Hret Hm) as (_ & _ & Hout & Hpix). rewrite HW, HH in *.
  split_and!; [exact Hi|exact Hr|exact Hm|exact Hlen|reflexivity|exact Hout|].
  intros i Hi'. apply (Hpix i 0); lia.
Defined.

(** *** A depth budget of zero *)

(** With a depth budget of zero, and at least one sample per pixel, every
    element of the buffer is black in every state of the render. *)
Lemma buffer_black `{E : Environment} (world : hittable) (c0 c : camera)
  (tr : list event) (s : state) :
  0 <= hardware_concurrency <= UINT_MAX ->
  initialize c0 = Some c ->
  max_depth c0 <= 0 ->
  1 <= samples_per_pixel c0 <= INT_MAX ->
  reachable world c0 tr s ->
  st_main s <> Start ->
  forall k pixel, image_buffer s !! k = Some pixel -> pixel = black.
Proof.
  intros Hhw Hi Hd Hspp Hr Hm. revert tr s Hr Hm.
  apply (reachable_ind_ok world Hhw c0 c
           (fun _ s => forall k pixel, image_buffer s !! k = Some pixel -> pixel = black) Hi).
  - intros s1 Hstep _ k pixel Hl.
    destruct (step_begin_ok world Hhw _ _ _ Hstep) as (_ & c1 & _ & _ & _ & _ & _ & Hbuf).
    rewrite Hbuf in Hl. apply lookup_replicate in Hl. apply Hl.
  - intros tr s ev s' _ Hok IH Hstep _ k pixel Hl.
    destruct (buffer_step world _ _ _ _ Hok Hstep)
      as [Hsame|(t & j & i & index & col & g & g' & _ & Hpix & Hins)].
    + rewrite Hsame in Hl. eapply IH; exact Hl.
    + rewrite Hins in Hl.
      destruct (render_pixel_black world c0 c i j g Hi Hd Hspp) as (g'' & Hblack).
      assert (col = black) as -> by congruence.
      apply list_lookup_insert_Some in Hl as [(_ & <- & _)|(_ & Hl)];
        [reflexivity|eapply IH; exact Hl].
Qed.

(** The lines of black pixels. *)
Lemma write_all_black pixels out out' :
  write_all out pixels = Some out' ->
  (forall k pixel, pixels !! k = Some pixel -> pixel = black) ->
  forall k l, out' !! (length out + k)%nat = Some l -> l = PixelLine 0 0 0.
Proof.
  intros Hw Hblack k l Hl.
  destruct (write_all_lines _ _ _ Hw) as (Hlen & _ & Hlines).
  assert (Hk : (k < length pixels)%nat)
    by (apply lookup_lt_Some in Hl; lia).
  destruct (lookup_lt_is_Some_2 pixels k Hk) as [pixel Hp].
  destruct (Hlines _ _ Hp) as (r & g & b & Hwc & Hline).
  rewrite (Hblack _ _ Hp) in Hwc. vm_compute in Hwc. congruence.
Qed.

(** C2.  At a depth budget of zero or less [ray_color] returns black, for
    every ray and every scene, without a hit query.  So for a camera
    whose [max_depth] is zero (or less) and whose [samples_per_pixel] is at
    least 1, the value computed for every pixel is black, whatever the
    scene; in a render every colour stored is black, every element of the
    buffer is black in every state, and every pixel line written is
    [0 0 0]. *)
Theorem black_at_depth_zero `{E : Environment} (world : hittable) (c0 c : camera) :
  initialize c0 = Some c ->
  max_depth c0 <= 0 ->
  1 <= samples_per_pixel c0 <= INT_MAX ->
  (forall r depth g, depth <= 0 -> ray_color r depth world g = Some (black, g, [])) /\
  (forall i j g, exists g', render_pixel c world i j g = Some (black, g')) /\
  (0 <= hardware_concurrency <= UINT_MAX ->
   forall tr s,
     reachable world c0 tr s -> st_main s <> Start ->
     (forall t j i index col, In (EvStore t j i index col) tr -> col = black) /\
     (forall k pixel, image_buffer s !! k = Some pixel -> pixel = black) /\
     (forall k l, cout s !! S k = Some l -> l = PixelLine 0 0 0)).
Proof.
  intros Hi Hd Hspp.
  split; [intros r depth g Hdepth; apply ray_color_floor; exact Hdepth|].
  split; [intros i j g; eapply render_pixel_black; eassumption|].
  intros Hhw tr s Hr Hm.
  pose proof (buffer_black world c0 c tr s Hhw Hi Hd Hspp Hr Hm) as Hblack.
  split.
  { intros t j i index col Hin.
    pose proof (reachable_trace_ok world Hhw _ _ _ _ Hr Hi Hm) as (_ & _ & HC & _).
    destruct (HC _ _ _ _ _ Hin) as (_ & _ & Hl & _). eapply Hblack; exact Hl. }
  split; [exact Hblack|].
  intros k l Hl.
  pose proof (reachable_ok world Hhw _ _ _ _ Hr Hi Hm)
    as (_ & _ & _ & _ & _ & _ & _ & Hmain).
  destruct (st_main s) as [|t|k0|k0|]; [contradiction|..].
  - destruct Hmain as (_ & _ & Hc). rewrite Hc in Hl. discriminate.
  - destruct Hmain as (_ & _ & Hc). rewrite Hc in Hl. discriminate.
  - destruct Hmain as (_ & _ & _ & Hw).
    eapply (write_all_black _ _ _ Hw); [|exact Hl].
    intros k' pixel [Hp _]%lookup_take_Some. eapply Hblack; exact Hp.
  - destruct Hmain as (_ & _ & Hw).
    eapply (write_all_black _ _ _ Hw); [exact Hblack|exact Hl].
Qed.

(** The camera with a depth budget of zero, in a scene that every ray hits
    and that scatters every ray: the pixels are black. *)
Lemma black_at_depth_zero_witness :
  exists c,
    @initialize (test_env 1) depth_zero_camera = Some c /\
    (forall r g, @ray_color (test_env 1) r 0 (Enclosure Scatterer) g = Some (black, g, [])) /\
    (forall i j g,
       exists g', @render_pixel (test_env 1) c (Enclosure Scatterer) i j g
                  = Some (black, g')).
Proof.
  eexists. split; [reflexivity|].
  assert (Hd : max_depth depth_zero_camera <= 0) by (vm_compute; discriminate).
  assert (Hspp : 1 <= samples_per_pixel depth_zero_camera <= INT_MAX)
    by (vm_compute; split; discriminate).
  destruct (@black_at_depth_zero (test_env 1) (Enclosure Scatterer)
              depth_zero_camera _ eq_refl Hd Hspp) as (Hray & Hpix & _).
  split; [intros r g; apply Hray; lia|exact Hpix].
Defined.

(* ===================================================================== *)
(** * Part IV: further properties of the code *)
(* ===================================================================== *)

(** ** [initialize]: the image height (camera.h, 120-121) *)

(** A quotient by zero or by a NaN is an infinity or a NaN. *)
Lemma ddiv_by_zero a b :
  is_zero b = true \/ is_nan b = true -> truncate (ddiv a b) = None.
Proof. intros [Hb|Hb]; destruct a, b; try discriminate; reflexivity. Qed.

(** The height is [int(image_width / aspect_ratio)], raised to 1 when it is
    less; [initialize] has a defined result exactly when that conversion to
    [int] is defined, and then [1 <= image_height <= INT_MAX].  The
    conversion is not defined when [aspect_ratio] is zero or a NaN,
    whatever the width: there is no default height for a ratio of zero. *)
Theorem initialize_image_height `{E : Environment} (c : camera) :
  (initialize c = None
   <-> int_of_double (ddiv (double_of_int (image_width c)) (aspect_ratio c)) = None) /\
  (forall c', initialize c = Some c' ->
     exists h0,
       int_of_double (ddiv (double_of_int (image_width c)) (aspect_ratio c)) = Some h0 /\
       image_height c' = Z.max 1 h0 /\
       1 <= image_height c' <= INT_MAX) /\
  (is_zero (aspect_ratio c) = true \/ is_nan (aspect_ratio c) = true ->
   initialize c = None).
Proof.
  split; [|split].
  - unfold initialize. destruct (int_of_double _); split; congruence.
  - intros c' Hi. pose proof (initialize_spec _ _ Hi) as (_ & _ & _ & _ & Hh & _).
    unfold initialize in Hi.
    destruct (int_of_double _) as [h0|]; [|discriminate].
    exists h0. split; [reflexivity|]. split; [|exact Hh].
    injection Hi as <-. cbn [image_height].
    destruct (Z.ltb_spec h0 1); lia.
  - intros Hr. unfold initialize, int_of_double.
    rewrite (ddiv_by_zero _ _ Hr). reflexivity.
Qed.

(** ** [initialize] run again (camera.h, 31 and 116-163) *)



(** ** The sizes of the row ranges (camera.h, 79-85) *)

(** Every worker but the last is given [H / T] rows, and the last one
    [H / T + H mod T]: up to [T - 1] rows more than the others.  With more
    workers than rows the quotient is 0, so the last worker renders the
    whole image and the others have nothing to do. *)
Theorem partition_range_sizes (H T : Z) :
  1 <= H <= INT_MAX ->
  1 <= T <= UINT_MAX ->
  (forall t, 0 <= t < T - 1 -> end_line H T t - start_line H T t = H / T) /\
  end_line H T (T - 1) - start_line H T (T - 1) = H / T + H mod T /\
  0 <= H mod T <= T - 1 /\
  (H < T ->
   (forall t, 0 <= t < T - 1 -> start_line H T t = 0 /\ end_line H T t = 0) /\
   start_line H T (T - 1) = 0 /\ end_line H T (T - 1) = H).
Proof.
  intros HH HT.
  pose proof (Z.div_mod H T ltac:(lia)) as Hdm.
  pose proof (Z.mod_pos_bound H T ltac:(lia)) as Hmod.
  split; [|split; [|split]].
  - intros t Ht. rewrite (start_line_eq H T HH HT t) by lia.
    rewrite (end_line_inner H T HH HT t) by lia. lia.
  - rewrite (start_line_eq H T HH HT (T - 1)) by lia.
    rewrite (end_line_last H T HH HT). lia.
  - lia.
  - intros Hlt. pose proof (Z.div_small H T ltac:(lia)) as Hq.
    split; [|split].
    + intros t Ht. rewrite (start_line_eq H T HH HT t) by lia.
      rewrite (end_line_inner H T HH HT t) by lia. rewrite Hq. lia.
    + rewrite (start_line_eq H T HH HT (T - 1)) by lia. rewrite Hq. lia.
    + apply (end_line_last H T HH HT).
Qed.

(** 7 rows and 3 workers: 2, 2 and 3 rows. *)
Lemma partition_range_sizes_witness :
  (forall t, 0 <= t < 3 - 1 -> end_line 7 3 t - start_line 7 3 t = 7 / 3) /\
  end_line 7 3 (3 - 1) - start_line 7 3 (3 - 1) = 7 / 3 + 7 mod 3.
Proof.
  destruct (partition_range_sizes 7 3) as (Hinner & Hlast & _).
  - vm_compute. split; discriminate.
  - vm_compute. split; discriminate.
  - split; [exact Hinner|exact Hlast].
Defined.

(** ** A pixel without samples (camera.h, 61-70 and 123) *)

Lemma double_of_int_neg p :
  Zpos (digits2_pos p) <= 52 ->
  double_of_int (Zneg p)
  = S754_finite true (Pos.iter xO p (Z.to_pos (53 - Zpos (digits2_pos p))))
                (Zpos (digits2_pos p) - 53).
Proof.
  intros Hd. unfold double_of_int, binary_normalize, binary_round, shl_align.
  rewrite fexp_eq.
  replace (Z.max (Zpos (digits2_pos p) + 0 - 53) (-1074)) with (Zpos (digits2_pos p) - 53) by lia.
  set (d := Zpos (digits2_pos p)) in *.
  assert (Hk : d - 53 - 0 = Zneg (Z.to_pos (53 - d))).
  { rewrite <- Pos2Z.opp_pos. rewrite Z2Pos.id by lia. lia. }
  rewrite Hk.
  apply binary_round_aux_canonical.
  apply bounded_spec. split; [|lia].
  rewrite digits2_pos_iter_xO. fold d. rewrite Z2Pos.id by lia. lia.
Qed.

(** The reciprocal of a negative number of 53 digits. *)
Lemma ddiv_one_negative m e :
  Zpos (digits2_pos m) = 53 -> -52 <= e <= 0 ->
  ddiv (double_of_int 1) (S754_finite true m e) = S754_zero true \/
  exists m' e', ddiv (double_of_int 1) (S754_finite true m e) = S754_finite true m' e'.
Proof.
  intros Hd He.
  change (double_of_int 1) with (S754_finite false 4503599627370496 (-52)).
  unfold ddiv, SFdiv, SFdiv_core_binary. cbn [Zdigits2 xorb]. rewrite Hd.
  change (Zpos (digits2_pos 4503599627370496)) with 53.
  rewrite fexp_eq.
  replace (Z.min (Z.max (53 + -52 - (53 + e) - 53) (-1074)) (-52 - e)) with (-105 - e) by lia.
  replace (-52 - e - (-105 - e)) with 53 by lia.
  change (Z.shiftl 4503599627370496 53) with (2 ^ 105).
  pose proof (Z_div_mod (2 ^ 105) (Zpos m) ltac:(lia)) as Hdm.
  destruct (Z.div_eucl (2 ^ 105) (Zpos m)) as [q r].
  destruct Hdm as [Hq Hr].
  assert (Hq' : 0 <= q < 2 ^ 106).
  { assert (0 <= q) by nia. split; [assumption|].
    assert (q <= 2 ^ 105) by nia.
    change (2 ^ 106) with (2 * 2 ^ 105). lia. }
  destruct (binary_round_aux_class true q (-105 - e) (new_location (Zpos m) r) 106 Hq'
              ltac:(lia) ltac:(lia)) as [Hz|(m' & e' & Hf & _)].
  - left. exact Hz.
  - right. exists m', e'. exact Hf.
Qed.

(** [1.0 / n] times [0.0] is [-0.0] for every negative [int] [n]. *)
Lemma negative_reciprocal_times_zero n :
  INT_MIN <= n <= -1 ->
  dmul (ddiv (double_of_int 1) (double_of_int n)) d0 = S754_zero true.
Proof.
  intros Hn. destruct n as [|p|p]; [lia|lia|].
  assert (Hd : 1 <= Zpos (digits2_pos p) <= 32).
  { split; [lia|]. apply digits2_pos_bound. unfold INT_MIN in Hn. lia. }
  rewrite double_of_int_neg by lia.
  set (m := Pos.iter xO p (Z.to_pos (53 - Zpos (digits2_pos p)))).
  assert (Hm : Zpos (digits2_pos m) = 53).
  { unfold m. rewrite digits2_pos_iter_xO. rewrite Z2Pos.id by lia. lia. }
  destruct (ddiv_one_negative m (Zpos (digits2_pos p) - 53) Hm ltac:(lia))
    as [->|(m' & e' & ->)]; reflexivity.
Qed.

(** With [samples_per_pixel = 0] the sample loop does not run and the sum
    of the samples, black, is scaled by [1.0 / 0]: every channel of every
    pixel is the NaN [inf * 0], for which [write_color] has no defined
    output.  With a negative [samples_per_pixel] the scale is negative and
    every channel is [-0.0], written as the byte 0.  No ray is cast in
    either case, and the generator is not used. *)
Theorem render_pixel_without_samples `{E : Environment} (world : hittable)
  (c0 c : camera) (i j : Z) (g : generator) :
  initialize c0 = Some c ->
  (samples_per_pixel c0 = 0 ->
   render_pixel c world i j g = Some (mk_vec3 S754_nan S754_nan S754_nan, g) /\
   forall out, write_color out (mk_vec3 S754_nan S754_nan S754_nan) = None) /\
  (INT_MIN <= samples_per_pixel c0 < 0 ->
   render_pixel c world i j g
   = Some (mk_vec3 (S754_zero true) (S754_zero true) (S754_zero true), g) /\
   forall out,
     write_color out (mk_vec3 (S754_zero true) (S754_zero true) (S754_zero true))
     = Some (out ++ [PixelLine 0 0 0])).
Proof.
  intros Hi.
  destruct (initialize_spec _ _ Hi) as (_ & Hspp & _ & _ & _ & Hscale & _).
  unfold render_pixel. rewrite Hscale, Hspp. split.
  - intros ->. split; reflexivity.
  - intros Hneg.
    replace (Z.to_nat (samples_per_pixel c0)) with 0%nat by lia.
    cbn [sample_loop]. unfold vscale, black. cbn [x y z].
    rewrite (negative_reciprocal_times_zero (samples_per_pixel c0) ltac:(lia)).
    split; reflexivity.
Qed.

(** The 2 by 1 camera with no sample per pixel. *)
Lemma render_pixel_without_samples_witness :
  exists c,
    @initialize (test_env 1) (test_camera (double_of_int 2) 2 0 5 d0 (double_of_int 10))
    = Some c /\
    @render_pixel (test_env 1) c (Enclosure Scatterer) 0 0 7
    = Some (mk_vec3 S754_nan S754_nan S754_nan, 7).
Proof.
  eexists. split; [reflexivity|].
  apply (@render_pixel_without_samples (test_env 1) (Enclosure Scatterer)
           (test_camera (double_of_int 2) 2 0 5 d0 (double_of_int 10)) _ 0 0 7 eq_refl).
  reflexivity.
Defined.

(** ** [ray_color]: where the light comes from (camera.h, 190-209) *)

Lemma dmul_finite_zero a b :
  is_finite a = true -> is_zero b = true -> is_zero (dmul a b) = true.
Proof. destruct a, b; intros; try discriminate; reflexivity. Qed.

Lemma vmul_finite_zero a b : finite_vec a -> zero_vec b -> zero_vec (vmul a b).
Proof.
  intros (Hx & Hy & Hz) (Zx & Zy & Zz). unfold zero_vec, vmul. cbn [x y z].
  split_and!; apply dmul_finite_zero; assumption.
Qed.

Lemma ray_color_fuel_light `{E : Environment} (world : hittable) :
  (forall m r0 rec g0 att sc g1,
     scatter m r0 rec g0 = (Some (att, sc), g1) -> finite_vec att) ->
  forall fuel r depth g c g' qs,
    ray_color_fuel fuel r depth world g = Some (c, g', qs) ->
    zero_vec c \/
    exists q, last qs = Some q /\ hit world (q_ray q) query_interval = None.
Proof.
  intros Hfin. induction fuel as [|fuel IH]; intros r depth g c g' qs Hres;
    cbn [ray_color_fuel] in Hres; [discriminate|].
  destruct (depth <=? 0).
  { injection Hres as <- _ _. left. split_and!; reflexivity. }
  fold query_interval in Hres.
  destruct (hit world r query_interval) as [rec|] eqn:Hhit.
  - destruct (scatter (hr_mat rec) r rec g) as [[[att sc]|] g1] eqn:Hsc.
    + destruct (ray_color_fuel fuel sc (depth - 1) world g1) as [[[c1 g2] qs1]|] eqn:Hrec;
        [|discriminate].
      injection Hres as <- _ <-.
      destruct (IH _ _ _ _ _ _ Hrec) as [Hz|(q & Hl & Hq)].
      * left. apply vmul_finite_zero; [eapply Hfin; exact Hsc|exact Hz].
      * right. exists q. split; [|exact Hq].
        destruct qs1; [discriminate|exact Hl].
    + injection Hres as <- _ _. left. split_and!; reflexivity.
  - injection Hres as _ _ <-. right. eexists. split; [reflexivity|exact Hhit].
Qed.

(** The scene has no light of its own: when the attenuations that the
    materials return are finite, the colour of a ray is zero in every
    channel unless the last ray of its path misses the scene, which is the
    only place where the background is evaluated.  In a scene that every
    ray hits, every ray is black, at every depth. *)
Theorem ray_color_light_from_background `{E : Environment} (world : hittable)
  (r : ray) (depth : Z) (g : generator) (c : color) (g' : generator)
  (qs : list hit_query) :
  (forall m r0 rec g0 att sc g1,
     scatter m r0 rec g0 = (Some (att, sc), g1) -> finite_vec att) ->
  ray_color r depth world g = Some (c, g', qs) ->
  (zero_vec c \/
   exists q, last qs = Some q /\ hit world (q_ray q) query_interval = None) /\
  ((forall r0, hit world r0 query_interval <> None) -> zero_vec c).
Proof.
  intros Hfin Hres.
  pose proof (ray_color_fuel_light world Hfin _ _ _ _ _ _ _ Hres) as Hlight.
  split; [exact Hlight|].
  intros Hclosed. destruct Hlight as [Hz|(q & _ & Hq)]; [exact Hz|].
  contradiction (Hclosed _ Hq).
Qed.

(** In the enclosure of scattering material a ray of depth 3 is black. *)
Lemma ray_color_light_from_background_witness :
  let r := mk_ray (mk_vec3 d0 d0 d0) (mk_vec3 d0 d0 (double_of_int (-1))) in
  exists c g' qs,
    @ray_color (test_env 1) r 3 (Enclosure Scatterer) 7 = Some (c, g', qs) /\
    length qs = 3%nat /\ zero_vec c.
Proof.
  eexists _, _, _. split; [vm_compute; reflexivity|]. split; [reflexivity|].
  refine (proj2 (@ray_color_light_from_background (test_env 1) (Enclosure Scatterer)
                   (mk_ray (mk_vec3 d0 d0 d0) (mk_vec3 d0 d0 (double_of_int (-1))))
                   3 7 _ _ _ _ _) _).
  - intros m r0 rec g0 att sc g1 Hsc. destruct m; [discriminate|].
    injection Hsc as <- _ _. split_and!; reflexivity.
  - vm_compute. reflexivity.
  - intros r0. discriminate.
Defined.

(** ** [random_double(min, max)] (rtweekend.h, 32-34) *)

Lemma dsub_diag a : is_finite a = true -> dsub a a = S754_zero false.
Proof.
  destruct a as [[]| | |s m e]; intros; try discriminate; try reflexivity.
  unfold dsub, SFsub. rewrite Z.sub_diag. reflexivity.
Qed.

(** One draw is taken, whatever the bounds: the result is
    [min + (max - min) * r] for the draw [r] of [random_double()], and the
    generator is left as that one draw leaves it.  With equal bounds the
    result is that bound, the draw being finite: the range is empty and the
    function does not fail.  With the bounds 0 and 1 the result is the draw
    itself. *)
Theorem random_double_range_edges `{E : Environment} (a : double) (g : generator) :
  (forall min max,
     random_double_range min max g
     = (dadd min (dmul (dsub max min) (fst (random_double g))), snd (random_double g))) /\
  (forall min max, snd (random_double_range min max g) = snd (random_double g)) /\
  (is_finite (fst (random_double g)) = true ->
   is_finite a = true -> a <> S754_zero true ->
   random_double_range a a g = (a, snd (random_double g))) /\
  (is_finite (fst (random_double g)) = true ->
   is_double (fst (random_double g)) -> fst (random_double g) <> S754_zero true ->
   random_double_range d0 (double_of_int 1) g = random_double g).
Proof.
  unfold random_double_range. destruct (random_double g) as [r g1]. cbn [fst snd].
  split; [reflexivity|]. split; [reflexivity|]. split; intros Hr.
  - intros Ha Hnz. rewrite (dsub_diag a Ha). f_equal.
    destruct a as [[]| | |s m e], r as [[]| | |[] m' e']; try discriminate;
      try reflexivity; contradiction Hnz; reflexivity.
  - intros Hd Hnz. f_equal.
    change (dsub (double_of_int 1) d0) with (double_of_int 1).
    rewrite (dmul_one_l r Hd).
    destruct r as [[]| | |s' m' e']; try discriminate; try reflexivity.
    contradiction Hnz; reflexivity.
Qed.

(** A draw of the generator of the examples between 2 and 2. *)
Lemma random_double_range_edges_witness :
  @random_double_range (test_env 1) (double_of_int 2) (double_of_int 2) 7
  = (double_of_int 2, snd (@random_double (test_env 1) 7)).
Proof.
  apply (@random_double_range_edges (test_env 1) (double_of_int 2) 7).
  - reflexivity.
  - reflexivity.
  - discriminate.
Defined.

(** ** [get_ray]: the draws (camera.h, 165-188) *)

(** [get_ray] takes the two draws of [sample_square] first.  One of them
    is the x offset and the other the y offset: which is which is the order
    in which the compiler evaluates the two arguments of the constructor
    call of line 180, and the source does not fix it.  The pixel sample
    depends on the generator through these two draws only.  The unit disk
    is sampled after them, and only when [defocus_angle <= 0] is false: for
    a positive angle, and for a NaN, for which the comparison fails; the
    origin is then the sample of the defocus disk, and otherwise the
    center.  The direction is the pixel sample minus the origin. *)
Theorem get_ray_draws `{E : Environment} (c : camera) (i j : Z) (g : generator) :
  (dle (defocus_angle c) d0 = true ->
   snd (get_ray c i j g) = snd (random_double (snd (random_double g))) /\
   origin (fst (get_ray c i j g)) = center c) /\
  (dle (defocus_angle c) d0 = false ->
   snd (get_ray c i j g)
   = snd (random_in_unit_disk (snd (random_double (snd (random_double g))))) /\
   origin (fst (get_ray c i j g))
   = fst (defocus_disk_sample c (snd (random_double (snd (random_double g)))))) /\
  (is_nan (defocus_angle c) = true -> dle (defocus_angle c) d0 = false) /\
  exists dx dy,
    (dx, dy)
    = (if first_argument_first g
       then (fst (random_double g), fst (random_double (snd (random_double g))))
       else (fst (random_double (snd (random_double g))), fst (random_double g))) /\
    ((dx = fst (random_double g) /\ dy = fst (random_double (snd (random_double g)))) \/
     (dy = fst (random_double g) /\ dx = fst (random_double (snd (random_double g))))) /\
    fst (sample_square g) = mk_vec3 (dsub dx (decimal 5 1)) (dsub dy (decimal 5 1)) d0 /\
    direction (fst (get_ray c i j g))
    = vsub (vadd (vadd (pixel00_loc c)
                       (vscale (dadd (double_of_int i) (dsub dx (decimal 5 1)))
                               (pixel_delta_u c)))
                 (vscale (dadd (double_of_int j) (dsub dy (decimal 5 1)))
                         (pixel_delta_v c)))
           (origin (fst (get_ray c i j g))).
Proof.
  unfold get_ray, sample_square, defocus_disk_sample.
  destruct (random_double g) as [a g1]. cbn [fst snd].
  destruct (random_double g1) as [b g2]. cbn [fst snd].
  split_and!.
  - intros ->. destruct (first_argument_first g); split; reflexivity.
  - intros ->. destruct (first_argument_first g);
      destruct (random_in_unit_disk g2) as [p g3]; split; reflexivity.
  - destruct (defocus_angle c); try discriminate. reflexivity.
  - destruct (first_argument_first g).
    + exists a, b. split; [reflexivity|]. split; [left; split; reflexivity|].
      split; [reflexivity|]. cbn [fst x y].
      destruct (dle (defocus_angle c) d0); [reflexivity|].
      destruct (random_in_unit_disk g2) as [p g3]. reflexivity.
    + exists b, a. split; [reflexivity|]. split; [right; split; reflexivity|].
      split; [reflexivity|]. cbn [fst x y].
      destruct (dle (defocus_angle c) d0); [reflexivity|].
      destruct (random_in_unit_disk g2) as [p g3]. reflexivity.
Qed.

(** ** [render]: the number of steps (camera.h, 30-103) *)

Section RenderLength.
Context {E : Environment}.
Variable world : hittable.
Hypothesis Hhw : 0 <= hardware_concurrency <= UINT_MAX.

Lemma workers_left_app W ws w :
  workers_left W (ws ++ [w]) = workers_left W ws + worker_left W w.
Proof.
  induction ws as [|w' ws IH]; cbn [workers_left app]; lia.
Qed.

Lemma workers_left_insert W ws t w w' :
  ws !! t = Some w ->
  workers_left W (<[t := w']> ws) = workers_left W ws + worker_left W w' - worker_left W w.
Proof.
  revert t. induction ws as [|w0 ws IH]; intros [|t] Hl; try discriminate.
  - injection Hl as ->. change (<[0%nat := w']> (w :: ws)) with (w' :: ws).
    cbn [workers_left]. lia.
  - change (<[S t := w']> (w0 :: ws)) with (w0 :: <[t := w']> ws).
    cbn [workers_left]. rewrite (IH t Hl). lia.
Qed.

Lemma worker_left_nonneg H W k w : 0 <= W -> wf_worker H W k w -> 0 <= worker_left W w.
Proof.
  intros HW (_ & _ & Hpc). unfold worker_left. destruct (w_pc w); nia.
Qed.

Lemma workers_left_nonneg H W ws :
  0 <= W -> (forall k w, ws !! k = Some w -> wf_worker H W k w) -> 0 <= workers_left W ws.
Proof.
  intros HW. induction ws as [|w ws IH] using rev_ind; intros Hwf; [reflexivity|].
  rewrite workers_left_app.
  assert (0 <= workers_left W ws).
  { apply IH. intros k w' Hk. apply Hwf. apply lookup_app_l_Some. exact Hk. }
  assert (0 <= worker_left W w).
  { apply (worker_left_nonneg H W (length ws)); [exact HW|].
    apply Hwf. rewrite lookup_app_r by lia. rewrite Nat.sub_diag. reflexivity. }
  lia.
Qed.

Lemma workers_left_finished W ws : all_finished ws -> workers_left W ws = 0.
Proof.
  induction ws as [|w ws IH]; intros Hfin; [reflexivity|].
  cbn [workers_left]. rewrite IH.
  - unfold worker_left. rewrite (Hfin 0%nat w eq_refl). reflexivity.
  - intros k w' Hk. apply (Hfin (S k)). exact Hk.
Qed.

(** The rows of worker [t] and of the workers after it. *)
Lemma rows_from_step H t :
  1 <= H <= INT_MAX -> 0 <= t < num_threads ->
  rows_from H t
  = (end_line H num_threads t - start_line H num_threads t) + rows_from H (t + 1).
Proof.
  intros HH Ht. pose proof (num_threads_range Hhw) as HT. unfold rows_from.
  destruct (Z.ltb_spec t num_threads); [|lia].
  destruct (Z.ltb_spec (t + 1) num_threads).
  - rewrite (range_adjacent H num_threads HH HT t) by lia. lia.
  - replace t with (num_threads - 1) by lia.
    rewrite (end_line_last H num_threads HH HT). lia.
Qed.

Lemma rows_from_nonneg H t : 1 <= H <= INT_MAX -> 0 <= t -> 0 <= rows_from H t.
Proof.
  intros HH Ht. pose proof (num_threads_range Hhw) as HT. unfold rows_from.
  destruct (Z.ltb_spec t num_threads); [|lia].
  pose proof (range_bounds H num_threads HH HT t ltac:(lia)). lia.
Qed.

(** Every step takes one from the steps that are left. *)
Lemma steps_left_step c tr s ev s' :
  state_ok c s -> main_trace_ok tr s -> step world s ev s' ->
  steps_left s' = steps_left s - 1.
Proof.
  intros Hok Hmt Hstep.
  pose proof Hok as (Hcam & HW & HH & HWH & Hbuf & Hwf & _ & Hmain).
  pose proof (num_threads_range Hhw) as HT.
  unfold main_trace_ok in Hmt. unfold steps_left, main_left.
  destruct Hstep as [s c' Hs Hi' Hwh|s t g Hs Ht|s t Hs Ht|s k w Hs Hl Hpc|s k Hs Hlen
                    |s k pixel out Hs Hl Hwc|s k Hs Hlen
                    |s t w j Hl Hpc Hj|s t w j Hl Hpc Hj
                    |s t w j i col g Hl Hpc Hi' Hrp Hidx|s t w j i Hl Hpc Hi'];
    cbn [st_cam st_main threads image_buffer set_main set_worker];
    rewrite ?Hs in *; rewrite ?Hcam in *.
  - contradiction.
  - destruct Hmain as (Ht0 & _). rewrite to_unsigned_small by lia.
    subst start end_. rewrite Hcam. rewrite workers_left_app. unfold worker_left. cbn [w_pc w_end].
    rewrite (rows_from_step (image_height c) t HH ltac:(lia)). nia.
  - destruct Hmain as (Ht0 & _). assert (t = num_threads) as -> by lia.
    unfold rows_from. rewrite Z.ltb_irrefl. lia.
  - lia.
  - destruct Hmain as (Hlen' & _). destruct Hmt as (_ & _ & Hk & _). lia.
  - lia.
  - destruct Hmain as (_ & _ & Hk & _). lia.
  - rewrite (workers_left_insert _ _ _ _ _ Hl). unfold worker_left.
    cbn [set_pc w_pc w_end]. rewrite Hpc. nia.
  - rewrite (workers_left_insert _ _ _ _ _ Hl). unfold worker_left.
    cbn [set_pc w_pc w_end]. rewrite Hpc.
    destruct (Hwf _ _ Hl) as (_ & _ & Hp). rewrite Hpc in Hp.
    assert (j = w_end w) as -> by lia. lia.
  - rewrite (workers_left_insert _ _ _ _ _ Hl). unfold worker_left.
    cbn [w_pc w_end]. rewrite Hpc. rewrite length_insert. nia.
  - rewrite (workers_left_insert _ _ _ _ _ Hl). unfold worker_left.
    cbn [set_pc w_pc w_end]. rewrite Hpc.
    destruct (Hwf _ _ Hl) as (_ & _ & Hp). rewrite Hpc in Hp.
    assert (i = image_width c) as -> by lia. nia.
Qed.

End RenderLength.

(** Every run of [render] is finite, under every schedule of the workers:
    a run of [n] steps has exactly [render_length - n] steps left, where
    [render_length = 4 + 3 T + 2 H + 2 W H] for [T] workers and an image of
    [W] by [H] pixels; no run is longer, and the runs that have returned
    are those of exactly that length. *)
Theorem render_step_count `{E : Environment} (world : hittable) (c0 c : camera)
  (tr : list event) (s : state) :
  0 <= hardware_concurrency <= UINT_MAX ->
  initialize c0 = Some c ->
  reachable world c0 tr s ->
  st_main s <> Start ->
  Z.of_nat (length tr) + steps_left s = render_length c /\
  0 <= steps_left s /\
  Z.of_nat (length tr) <= render_length c /\
  (st_main s = Returned <-> steps_left s = 0) /\
  (st_main s = Returned <-> Z.of_nat (length tr) = render_length c).
Proof.
  intros Hhw Hi Hr Hm.
  pose proof (num_threads_range Hhw) as HT.
  pose proof (reachable_ok world Hhw _ _ _ _ Hr Hi Hm) as Hok.
  pose proof (reachable_main_trace_ok world Hhw _ _ _ Hr) as Hmt.
  assert (Hcount : Z.of_nat (length tr) + steps_left s = render_length c).
  { revert tr s Hr Hm Hok Hmt.
    assert (Hind : forall tr s, reachable world c0 tr s -> st_main s <> Start ->
                                Z.of_nat (length tr) + steps_left s = render_length c);
      [|intros; apply Hind; assumption].
    apply (reachable_ind_ok world Hhw c0 c
             (fun tr s => Z.of_nat (length tr) + steps_left s = render_length c) Hi).
    - intros s1 Hstep Hok1.
      destruct (step_begin_ok world Hhw _ _ _ Hstep)
        as (_ & c1 & Hi1 & _ & Hth & Hm1 & _ & Hbuf).
      assert (c1 = c) as -> by congruence.
      destruct Hok1 as (Hcam & HW & HH & _).
      unfold steps_left, main_left, render_length.
      rewrite Hcam, Hm1, Hth, Hbuf, length_replicate. cbn [workers_left length].
      unfold rows_from. destruct (Z.ltb_spec 0 num_threads); [|lia].
      rewrite (first_start (image_height c) num_threads HH HT). nia.
    - intros tr s ev s' Hr Hok IH Hstep _.
      pose proof (reachable_main_trace_ok world Hhw _ _ _ Hr) as Hmt.
      rewrite (steps_left_step world Hhw c tr s ev s' Hok Hmt Hstep).
      rewrite length_app. cbn [length]. lia. }
  assert (Hleft : 0 <= steps_left s /\ (st_main s = Returned <-> steps_left s = 0)).
  { destruct Hok as (Hcam & HW & HH & HWH & Hbuf & Hwf & _ & Hmain).
    pose proof (workers_left_nonneg (image_height c) (image_width c) _ HW Hwf) as Hws.
    unfold main_trace_ok in Hmt. unfold steps_left, main_left. rewrite Hcam.
    destruct (st_main s) as [|t|k|k|]; [contradiction|..].
    - destruct Hmain as (Ht & _).
      pose proof (rows_from_nonneg Hhw (image_height c) t HH ltac:(lia)).
      split; [nia|]. split; [discriminate|nia].
    - destruct Hmain as (Hlen & _). destruct Hmt as (_ & _ & Hk & _).
      split; [lia|]. split; [discriminate|lia].
    - destruct Hmain as (_ & _ & Hk & _).
      split; [lia|]. split; [discriminate|lia].
    - destruct Hmain as (_ & Hfin & _).
      rewrite (workers_left_finished _ _ Hfin). split; [lia|]. split; reflexivity. }
  destruct Hleft as (Hnn & Hret).
  split; [exact Hcount|]. split; [exact Hnn|]. split; [lia|].
  split; [exact Hret|]. rewrite Hret. lia.
Qed.

(** The render of the 2 by 1 image by one worker takes 13 steps. *)
Lemma render_step_count_witness :
  exists c tr s,
    @initialize (test_env 1) tiny_camera = Some c /\
    @reachable (test_env 1) EmptyScene tiny_camera tr s /\
    st_main s = Returned /\
    @render_length (test_env 1) c = 13 /\
    Z.of_nat (length tr) = @render_length (test_env 1) c.
Proof.
  destruct tiny_render_run
    as (c & col0 & col1 & g1 & g2 & s & Hi & HW & HH & _ & _ & Hr & Hm & _ & _).
  match type of Hr with reachable _ _ ?tr _ => exists c, tr, s end.
  assert (Hhw : 0 <= @hardware_concurrency (test_env 1) <= UINT_MAX)
    by (vm_compute; split; discriminate).
  assert (Hstart : st_main s <> Start) by (rewrite Hm; discriminate).
  destruct (@render_step_count (test_env 1) EmptyScene tiny_camera c _ s Hhw Hi Hr Hstart)
    as (_ & _ & _ & _ & Hlen).
  split_and!; [exact Hi|exact Hr|exact Hm| |apply Hlen; exact Hm].
  unfold render_length. rewrite HW, HH. reflexivity.
Defined.

(** ** [render]: the progress log (camera.h, 52-58 and 96) *)

Section ProgressLog.
Context {E : Environment}.
Variable world : hittable.
Hypothesis Hhw : 0 <= hardware_concurrency <= UINT_MAX.

(** The workers that have finished have entered all the rows of their
    ranges. *)
Lemma entered_rows_finished H W ws :
  1 <= H <= INT_MAX ->
  Z.of_nat (length ws) <= num_threads ->
  (forall k w, ws !! k = Some w -> wf_worker H W k w) ->
  all_finished ws ->
  entered_rows ws = (if Z.of_nat (length ws) <? num_threads
                     then start_line H num_threads (Z.of_nat (length ws)) else H).
Proof.
  intros HH. pose proof (num_threads_range Hhw) as HT.
  induction ws as [|w ws IH] using rev_ind; intros Hlen Hwf Hfin.
  - cbn [entered_rows length]. change (Z.of_nat 0) with 0.
    destruct (Z.ltb_spec 0 num_threads); [|lia].
    rewrite (first_start H num_threads HH HT). reflexivity.
  - rewrite length_app in *. cbn [length] in *. rewrite entered_rows_app.
    assert (Hlen' : Z.of_nat (length ws) <= num_threads) by lia.
    rewrite (IH Hlen').
    + assert (Hl : (ws ++ [w]) !! length ws = Some w).
      { rewrite lookup_app_r by lia. rewrite Nat.sub_diag. reflexivity. }
      destruct (Hwf _ _ Hl) as (Hs & He & _).
      unfold cursor. rewrite (Hfin _ _ Hl), Hs, He.
      destruct (Z.ltb_spec (Z.of_nat (length ws)) num_threads) as [Hlt|]; [|lia].
      destruct (Z.ltb_spec (Z.of_nat (length ws + 1)) num_threads) as [Hlt'|Hge].
      * rewrite Nat2Z.inj_add. change (Z.of_nat 1) with 1.
        rewrite <- (range_adjacent H num_threads HH HT) by lia. lia.
      * replace (Z.of_nat (length ws)) with (num_threads - 1) by lia.
        rewrite (end_line_last H num_threads HH HT). lia.
    + intros k w' Hk. apply Hwf. apply lookup_app_l_Some. exact Hk.
    + intros k w' Hk. apply (Hfin k). apply lookup_app_l_Some. exact Hk.
Qed.

(** When every worker has been started and has finished, the counter is
    zero. *)
Lemma remaining_zero c s :
  state_ok c s ->
  length (threads s) = Z.to_nat num_threads ->
  all_finished (threads s) ->
  scanlines_remaining s = 0.
Proof.
  intros (_ & _ & HH & _ & _ & Hwf & Hrem & _) Hlen Hfin.
  pose proof (num_threads_range Hhw) as HT.
  assert (Hle : Z.of_nat (length (threads s)) <= num_threads) by lia.
  rewrite Hrem, (entered_rows_finished _ _ _ HH Hle Hwf Hfin).
  destruct (Z.ltb_spec (Z.of_nat (length (threads s))) num_threads); lia.
Qed.

Lemma count_progress_app r log1 log2 :
  count_progress r (log1 ++ log2) = (count_progress r log1 + count_progress r log2)%nat.
Proof.
  induction log1 as [|[r'|] log1 IH]; cbn [count_progress app]; lia.
Qed.

Lemma count_render_time_app log1 log2 :
  count_render_time (log1 ++ log2)
  = (count_render_time log1 + count_render_time log2)%nat.
Proof.
  induction log1 as [|[r'|] log1 IH]; cbn [count_render_time app]; lia.
Qed.

Lemma log_ok_begin c0 c s1 :
  initialize c0 = Some c -> step world (initial c0) EvHeader s1 -> log_ok c s1.
Proof.
  intros Hi Hstep.
  destruct (step_begin_ok world Hhw _ _ _ Hstep) as (_ & c1 & Hi1 & _ & _ & Hm & Hrem & _).
  assert (c1 = c) as -> by congruence.
  assert (Hlog : clog s1 = []).
  { remember (initial c0) as s0 eqn:Hs0. remember EvHeader as ev eqn:Hev.
    destruct Hstep; try discriminate. subst s. reflexivity. }
  unfold log_ok. rewrite Hlog, Hm, Hrem. split; [|reflexivity].
  intros r. cbn [count_progress].
  destruct (reports r); cbn [andb]; [|reflexivity].
  destruct (Z.leb_spec (image_height c) r), (Z.ltb_spec r (image_height c));
    cbn [andb]; try reflexivity; lia.
Qed.

Lemma log_ok_step c s ev s' :
  state_ok c s -> log_ok c s -> step world s ev s' -> log_ok c s'.
Proof.
  intros Hok (Hprog & Htime) Hstep.
  pose proof (remaining_bounds Hhw c s Hok) as Hb.
  pose proof Hok as (_ & _ & _ & _ & _ & _ & _ & Hmain).
  unfold log_ok.
  destruct Hstep as [s c' Hs Hi' Hwh|s t g Hs Ht|s t Hs Ht|s k w Hs Hl Hpc|s k Hs Hlen
                    |s k pixel out Hs Hl Hwc|s k Hs Hlen
                    |s t w j Hl Hpc Hj|s t w j Hl Hpc Hj
                    |s t w j i col g Hl Hpc Hi' Hrp Hidx|s t w j i Hl Hpc Hi'];
    cbn [clog st_main scanlines_remaining set_main set_worker];
    rewrite ?Hs in *; try (split; [exact Hprog|exact Htime]).
  - contradiction.
  - split; [|rewrite count_render_time_app, Htime; reflexivity].
    intros r. rewrite count_progress_app, Hprog. cbn [count_progress]. lia.
  - subst remaining. split.
    + intros r. rewrite count_progress_app, Hprog.
      set (rem := scanlines_remaining s) in *.
      assert (Hnew : count_progress r (if reports (rem - 1) then [Progress (rem - 1)] else [])
                     = if reports r && (r =? rem - 1) then 1%nat else 0%nat).
      { destruct (Z.eqb_spec r (rem - 1)) as [->|Hne].
        - destruct (reports (rem - 1)); cbn [count_progress andb];
            rewrite ?Z.eqb_refl; reflexivity.
        - rewrite andb_false_r. destruct (reports (rem - 1)); cbn [count_progress];
            [|reflexivity].
          destruct (Z.eqb_spec r (rem - 1)); [contradiction|reflexivity]. }
      rewrite Hnew. destruct (reports r); cbn [andb]; [|reflexivity].
      destruct (Z.leb_spec rem r), (Z.leb_spec (rem - 1) r),
        (Z.ltb_spec r (image_height c)), (Z.eqb_spec r (rem - 1)); cbn [andb]; lia.
    + rewrite count_render_time_app, Htime.
      destruct (reports _); cbn [count_render_time]; lia.
Qed.

End ProgressLog.

(** A worker reports the value that its decrement left in the counter
    when that value is a multiple of 10 (the test for 0 adds nothing).  The
    decrements leave the values [H - 1], ..., [0], each once, whatever
    the schedule.  So at every moment a value has been reported at most
    once, and only if it is a multiple of 10 that the counter has passed;
    the render time has been logged at most once, and not before the workers
    are joined.  Once the workers are joined the counter is 0, every
    multiple of 10 from 0 to [H - 1] has been reported exactly once and
    nothing else has, and the render time is logged. *)
Theorem progress_log `{E : Environment} (world : hittable) (c0 c : camera)
  (tr : list event) (s : state) :
  0 <= hardware_concurrency <= UINT_MAX ->
  initialize c0 = Some c ->
  reachable world c0 tr s ->
  st_main s <> Start ->
  (forall r, reports r = (Z.rem r 10 =? 0)) /\
  (forall r,
     (count_progress r (clog s) <= 1)%nat /\
     ((0 < count_progress r (clog s))%nat ->
      Z.rem r 10 = 0 /\ scanlines_remaining s <= r < image_height c)) /\
  (count_render_time (clog s) <= 1)%nat /\
  ((0 < count_render_time (clog s))%nat ->
   (exists k, st_main s = Writing k) \/ st_main s = Returned) /\
  ((exists k, st_main s = Writing k) \/ st_main s = Returned ->
   scanlines_remaining s = 0 /\
   count_render_time (clog s) = 1%nat /\
   forall r,
     count_progress r (clog s)
     = if (Z.rem r 10 =? 0) && (0 <=? r) && (r <? image_height c)
       then 1%nat else 0%nat).
Proof.
  intros Hhw Hi Hr Hm.
  assert (Hrep : forall r, reports r = (Z.rem r 10 =? 0)).
  { intros r. unfold reports. destruct (Z.eqb_spec r 0) as [->|];
      [reflexivity|apply orb_false_r]. }
  pose proof (reachable_ok world Hhw _ _ _ _ Hr Hi Hm) as Hok.
  assert (Hlog : log_ok c s).
  { revert tr s Hr Hm Hok.
    assert (Hind : forall tr s, reachable world c0 tr s -> st_main s <> Start -> log_ok c s);
      [|intros; eapply Hind; eassumption].
    apply (reachable_ind_ok world Hhw c0 c (fun _ s => log_ok c s) Hi).
    - intros s1 Hstep _. eapply log_ok_begin; eassumption.
    - intros tr s ev s' _ Hok IH Hstep _. eapply log_ok_step; eassumption. }
  destruct Hlog as (Hprog & Htime).
  split; [exact Hrep|].
  split.
  { intros r. rewrite Hprog, Hrep.
    destruct (Z.eqb_spec (Z.rem r 10) 0), (Z.leb_spec (scanlines_remaining s) r),
      (Z.ltb_spec r (image_height c)); cbn [andb]; split; lia. }
  split; [rewrite Htime; destruct (st_main s); lia|].
  split.
  { rewrite Htime. destruct (st_main s) as [|t|k|k|]; try lia; eauto. }
  intros Hjoined.
  assert (Hzero : scanlines_remaining s = 0).
  { pose proof Hok as (_ & _ & _ & _ & _ & _ & _ & Hmain).
    destruct Hjoined as [[k Hk]|Hk]; rewrite Hk in Hmain;
      destruct Hmain as (Hlen & Hfin & _);
      eapply (remaining_zero Hhw); eassumption. }
  split; [exact Hzero|].
  split; [rewrite Htime; destruct Hjoined as [[k ->]| ->]; reflexivity|].
  intros r. rewrite Hprog, Hrep, Hzero. reflexivity.
Qed.

(** The render of the 2 by 1 image: one report, of the value 0, and the
    render time. *)
Lemma progress_log_witness :
  exists c tr s,
    @initialize (test_env 1) tiny_camera = Some c /\
    @reachable (test_env 1) EmptyScene tiny_camera tr s /\
    st_main s = Returned /\
    count_progress 0 (clog s) = 1%nat /\
    count_render_time (clog s) = 1%nat.
Proof.
  destruct tiny_render_run
    as (c & col0 & col1 & g1 & g2 & s & Hi & HW & HH & _ & _ & Hr & Hm & _ & _).
  match type of Hr with reachable _ _ ?tr _ => exists c, tr, s end.
  assert (Hhw : 0 <= @hardware_concurrency (test_env 1) <= UINT_MAX)
    by (vm_compute; split; discriminate).
  assert (Hstart : st_main s <> Start) by (rewrite Hm; discriminate).
  destruct (@progress_log (test_env 1) EmptyScene tiny_camera c _ s Hhw Hi Hr Hstart)
    as (_ & _ & _ & _ & Hdone).
  destruct (Hdone (or_intror Hm)) as (_ & Htime & Hprog).
  split_and!; [exact Hi|exact Hr|exact Hm| |exact Htime].
  rewrite Hprog, HH. reflexivity.
Defined.

(** ** [render]: the stores of the workers (camera.h, 60-71) *)

(** No element of the buffer is stored twice, by the same worker or by
    another: the store at an index is the first store at that index and
    the last.  And no line has been written when a store is made: the
    calling thread reads the buffer after the last store. *)
Theorem stores_are_disjoint `{E : Environment} (world : hittable) (c0 c : camera)
  (tr : list event) (s : state) :
  0 <= hardware_concurrency <= UINT_MAX ->
  initialize c0 = Some c ->
  reachable world c0 tr s ->
  forall tr1 t j i index col tr2,
    tr = tr1 ++ EvStore t j i index col :: tr2 ->
    (forall t' j' i' col', ~ In (EvStore t' j' i' index col') tr1) /\
    (forall t' j' i' col', ~ In (EvStore t' j' i' index col') tr2) /\
    (forall k, ~ In (EvPixel k) tr1).
Proof.
  intros Hhw Hi Hr.
  assert (Hfirst : forall tr1 t j i index col tr2,
             tr = tr1 ++ EvStore t j i index col :: tr2 ->
             forall t' j' i' col', ~ In (EvStore t' j' i' index col') tr1).
  { intros tr1 t j i index col tr2 Heq t' j' i' col' Hin.
    destruct (exec_split world _ _ _ Hr _ _ _ Heq) as (s1 & s2 & Hr1 & Hstep & _).
    destruct (step_store_inv world _ _ _ _ _ _ _ Hstep)
      as (w & g & Hl & Hpc & HiW & _ & Hidx).
    destruct (reachable_worker world Hhw _ _ _ _ _ Hr1 Hl) as (c1 & Hi1 & Hok1 & Htr1).
    assert (c1 = c) as -> by congruence.
    pose proof Hok1 as (Hcam & _ & _ & _ & _ & Hwf & _). rewrite Hcam in *.
    destruct Htr1 as (_ & _ & HC & _).
    destruct (HC _ _ _ _ _ Hin) as (Hidx' & _ & _ & w' & Hl' & Hst).
    destruct (Hwf _ _ Hl) as (Hs & He & Hp). rewrite Hpc in Hp.
    pose proof Hst as (Hi' & _).
    destruct (index_injective (image_width c) j i j' i' ltac:(lia) Hi' ltac:(lia))
      as [<- <-].
    pose proof (stored_assigned _ _ _ _ _ _ Hok1 Hl' Hst) as Ha'.
    assert (Ha : assigned (image_height c) num_threads (Z.of_nat t) j)
      by (unfold assigned; rewrite <- Hs, <- He; lia).
    destruct (row_owner_unique Hhw c s1 t' w' t w j Hok1 Hl' Hl Ha' Ha) as [-> ->].
    destruct Hst as (_ & _ & Hp'). rewrite Hpc in Hp'. lia. }
  intros tr1 t j i index col tr2 Heq. split; [eapply Hfirst; exact Heq|]. split.
  - intros t' j' i' col' Hin.
    destruct (in_split_trace _ _ Hin) as (tr3 & tr4 & ->).
    eapply (Hfirst (tr1 ++ EvStore t j i index col :: tr3)).
    + rewrite Heq, <- app_assoc. reflexivity.
    + apply in_or_app. right. left. reflexivity.
  - intros k Hin.
    destruct (in_split_trace _ _ Hin) as (tr3 & tr4 & ->).
    rewrite <- app_assoc in Heq. cbn [app] in Heq.
    destruct (exec_split world _ _ _ Hr _ _ _ Heq) as (s1 & s2 & Hr1 & Hstep & Hr2).
    destruct (step_pixel_inv world _ _ _ Hstep) as (Hm1 & _).
    assert (Hs1 : st_main s1 <> Start) by (rewrite Hm1; discriminate).
    pose proof (reachable_ok world Hhw _ _ _ _ Hr1 Hi Hs1)
      as (_ & _ & _ & _ & _ & _ & _ & Hmain1).
    rewrite Hm1 in Hmain1. destruct Hmain1 as (_ & Hfin & _).
    pose proof (exec_cons world _ _ _ _ _ Hstep Hr2) as Hrest.
    destruct (writing_frozen world _ _ _ Hrest Hfin (or_introl (ex_intro _ k Hm1)))
      as (_ & _ & _ & Hev).
    destruct (Hev (EvStore t j i index col)) as [[k' Hk]|Hk]; try discriminate.
    right. apply in_or_app. right. left. reflexivity.
Qed.

(** The two stores of the render of the 2 by 1 image. *)
Lemma stores_are_disjoint_witness :
  exists c col0 col1 tr s,
    @initialize (test_env 1) tiny_camera = Some c /\
    @reachable (test_env 1) EmptyScene tiny_camera tr s /\
    In (EvStore 0 0 0 0 col0) tr /\
    In (EvStore 0 0 1 1 col1) tr /\
    forall t' j' i' col',
      ~ In (EvStore t' j' i' 1 col')
           [EvHeader; EvSpawn 0; EvSpawned; EvDecrement 0 0 0; EvStore 0 0 0 0 col0].
Proof.
  destruct tiny_render_run
    as (c & col0 & col1 & g1 & g2 & s & Hi & HW & HH & _ & _ & Hr & Hm & _ & _).
  match type of Hr with reachable _ _ ?tr _ => exists c, col0, col1, tr, s end.
  assert (Hhw : 0 <= @hardware_concurrency (test_env 1) <= UINT_MAX)
    by (vm_compute; split; discriminate).
  split_and!; [exact Hi|exact Hr|cbn; tauto|cbn; tauto|].
  apply (@stores_are_disjoint (test_env 1) EmptyScene tiny_camera c _ s Hhw Hi Hr
           [EvHeader; EvSpawn 0; EvSpawned; EvDecrement 0 0 0; EvStore 0 0 0 0 col0]
           0%nat 0 1 1 col1
           [EvRowEnd 0 0; EvExit 0; EvJoin 0; EvJoined; EvPixel 0; EvPixel 1; EvReturn]
           eq_refl).
Defined.

(** ** [render]: no thread is ever stuck (camera.h, 30-103) *)

Lemma sample_loop_total `{E : Environment} (world : hittable) (c : camera) (i j : Z)
  (n : nat) : forall col g, exists res, sample_loop n c world i j col g = Some res.
Proof.
  induction n as [|n IH]; intros col g; cbn [sample_loop]; [eauto|].
  destruct (get_ray c i j g) as [r g1].
  destruct (ray_color_fuel_total world (S (Z.to_nat (max_depth c))) r (max_depth c) g1
              ltac:(lia)) as [[[sample g2] qs] Hres].
  unfold ray_color. rewrite Hres. apply IH.
Qed.

Lemma render_pixel_total `{E : Environment} (world : hittable) (c : camera) (i j : Z)
  (g : generator) : exists col g', render_pixel c world i j g = Some (col, g').
Proof.
  unfold render_pixel.
  destruct (sample_loop_total world c i j (Z.to_nat (samples_per_pixel c)) black g)
    as [[col g'] ->].
  eauto.
Qed.

Section Progress.
Context {E : Environment}.
Variable world : hittable.
Hypothesis Hhw : 0 <= hardware_concurrency <= UINT_MAX.

(** The index of a store is inside the buffer. *)
Lemma store_in_bounds c s t w j i :
  state_ok c s -> threads s !! t = Some w -> w_pc w = AtPixel j i -> i < image_width c ->
  0 <= j * image_width c + i < Z.of_nat (length (image_buffer s)).
Proof.
  intros Hok Hl Hpc Hi. pose proof (threads_index_range Hhw _ _ _ _ Hok Hl) as Ht.
  destruct Hok as (_ & HW & HH & _ & Hbuf & Hwf & _).
  pose proof (wf_worker_cursor Hhw _ _ _ _ HH (proj2 Ht) (Hwf _ _ Hl)) as (_ & Hs0 & HeH).
  destruct (Hwf _ _ Hl) as (_ & _ & Hp). rewrite Hpc in Hp.
  rewrite Hbuf, Z2Nat.id by nia. nia.
Qed.

(** A worker that has not finished can take a step. *)
Lemma worker_can_step c s t w :
  state_ok c s -> threads s !! t = Some w -> w_pc w <> Finished ->
  exists ev s', step world s ev s' /\ event_worker ev = Some t.
Proof.
  intros Hok Hl Hpc. pose proof Hok as (Hcam & _).
  destruct (w_pc w) as [j|j i|] eqn:Hw; [| |contradiction].
  - destruct (Z.lt_ge_cases j (w_end w)) as [Hj|Hj].
    + eexists _, _. split; [eapply step_row; eassumption|reflexivity].
    + eexists _, _. split; [eapply step_exit; [eassumption..|lia]|reflexivity].
  - destruct (Z.lt_ge_cases i (image_width (st_cam s))) as [Hi|Hi].
    + destruct (render_pixel_total world (st_cam s) i j (w_gen w)) as (col & g' & Hrp).
      eexists _, _. split.
      * eapply step_pixel; try eassumption.
        rewrite Hcam in *. eapply store_in_bounds; eassumption.
      * reflexivity.
    + eexists _, _. split; [eapply step_row_end; [eassumption..|lia]|reflexivity].
Qed.

End Progress.

(** In every state of a render the index of the next store of a worker is
    inside the buffer, and a worker that has not finished can take its next
    step: it waits for nothing.  The render as a whole can take a step in
    every state it has not returned from, on one condition: that
    [write_color] is defined for the pixel that the calling thread is about
    to write (no channel is a NaN).  In particular a join is never waited
    for in vain: the worker to be joined can run. *)
Theorem render_never_stuck `{E : Environment} (world : hittable) (c0 c : camera)
  (tr : list event) (s : state) (g0 : generator) :
  0 <= hardware_concurrency <= UINT_MAX ->
  initialize c0 = Some c ->
  reachable world c0 tr s ->
  st_main s <> Start ->
  (forall t w j i,
     threads s !! t = Some w -> w_pc w = AtPixel j i -> i < image_width c ->
     0 <= j * image_width c + i < Z.of_nat (length (image_buffer s))) /\
  (forall t w,
     threads s !! t = Some w -> w_pc w <> Finished ->
     exists ev s', step world s ev s' /\ event_worker ev = Some t) /\
  (st_main s <> Returned ->
   (forall k pixel,
      st_main s = Writing k -> image_buffer s !! k = Some pixel ->
      write_color (cout s) pixel <> None) ->
   exists ev s', step world s ev s').
Proof.
  intros Hhw Hi Hr Hm.
  pose proof (reachable_ok world Hhw _ _ _ _ Hr Hi Hm) as Hok.
  split; [intros t w j i; apply (store_in_bounds Hhw); exact Hok|].
  split; [intros t w; apply (worker_can_step world Hhw c); exact Hok|].
  intros Hret Hwrite.
  pose proof Hok as (_ & _ & _ & _ & _ & _ & _ & Hmain).
  destruct (st_main s) as [|t|k|k|] eqn:Hs; [contradiction| | | |contradiction].
  - destruct (Z.lt_ge_cases t num_threads) as [Ht|Ht].
    + eexists _, _. eapply (step_spawn world s t g0); assumption.
    + eexists _, _. eapply step_spawned; [eassumption|lia].
  - destruct (threads s !! k) as [w|] eqn:Hl.
    + destruct (w_pc w) as [j|j i|] eqn:Hpc.
      * destruct (worker_can_step world Hhw c s k w Hok Hl ltac:(congruence))
          as (ev & s' & Hstep & _). eauto.
      * destruct (worker_can_step world Hhw c s k w Hok Hl ltac:(congruence))
          as (ev & s' & Hstep & _). eauto.
      * eexists _, _. eapply step_join; eassumption.
    + apply lookup_ge_None in Hl. eexists _, _. eapply step_joined; eassumption.
  - destruct (image_buffer s !! k) as [pixel|] eqn:Hl.
    + destruct (write_color (cout s) pixel) as [out|] eqn:Hwc;
        [|contradiction (Hwrite k pixel eq_refl Hl Hwc)].
      eexists _, _. eapply step_write; eassumption.
    + apply lookup_ge_None in Hl. eexists _, _. eapply step_return; eassumption.
Qed.

(** The render of the 16 by 9 image after the first decrement: the worker
    is at the first pixel of row 0 and can store it. *)
Lemma render_never_stuck_witness :
  exists c s,
    @initialize (test_env 1) pinhole_camera = Some c /\
    @reachable (test_env 1) EmptyScene pinhole_camera first_decrement_trace s /\
    exists ev s', @step (test_env 1) EmptyScene s ev s'.
Proof.
  destruct first_decrement_run as (c & s & Hi & HW & HH & Hr & Hm & Hrem & Hbuf).
  exists c, s.
  assert (Hhw : 0 <= @hardware_concurrency (test_env 1) <= UINT_MAX)
    by (vm_compute; split; discriminate).
  assert (Hstart : st_main s <> Start) by (rewrite Hm; discriminate).
  destruct (@render_never_stuck (test_env 1) EmptyScene pinhole_camera c _ s 7
              Hhw Hi Hr Hstart) as (_ & _ & Hgo).
  split_and!; [exact Hi|exact Hr|].
  apply Hgo.
  - rewrite Hm. discriminate.
  - intros k pixel Hk. rewrite Hm in Hk. discriminate.
Defined.

(** ** [render]: the workers (camera.h, 42-44 and 79-85) *)

(** The workers of a render are at most [num_threads], and exactly
    [num_threads] once the start loop is over; worker [k] is given the range
    [[start_line k, end_line k)] and keeps it.  When the hardware
    concurrency cannot be detected (the hint is 0) there is one worker, and
    its range is the whole image. *)
Theorem workers_of_render `{E : Environment} (world : hittable) (c0 c : camera)
  (tr : list event) (s : state) :
  0 <= hardware_concurrency <= UINT_MAX ->
  initialize c0 = Some c ->
  reachable world c0 tr s ->
  st_main s <> Start ->
  1 <= num_threads <= UINT_MAX /\
  Z.of_nat (length (threads s)) <= num_threads /\
  ((forall t, st_main s <> Spawning t) -> length (threads s) = Z.to_nat num_threads) /\
  (forall k w,
     threads s !! k = Some w ->
     w_start w = start_line (image_height c) num_threads (Z.of_nat k) /\
     w_end w = end_line (image_height c) num_threads (Z.of_nat k)) /\
  (hardware_concurrency = 0 ->
   num_threads = 1 /\
   forall k w, threads s !! k = Some w ->
               k = 0%nat /\ w_start w = 0 /\ w_end w = image_height c).
Proof.
  intros Hhw Hi Hr Hm.
  pose proof (num_threads_range Hhw) as HT.
  pose proof (reachable_ok world Hhw _ _ _ _ Hr Hi Hm) as Hok.
  pose proof (threads_length_le Hhw _ _ Hok) as Hlen.
  pose proof Hok as (_ & _ & HH & _ & _ & Hwf & _ & Hmain).
  assert (Hrange : forall k w,
             threads s !! k = Some w ->
             w_start w = start_line (image_height c) num_threads (Z.of_nat k) /\
             w_end w = end_line (image_height c) num_threads (Z.of_nat k)).
  { intros k w Hl. destruct (Hwf _ _ Hl) as (Hs & He & _). split; assumption. }
  split; [exact HT|]. split; [exact Hlen|]. split; [|split; [exact Hrange|]].
  - intros Hsp. destruct (st_main s) as [|t|k|k|]; [contradiction| |apply Hmain..].
    contradiction (Hsp t). reflexivity.
  - intros H0. assert (H1 : num_threads = 1).
    { unfold num_threads. rewrite H0. reflexivity. }
    split; [exact H1|]. intros k w Hl.
    pose proof (lookup_lt_Some _ _ _ Hl) as Hk.
    assert (k = 0%nat) as -> by lia.
    destruct (Hrange _ _ Hl) as (-> & ->). rewrite H1 in *.
    split; [reflexivity|]. change (Z.of_nat 0) with 0.
    split; [apply (first_start _ 1 HH ltac:(lia))|].
    apply (end_line_last _ 1 HH ltac:(lia)).
Qed.

(** A render without a hint of the hardware concurrency: one worker, for
    the rows 0 to 8. *)
Lemma workers_of_render_witness :
  exists c s,
    @initialize (test_env 0) pinhole_camera = Some c /\
    @reachable (test_env 0) EmptyScene pinhole_camera first_decrement_trace s /\
    @num_threads (test_env 0) = 1 /\
    exists w, threads s = [w] /\ w_start w = 0 /\ w_end w = 9.
Proof.
  assert (Hrun : exists c s,
             @initialize (test_env 0) pinhole_camera = Some c /\
             image_height c = 9 /\
             @reachable (test_env 0) EmptyScene pinhole_camera first_decrement_trace s /\
             st_main s = Joining 0 /\
             exists w, threads s = [w]).
  { eexists _, _. split; [vm_compute; reflexivity|]. split; [reflexivity|].
    split.
    { unfold reachable, first_decrement_trace. norm_state.
      next_step ltac:(eapply step_begin;
                      [reflexivity|vm_compute; reflexivity|vm_compute; split; discriminate]).
      next_step ltac:(eapply (@step_spawn (test_env 0) _ _ 0 7); reflexivity).
      next_step ltac:(eapply step_spawned; [reflexivity|not_less]).
      next_step ltac:(at_state ltac:(fun s =>
                        use_step (@step_row (test_env 0) EmptyScene s 0%nat)); reflexivity).
      apply exec_nil. }
    split; [reflexivity|]. eexists. reflexivity. }
  destruct Hrun as (c & s & Hi & HH & Hr & Hm & w & Hw).
  exists c, s.
  assert (Hhw : 0 <= @hardware_concurrency (test_env 0) <= UINT_MAX)
    by (vm_compute; split; discriminate).
  assert (Hstart : st_main s <> Start) by (rewrite Hm; discriminate).
  destruct (@workers_of_render (test_env 0) EmptyScene pinhole_camera c _ s
              Hhw Hi Hr Hstart) as (_ & _ & _ & _ & Hfallback).
  destruct (Hfallback eq_refl) as (HT & Hone).
  split_and!; [exact Hi|exact Hr|exact HT|].
  exists w. split; [exact Hw|].
  destruct (Hone 0%nat w) as (_ & Hs & He); [rewrite Hw; reflexivity|].
  rewrite <- HH. split; assumption.
Defined.

(** ** [render]: the image written (camera.h, 33 and 100-102; color.h) *)

(** When [render] returns the image stream is a complete image: the header
    with the width and the height, then exactly [width * height] pixel
    lines.  When no channel of the buffer is a NaN (the channels being
    doubles), every byte of every line lies between 0 and 255, the maximum
    that the header declares; nothing is said of the bytes of a buffer that
    holds a NaN, for which [write_color] has no defined output. *)
Theorem image_stream_complete `{E : Environment} (world : hittable) (c0 c : camera)
  (tr : list event) (s : state) :
  0 <= hardware_concurrency <= UINT_MAX ->
  initialize c0 = Some c ->
  reachable world c0 tr s ->
  st_main s = Returned ->
  exists lines,
    cout s = Header (image_width c) (image_height c) :: lines /\
    Z.of_nat (length lines) = image_width c * image_height c /\
    (forall l, In l lines -> exists r g b, l = PixelLine r g b) /\
    ((forall k pixel, image_buffer s !! k = Some pixel ->
        (is_double (x pixel) /\ is_nan (x pixel) = false) /\
        (is_double (y pixel) /\ is_nan (y pixel) = false) /\
        (is_double (z pixel) /\ is_nan (z pixel) = false)) ->
     forall k r g b,
       lines !! k = Some (PixelLine r g b) ->
       0 <= r <= 255 /\ 0 <= g <= 255 /\ 0 <= b <= 255).
Proof.
  intros Hhw Hi Hr Hret.
  assert (Hm : st_main s <> Start) by (rewrite Hret; discriminate).
  pose proof (reachable_ok world Hhw _ _ _ _ Hr Hi Hm)
    as (_ & HW & HH & _ & Hbuf & _ & _ & Hmain).
  rewrite Hret in Hmain. destruct Hmain as (_ & _ & Hw).
  destruct (write_all_output _ _ _ Hw) as (lines & Hc & Hlen & Hlines).
  exists lines. split; [exact Hc|].
  split; [rewrite Hlen, Hbuf; nia|]. split; [exact Hlines|].
  intros Hvalid k r g b Hl.
  destruct (write_all_lines _ _ _ Hw) as (_ & _ & Hpix).
  assert (Hk : (k < length (image_buffer s))%nat)
    by (apply lookup_lt_Some in Hl; lia).
  destruct (lookup_lt_is_Some_2 _ _ Hk) as [pixel Hp].
  destruct (Hpix _ _ Hp) as (r' & g' & b' & Hwc & Hline).
  rewrite Hc in Hline. change (lines !! k = Some (PixelLine r' g' b')) in Hline.
  rewrite Hl in Hline. injection Hline as -> -> ->.
  destruct (Hvalid _ _ Hp) as ((Hx & _) & (Hy & _) & (Hz & _)). unfold write_color in Hwc.
  destruct (channel_byte_spec _ Hx) as [[_ Ex]|(_ & r0 & Ex & Hr0)];
    rewrite Ex in Hwc; [discriminate|].
  destruct (channel_byte_spec _ Hy) as [[_ Ey]|(_ & g0 & Ey & Hg0)];
    rewrite Ey in Hwc; [discriminate|].
  destruct (channel_byte_spec _ Hz) as [[_ Ez]|(_ & b0 & Ez & Hb0)];
    rewrite Ez in Hwc; [discriminate|].
  injection Hwc as -> -> ->. split_and!; lia.
Qed.

(** The render of the 2 by 1 image: the header and two pixel lines. *)
Lemma image_stream_complete_witness :
  exists c tr s,
    @initialize (test_env 1) tiny_camera = Some c /\
    @reachable (test_env 1) EmptyScene tiny_camera tr s /\
    exists lines,
      cout s = Header (image_width c) (image_height c) :: lines /\
      Z.of_nat (length lines) = 2.
Proof.
  destruct tiny_render_run
    as (c & col0 & col1 & g1 & g2 & s & Hi & HW & HH & _ & _ & Hr & Hm & _ & _).
  match type of Hr with reachable _ _ ?tr _ => exists c, tr, s end.
  assert (Hhw : 0 <= @hardware_concurrency (test_env 1) <= UINT_MAX)
    by (vm_compute; split; discriminate).
  destruct (@image_stream_complete (test_env 1) EmptyScene tiny_camera c _ s
              Hhw Hi Hr Hm) as (lines & Hc & Hlen & _).
  split_and!; [exact Hi|exact Hr|].
  exists lines. split; [exact Hc|]. rewrite Hlen, HW, HH. reflexivity.
Defined.

(** ** [write_color]: the order of the bytes (color.h, 16-19) *)

Lemma digits2_pos_ge p : 2 ^ (Zpos (digits2_pos p) - 1) <= Zpos p.
Proof.
  induction p as [p IH|p IH|]; cbn [digits2_pos]; [| |reflexivity];
    rewrite Pos2Z.inj_succ;
    replace (Z.succ (Zpos (digits2_pos p)) - 1) with ((Zpos (digits2_pos p) - 1) + 1) by lia;
    rewrite Z.pow_add_r by lia; change (2 ^ 1) with 2; lia.
Qed.

(** The order of two positive finite numbers. *)
Lemma dle_finite m1 e1 m2 e2 :
  dle (S754_finite false m1 e1) (S754_finite false m2 e2) = true <->
  e1 < e2 \/ (e1 = e2 /\ Zpos m1 <= Zpos m2).
Proof.
  unfold dle, SFleb, SFcompare.
  destruct (Z.compare_spec e1 e2) as [He|He|He].
  - change (Pos.compare_cont Eq m1 m2) with (Pos.compare m1 m2).
    destruct (Pos.compare_spec m1 m2) as [Hm|Hm|Hm]; split; intros H;
      try discriminate; try reflexivity; try lia.
  - split; intros; [lia|reflexivity].
  - split; intros H; [discriminate|lia].
Qed.

Lemma dlt_finite m1 e1 m2 e2 :
  dlt (S754_finite false m1 e1) (S754_finite false m2 e2) = true <->
  e1 < e2 \/ (e1 = e2 /\ Zpos m1 < Zpos m2).
Proof.
  unfold dlt, SFltb, SFcompare.
  destruct (Z.compare_spec e1 e2) as [He|He|He].
  - change (Pos.compare_cont Eq m1 m2) with (Pos.compare m1 m2).
    destruct (Pos.compare_spec m1 m2) as [Hm|Hm|Hm]; split; intros H;
      try discriminate; try reflexivity; try lia.
  - split; intros; [lia|reflexivity].
  - split; intros H; [discriminate|lia].
Qed.

(** The truncation of 256 times a double of [(0, 1)]. *)
Lemma scaled_byte m e :
  is_double (S754_finite false m e) -> e <= -53 ->
  int_of_double (dmul (double_of_int 256) (S754_finite false m e))
  = Some (if Zpos (digits2_pos m) =? 53 then Zpos m / 2 ^ (- (e + 8)) else 0).
Proof.
  intros Hv He. apply bounded_spec in Hv as [Hc Hmax].
  pose proof (digits2_pos_lt m) as Hm.
  destruct (Z.eqb_spec (Zpos (digits2_pos m)) 53) as [Hd|Hd].
  - rewrite dmul_256_normal by lia. rewrite Hd in Hm.
    unfold int_of_double. cbn [truncate cond_Zopp]. rewrite shiftl_nonpos by lia.
    assert (Hp : 2 ^ 45 <= 2 ^ (- (e + 8))) by (apply Z.pow_le_mono_r; lia).
    assert (Hq : 0 <= Zpos m / 2 ^ (- (e + 8)) < 256).
    { split; [apply Z.div_pos; lia|].
      apply Z.div_lt_upper_bound; [lia|].
      change (2 ^ 53) with (2 ^ 45 * 256) in Hm. nia. }
    replace (INT_MIN <=? Zpos m / 2 ^ (- (e + 8))) with true
      by (symmetry; apply Z.leb_le; unfold INT_MIN; lia).
    replace (Zpos m / 2 ^ (- (e + 8)) <=? INT_MAX) with true
      by (symmetry; apply Z.leb_le; unfold INT_MAX; lia).
    reflexivity.
  - assert (e = -1074 /\ Zpos (digits2_pos m) < 53) as [-> Hlt] by lia.
    unfold int_of_double. rewrite dmul_256_subnormal by assumption. reflexivity.
Qed.

(** The truncation of 256 times [v] grows with [v]. *)
Lemma scaled_byte_monotone m1 e1 m2 e2 b1 b2 :
  is_double (S754_finite false m1 e1) -> is_double (S754_finite false m2 e2) ->
  e2 <= -53 ->
  dle (S754_finite false m1 e1) (S754_finite false m2 e2) = true ->
  int_of_double (dmul (double_of_int 256) (S754_finite false m1 e1)) = Some b1 ->
  int_of_double (dmul (double_of_int 256) (S754_finite false m2 e2)) = Some b2 ->
  b1 <= b2.
Proof.
  intros Hv1 Hv2 He2 Hle. apply dle_finite in Hle.
  rewrite (scaled_byte m1 e1 Hv1) by lia. rewrite (scaled_byte m2 e2 Hv2) by lia.
  apply bounded_spec in Hv1 as [Hc1 _]. apply bounded_spec in Hv2 as [Hc2 _].
  pose proof (digits2_pos_lt m1) as Hlt1. pose proof (digits2_pos_ge m1) as Hge1.
  pose proof (digits2_pos_lt m2) as Hlt2. pose proof (digits2_pos_ge m2) as Hge2.
  destruct (Z.eqb_spec (Zpos (digits2_pos m1)) 53) as [Hd1|Hd1];
    destruct (Z.eqb_spec (Zpos (digits2_pos m2)) 53) as [Hd2|Hd2];
    intros [= <-] [= <-]; [| |apply Z.div_pos; [lia|apply Z.pow_pos_nonneg; lia]|lia].
  - rewrite Hd1, Hd2 in *. change (2 ^ (53 - 1)) with (2 ^ 52) in Hge1, Hge2.
    { destruct Hle as [Hlt|[-> Hm]].
      * assert (Hk : 2 * 2 ^ (- (e2 + 8)) <= 2 ^ (- (e1 + 8))).
        { replace (- (e1 + 8)) with (1 + (- (e2 + 8) + (e2 - e1 - 1))) by lia.
          rewrite Z.pow_add_r by lia. change (2 ^ 1) with 2.
          rewrite Z.pow_add_r by lia.
          assert (0 < 2 ^ (- (e2 + 8))) by (apply Z.pow_pos_nonneg; lia).
          assert (1 <= 2 ^ (e2 - e1 - 1)) by (apply Z.pow_le_mono_r with (b := 0); lia).
          nia. }
        assert (Hp2 : 0 < 2 ^ (- (e2 + 8))) by (apply Z.pow_pos_nonneg; lia).
        assert (Hp1 : 0 < 2 ^ (- (e1 + 8))) by lia.
        apply Z.div_le_lower_bound; [exact Hp2|].
        pose proof (Z.mul_div_le (Zpos m1) (2 ^ (- (e1 + 8))) Hp1) as Hq.
        assert (0 <= Zpos m1 / 2 ^ (- (e1 + 8))) by (apply Z.div_pos; lia).
        change (2 ^ 53) with (2 * 2 ^ 52) in Hlt1. nia.
      * apply Z.div_le_mono; [apply Z.pow_pos_nonneg; lia|exact Hm]. }
  - exfalso. rewrite Hd1 in *. change (2 ^ (53 - 1)) with (2 ^ 52) in Hge1.
    assert (He : e2 = -1074 /\ Zpos (digits2_pos m2) <= 52) by lia.
    destruct He as [-> Hd].
    assert (Zpos m2 < 2 ^ 52).
    { eapply Z.lt_le_trans; [exact Hlt2|]. apply Z.pow_le_mono_r; lia. }
    lia.
Qed.

(** The byte that [write_color] prints for a channel grows with the
    channel, over the whole range of the doubles and across the two bounds
    of the clamp: a brighter value never gets a smaller byte. *)
Theorem channel_byte_monotone (a b : double) (ba bb : Z) :
  is_double a -> is_double b ->
  dle a b = true ->
  channel_byte a = Some ba -> channel_byte b = Some bb ->
  ba <= bb.
Proof.
  intros Ha Hb Hle Ea Eb.
  assert (Hra : 0 <= ba <= 255).
  { destruct (channel_byte_spec a Ha) as [[_ E]|(_ & b0 & E & H)]; [congruence|].
    rewrite E in Ea. injection Ea as <-. exact H. }
  assert (Hrb : 0 <= bb <= 255).
  { destruct (channel_byte_spec b Hb) as [[_ E]|(_ & b0 & E & H)]; [congruence|].
    rewrite E in Eb. injection Eb as <-. exact H. }
  destruct a as [sa|sa| |sa ma ea].
  - assert (ba = 0) as -> by (destruct sa; vm_compute in Ea; congruence). lia.
  - destruct sa.
    + assert (ba = 0) as -> by (vm_compute in Ea; congruence). lia.
    + assert (bb = 255) as ->; [|lia].
      destruct b as [sb|[]| |sb mb eb]; try discriminate Hle.
      vm_compute in Eb. congruence.
  - discriminate Hle.
  - destruct sa.
    + rewrite channel_byte_below in Ea by (rewrite intensity_eq; reflexivity).
      injection Ea as <-. lia.
    + destruct b as [sb|[]| |[] mb eb]; try discriminate Hle.
      * assert (bb = 255) as -> by (vm_compute in Eb; congruence). lia.
      * destruct (dlt (imax intensity) (S754_finite false mb eb)) eqn:Hhi.
        { rewrite channel_byte_above in Eb by exact Hhi. injection Eb as <-. lia. }
        rewrite intensity_eq in Hhi. cbn [imax] in Hhi.
        assert (Hb' : eb < -53 \/ (eb = -53 /\ Zpos mb <= 8998192055486251)).
        { destruct (Z.lt_trichotomy eb (-53)) as [H|[H|H]]; [left; exact H| |].
          - right. split; [exact H|].
            destruct (Z.le_gt_cases (Zpos mb) 8998192055486251) as [Hm|Hm]; [exact Hm|].
            assert (Hc : dlt (S754_finite false 8998192055486251 (-53))
                             (S754_finite false mb eb) = true)
              by (apply dlt_finite; right; lia).
            congruence.
          - assert (Hc : dlt (S754_finite false 8998192055486251 (-53))
                             (S754_finite false mb eb) = true)
              by (apply dlt_finite; left; lia).
            congruence. }
        pose proof (proj1 (dle_finite ma ea mb eb) Hle) as Hab.
        assert (Hlo : dlt (imax intensity) (S754_finite false ma ea) = false).
        { rewrite intensity_eq. cbn [imax].
          destruct (dlt _ (S754_finite false ma ea)) eqn:Hc; [|reflexivity].
          apply dlt_finite in Hc. lia. }
        rewrite intensity_eq in Hlo. cbn [imax] in Hlo.
        unfold channel_byte, clamp in Ea, Eb.
        rewrite intensity_eq in Ea, Eb. cbn [imin imax] in Ea, Eb.
        rewrite Hlo in Ea. rewrite Hhi in Eb.
        change (dlt (S754_finite false ma ea) (S754_zero false)) with false in Ea.
        change (dlt (S754_finite false mb eb) (S754_zero false)) with false in Eb.
        cbv iota in Ea, Eb.
        eapply (scaled_byte_monotone ma ea mb eb); try eassumption. lia.
Qed.

(** The bytes of 0.25 and of 0.5. *)
Lemma channel_byte_monotone_witness :
  dle (decimal 25 2) (decimal 5 1) = true /\
  channel_byte (decimal 25 2) = Some 64 /\
  channel_byte (decimal 5 1) = Some 128 /\
  64 <= 128.
Proof.
  split_and!; [vm_compute; reflexivity..|].
  apply (channel_byte_monotone (decimal 25 2) (decimal 5 1) 64 128);
    vm_compute; reflexivity.
Defined.

